(** * game-town: the session hub of server/main.py

    A shallow embedding of [server/main.py]: the four in-memory registries
    ([players], [connections], [pending_games], [active_games]), the two
    fan-out helpers ([broadcast], [send_to_players]), the body of
    [ws_endpoint] (handshake, main loop, cleanup) and the body of
    [game_loop].

    Modelling conventions.
    - Python [float] is IEEE-754 binary64: [PrimFloat.float].  The small
      integers the code mixes in ([100], [9], [42], ...) are written as the
      floats of the same value.  The one operation that leaves IEEE
      arithmetic, the power of line 117, calls the C library, which is a
      parameter ([Py.Libm]).
    - A Python [str] is a [string] holding its UTF-8 encoding; slicing and
      stripping work on code points.
    - A Python [dict] is an association list in insertion order, which is
      the order [connections.items()] and [players.values()] iterate in.
    - The player dictionaries are shared objects: [players[pid]],
      the local [player] of the endpoint and [pending["host"]] are the same
      object.  They live in [heap] and are named by their index there.
    - Every [json.dumps] call is one log entry: the message and the sockets
      on which [send_text] succeeded, in order.
    - A handler runs to completion between two events (the cooperative
      scheduling the module relies on). *)

From Stdlib Require Import Floats List String Ascii ZArith Bool Lia PeanoNat.
Import ListNotations.

Set Warnings "-inexact-float,-abstract-large-number".

Set Implicit Arguments.

Local Open Scope bool_scope.
Local Open Scope list_scope.

(** ** Python dictionaries *)

Module Dict.
Section Ops.
Context {V : Type}.

Definition t := list (string * V).

(** [d.get(k)] *)
Fixpoint get (k : string) (d : t) : option V :=
  match d with
  | [] => None
  | (k', v) :: d' => if String.eqb k k' then Some v else get k d'
  end.

(** [k in d] *)
Definition mem (k : string) (d : t) : bool :=
  match get k d with Some _ => true | None => false end.

(** [d[k] = v]: an existing key keeps its place, a new one goes last. *)
Fixpoint set (k : string) (v : V) (d : t) : t :=
  match d with
  | [] => [(k, v)]
  | (k', v') :: d' =>
      if String.eqb k k' then (k, v) :: d' else (k', v') :: set k v d'
  end.

(** [d.pop(k, None)]: the entry of [k] goes, the others keep their
    order. *)
Definition pop (k : string) (d : t) : t :=
  filter (fun kv => negb (String.eqb k (fst kv))) d.

Definition keys (d : t) : list string := map fst d.
Definition values (d : t) : list V := map snd d.

(** [for k in ks: d.pop(k, None)] *)
Definition pop_all (ks : list string) (d : t) : t :=
  fold_left (fun acc k => pop k acc) ks d.
End Ops.
Arguments t : clear implicits.
End Dict.

(** ** Numbers and strings as Python treats them *)

Module Py.
Local Open Scope float_scope.

(** [bool(x)] of a float: everything but the two zeros. *)
Definition truthy (x : float) : bool := negb (x =? 0).

(** [a or b] on floats. *)
Definition or_else (a b : float) : float := if truthy a then a else b.

(** [min(a, b)] and [max(a, b)]: the first argument wins ties and
    incomparable values. *)
Definition min (a b : float) : float := if b <? a then b else a.
Definition max (a b : float) : float := if a <? b then b else a.

Definition is_inf (x : float) : bool :=
  (x =? infinity) || (x =? neg_infinity).

(** The one call [float.__pow__] makes into the C library: [pow(v, 2.0)]
    for a finite [v > 0] other than [1], and whether the call left [errno]
    set.  The library's result is close to the square but is not the same
    from one library to the next; no property below depends on which it
    is. *)
Class Libm := {
  c_pow2 : float -> float;
  c_errno : float -> bool
}.

Definition is_nan (x : float) : bool := negb (x =? x).

(** [x ** 2] as [float_pow] computes it.  NaN, the infinities, the zeros
    and [1] and [-1] are settled before the library is asked; a negative
    base is replaced by its absolute value, the exponent being even.  After
    the call an infinite result counts as a range error when [errno] is
    clear, a zero result clears a range error, and any error left raises;
    [None] is that exception. *)
Definition pow2 `{Libm} (x : float) : option float :=
  if is_nan x then Some x
  else if is_inf x then Some infinity
  else if x =? 0 then Some 0
  else
    let v := abs x in
    if v =? 1 then Some 1
    else
      let r := c_pow2 v in
      let failed := if c_errno v then negb (r =? 0) else is_inf r in
      if failed then None else Some r.

(** A library whose [pow(v, 2.0)] is the correctly rounded square and
    which reports a range error exactly when that is infinite. *)
Definition exact_libm : Libm :=
  {| c_pow2 := fun v => v * v; c_errno := fun v => is_inf (v * v) |}.

(** A Python [str] is held as its UTF-8 encoding (a lone surrogate as the
    three bytes of the generalised encoding), so that equality and
    concatenation are those of the bytes; what counts or inspects
    characters works on code points. *)

(** A byte that continues a character: [10xxxxxx]. *)
Definition continues (c : ascii) : bool :=
  let n := nat_of_ascii c in ((128 <=? n) && (n <? 192))%nat.

(** [len(s)]: the number of code points. *)
Fixpoint len (s : string) : nat :=
  match s with
  | String c s' => if continues c then len s' else S (len s')
  | EmptyString => O
  end.

(** [s[:n]]: the first [n] code points. *)
Fixpoint prefix (n : nat) (s : string) : string :=
  match s with
  | String c s' =>
      if continues c then String c (prefix n s')
      else
        match n with
        | S n' => String c (prefix n' s')
        | O => EmptyString
        end
  | EmptyString => EmptyString
  end.

(** The characters of a string: each leading byte with the bytes that
    continue it. *)
Definition continued (ch : string) : bool :=
  match ch with
  | String c _ => continues c
  | EmptyString => false
  end.

Fixpoint chars (s : string) : list string :=
  match s with
  | String c s' =>
      match chars s' with
      | ch :: rest =>
          if continued ch then String c ch :: rest
          else String c EmptyString :: ch :: rest
      | [] => [String c EmptyString]
      end
  | EmptyString => []
  end.

(** [ord(ch)]: the code point a character encodes. *)
Definition leading_bits (n : N) : N :=
  (if n <? 128 then n
   else if n <? 224 then n - 192
   else if n <? 240 then n - 224
   else n - 240)%N.

Fixpoint ord_from (acc : N) (s : string) : N :=
  match s with
  | String c s' => ord_from (acc * 64 + (N_of_ascii c - 128))%N s'
  | EmptyString => acc
  end.

Definition ord (ch : string) : N :=
  match ch with
  | String c s' => ord_from (leading_bits (N_of_ascii c)) s'
  | EmptyString => 0%N
  end.

(** [ch.isspace()]: the white space of [str.strip], which is U+0009 to
    U+000D, U+001C to U+0020, U+0085, U+00A0, U+1680, U+2000 to U+200A,
    U+2028, U+2029, U+202F, U+205F and U+3000. *)
Definition isspace (ch : string) : bool :=
  let n := ord ch in
  (((9 <=? n) && (n <=? 13)) || ((28 <=? n) && (n <=? 32))
   || (n =? 133) || (n =? 160) || (n =? 5760)
   || ((8192 <=? n) && (n <=? 8202))
   || (n =? 8232) || (n =? 8233) || (n =? 8239) || (n =? 8287)
   || (n =? 12288))%N.

Fixpoint lstrip (l : list string) : list string :=
  match l with
  | ch :: l' => if isspace ch then lstrip l' else l
  | [] => []
  end.

(** [s.strip()] *)
Definition strip (s : string) : string :=
  String.concat EmptyString (rev (lstrip (rev (lstrip (chars s))))).
End Py.

(** ** Data model *)

(** [{"id", "name", "x", "y", "zone"}] *)
Record player := {
  p_id : string;
  p_name : string;
  p_x : float;
  p_y : float;
  p_zone : string
}.

(** A roster entry of [game_started]: a copy of a player, with ['side'] when
    it was built by [join_game]. *)
Record participant := {
  part_player : player;
  part_side : option string
}.

Record ball := {
  b_x : float;
  b_y : float;
  b_vx : float;
  b_vy : float;
  b_r : float
}.

Record paddles := { left_y : float; right_y : float }.
Record scores := { s_left : Z; s_right : Z }.

(** The [game_state] dictionary of line 191; [g_host] is the shared player
    object of the host. *)
Record game_state := {
  g_host : nat;
  g_host_id : string;
  g_participants : list string;
  g_ball : ball;
  g_paddles : paddles;
  g_scores : scores;
  g_winTo : Z
}.

(** A started [game_loop(host_id, state_dict)] coroutine.  [participant_ids]
    is not an argument of the coroutine: it is a free variable, the local of
    the [ws_endpoint] call that defined it, so the task records whose. *)
Record game_task := {
  t_state : game_state;
  t_host_id : string;
  t_owner : string;
  t_running : bool
}.

(** An entry of [pending_games]; [pg_host] is the shared player object. *)
Record pending := {
  pg_game : string;
  pg_zone : string;
  pg_host : nat;
  pg_participants : list string
}.

Inductive server_msg :=
| Welcome (you : player) (others : list player)
| JoinRejected (reason suggestion : string)
| PlayerJoined (p : player)
| PlayerMoved (p : player)
| PlayerLeft (id : string)
| ChatMsg (from content : string)
| GlobalChatMsg (from content : string)
| GameInvite (host : player) (game zone : string)
| GamePending (host : player) (game zone : string)
| GameStarted (host : player) (game zone : string) (roster : list participant)
| GameStateMsg (host_id : string) (b : ball) (p : paddles) (s : scores)
| GameOver (s : scores).

(** One [json.dumps(message)] and the sockets that took it. *)
Record sent := { body : server_msg; rcpts : list nat }.

(** A field of a decoded frame: the key is missing (or holds a value the
    handler treats as missing), holds a value of the protocol's type, or
    holds a value on which the handler's use of it raises. *)
Inductive field (A : Type) := Absent | Val (a : A) | Bad.
Arguments Absent {A}.
Arguments Bad {A}.

(** A received text frame, after [json.loads].  [Malformed]: [json.loads]
    raises or the result is not an object.  [Untyped]: an object with no
    ["type"].  [Unknown]: an object of any other type. *)
Inductive frame :=
| Malformed
| Untyped
| Unknown
| Join (name : field string)
| Move (x y : field float)
| Chat (content : field string)
| GlobalChat (content : field string)
| StartGame (game zone : option string)
| JoinGame (host_id : field string)
| PaddleMove (host_id : field string) (side : option string) (y : field float).

Inductive phase := AwaitingJoin | Joined | Closed.

(** The frame of one [ws_endpoint] call: its socket, where it stands, and
    the locals other code can see ([player], [participant_ids]). *)
Record session := {
  ss_ws : nat;
  ss_phase : phase;
  ss_player : nat;
  ss_participant_ids : list string
}.

(** The module's globals, the objects they share, the running coroutines
    and the sockets on which [send_text] raises. *)
Record world := {
  heap : list player;
  players : Dict.t nat;
  connections : Dict.t nat;
  pending_games : Dict.t pending;
  active_games : Dict.t nat;
  tasks : list game_task;
  sessions : Dict.t session;
  dead : list nat
}.

Definition empty_world : world :=
  {| heap := []; players := []; connections := []; pending_games := [];
     active_games := []; tasks := []; sessions := []; dead := [] |}.

(** Field updates of [world]. *)
Definition with_heap (h : list player) (w : world) : world :=
  {| heap := h; players := players w; connections := connections w;
     pending_games := pending_games w; active_games := active_games w;
     tasks := tasks w; sessions := sessions w; dead := dead w |}.
Definition with_players (p : Dict.t nat) (w : world) : world :=
  {| heap := heap w; players := p; connections := connections w;
     pending_games := pending_games w; active_games := active_games w;
     tasks := tasks w; sessions := sessions w; dead := dead w |}.
Definition with_connections (c : Dict.t nat) (w : world) : world :=
  {| heap := heap w; players := players w; connections := c;
     pending_games := pending_games w; active_games := active_games w;
     tasks := tasks w; sessions := sessions w; dead := dead w |}.
Definition with_pending_games (p : Dict.t pending) (w : world) : world :=
  {| heap := heap w; players := players w; connections := connections w;
     pending_games := p; active_games := active_games w;
     tasks := tasks w; sessions := sessions w; dead := dead w |}.
Definition with_active_games (a : Dict.t nat) (w : world) : world :=
  {| heap := heap w; players := players w; connections := connections w;
     pending_games := pending_games w; active_games := a;
     tasks := tasks w; sessions := sessions w; dead := dead w |}.
Definition with_tasks (t : list game_task) (w : world) : world :=
  {| heap := heap w; players := players w; connections := connections w;
     pending_games := pending_games w; active_games := active_games w;
     tasks := t; sessions := sessions w; dead := dead w |}.
Definition with_sessions (s : Dict.t session) (w : world) : world :=
  {| heap := heap w; players := players w; connections := connections w;
     pending_games := pending_games w; active_games := active_games w;
     tasks := tasks w; sessions := s; dead := dead w |}.
Definition with_dead (d : list nat) (w : world) : world :=
  {| heap := heap w; players := players w; connections := connections w;
     pending_games := pending_games w; active_games := active_games w;
     tasks := tasks w; sessions := sessions w; dead := d |}.

(** [l[n] = x] on a list that has an [n]-th element. *)
Fixpoint list_set {A : Type} (n : nat) (x : A) (l : list A) : list A :=
  match l, n with
  | [], _ => []
  | _ :: l', O => x :: l'
  | y :: l', S n' => y :: list_set n' x l'
  end.

Definition no_player : player :=
  {| p_id := ""; p_name := ""; p_x := 0; p_y := 0; p_zone := "" |}.

(** The object a reference names. *)
Definition deref (w : world) (r : nat) : player := nth r (heap w) no_player.

(** ** Handlers: state, log and exceptions *)

Inductive outcome (A : Type) := Done (a : A) | Raised.
Arguments Raised {A}.

Definition M (A : Type) : Type := world -> outcome A * world * list sent.

Definition ret {A : Type} (a : A) : M A := fun w => (Done a, w, []).

Definition bind {A B : Type} (m : M A) (f : A -> M B) : M B :=
  fun w =>
    match m w with
    | (Done a, w1, o1) =>
        match f a w1 with (r, w2, o2) => (r, w2, o1 ++ o2) end
    | (Raised, w1, o1) => (Raised, w1, o1)
    end.

Definition raise {A : Type} : M A := fun w => (Raised, w, []).
Definition gets {A : Type} (f : world -> A) : M A := fun w => (Done (f w), w, []).
Definition modify (f : world -> world) : M unit := fun w => (Done tt, f w, []).
Definition emit (s : sent) : M unit := fun w => (Done tt, w, [s]).

Declare Scope hub_scope.
Delimit Scope hub_scope with hub.
Notation "x <- c1 ;; c2" := (bind c1 (fun x => c2))
  (at level 61, c1 at next level, right associativity) : hub_scope.
Notation "c1 ;; c2" := (bind c1 (fun _ => c2))
  (at level 61, right associativity) : hub_scope.
Local Open Scope hub_scope.

(** ** Fan-out (lines 26-55) *)

(** [send_text] raises on the sockets of [dead]. *)
Definition alive (w : world) (ws : nat) : bool :=
  negb (existsb (Nat.eqb ws) (dead w)).

(** [await ws.send_text(json.dumps(message))] outside a [try]. *)
Definition send_text (ws : nat) (message : server_msg) : M unit :=
  fun w =>
    if alive w ws then (Done tt, w, [{| body := message; rcpts := [ws] |}])
    else (Raised, w, []).

(** One turn of the sending loops: the socket that takes the message, if
    the id has one and [send_text] does not raise. *)
Definition reached (w : world) (target : string * option nat) : list nat :=
  match snd target with
  | Some ws => if alive w ws then [ws] else []
  | None => []
  end.

Definition failed (w : world) (target : string * option nat) : bool :=
  match snd target with
  | Some ws => negb (alive w ws)
  | None => true
  end.

(** The second loop of both helpers: [connections.pop(pid, None)] and
    [players.pop(pid, None)] for every id of [to_remove]. *)
Definition evict (to_remove : list string) (w : world) : world :=
  with_players (Dict.pop_all to_remove (players w))
    (with_connections (Dict.pop_all to_remove (connections w)) w).

Definition fan_out (targets : list (string * option nat))
    (message : server_msg) : M unit :=
  fun w =>
    let to_remove := map fst (filter (failed w) targets) in
    (Done tt, evict to_remove w,
     [{| body := message; rcpts := flat_map (reached w) targets |}]).

Definition excluded (exclude : option string) (pid : string) : bool :=
  match exclude with
  | Some e => String.eqb pid e
  | None => false
  end.

(** [broadcast(message, exclude)] *)
Definition broadcast (message : server_msg) (exclude : option string) : M unit :=
  fun w =>
    fan_out
      (map (fun kv => (fst kv, Some (snd kv)))
         (filter (fun kv => negb (excluded exclude (fst kv))) (connections w)))
      message w.

(** [send_to_players(player_ids, message)] *)
Definition send_to_players (player_ids : list string) (message : server_msg)
    : M unit :=
  fun w =>
    fan_out (map (fun pid => (pid, Dict.get pid (connections w))) player_ids)
      message w.

(** ** The body of [ws_endpoint] (lines 58-292) *)

(** [f"Player-{player_id[:4]}"] *)
Definition auto_name (player_id : string) : string :=
  ("Player-" ++ Py.prefix 4 player_id)%string.

(** [any(p.get('name') == n for p in players.values())] *)
Definition name_taken (w : world) (n : string) : bool :=
  existsb (fun r => String.eqb (p_name (deref w r)) n) (Dict.values (players w)).

(** [(msg.get("name") or f"Player-{player_id[:4]}").strip()]: a missing,
    null or empty name is falsy; a truthy value that is not a string has no
    [strip]. *)
Definition proposed_name (player_id : string) (name : field string)
    : option string :=
  match name with
  | Absent => Some (Py.strip (auto_name player_id))
  | Val EmptyString => Some (Py.strip (auto_name player_id))
  | Val s => Some (Py.strip s)
  | Bad => None
  end.

Definition set_session (id : string) (s : session) : M unit :=
  modify (fun w => with_sessions (Dict.set id s (sessions w)) w).

(** Lines 87-95: spawn, register, welcome, announce; the endpoint then
    enters its main loop. *)
Definition register (player_id : string) (ws : nat) (name : string) : M unit :=
  r <- gets (fun w => List.length (heap w)) ;;
  let player :=
    {| p_id := player_id; p_name := name; p_x := 100; p_y := 100;
       p_zone := "town" |} in
  modify (fun w => with_heap (heap w ++ [player]) w) ;;
  set_session player_id
    {| ss_ws := ws; ss_phase := AwaitingJoin; ss_player := r;
       ss_participant_ids := [] |} ;;
  modify (fun w => with_players (Dict.set player_id r (players w)) w) ;;
  modify (fun w => with_connections (Dict.set player_id ws (connections w)) w) ;;
  snapshot <- gets (fun w => map (deref w) (Dict.values (players w))) ;;
  send_text ws (Welcome player snapshot) ;;
  broadcast (PlayerJoined player) (Some player_id) ;;
  set_session player_id
    {| ss_ws := ws; ss_phase := Joined; ss_player := r;
       ss_participant_ids := [] |}.

(** One turn of the handshake loop (lines 65-84) and what follows it.
    [u] is the [str(uuid.uuid4())] line 82 draws when it needs one. *)
Definition handshake (player_id : string) (s : session) (f : frame)
    (u : string) : M unit :=
  match f with
  | Malformed => raise
  | Join name =>
      match proposed_name player_id name with
      | None => raise
      | Some proposed =>
          duplicate <- gets (fun w => name_taken w proposed) ;;
          if duplicate then
            send_text (ss_ws s)
              (JoinRejected "duplicate" (proposed ++ "-1")%string)
          else register player_id (ss_ws s) proposed
      end
  | _ =>
      let auto := auto_name player_id in
      taken <- gets (fun w => name_taken w auto) ;;
      register player_id (ss_ws s)
        (if taken then (auto ++ "-" ++ Py.prefix 4 u)%string else auto)
  end.

(** [float(msg.get(key, default))] *)
Definition float_field (default : float) (f : field float) : M float :=
  match f with
  | Absent => ret default
  | Val v => ret v
  | Bad => raise
  end.

(** [msg.get("content", "")[:1000]] *)
Definition content_field (f : field string) : M string :=
  match f with
  | Absent => ret ""%string
  | Val s => ret (Py.prefix 1000 s)
  | Bad => raise
  end.

Definition set_x (x : float) (p : player) : player :=
  {| p_id := p_id p; p_name := p_name p; p_x := x; p_y := p_y p;
     p_zone := p_zone p |}.
Definition set_y (y : float) (p : player) : player :=
  {| p_id := p_id p; p_name := p_name p; p_x := p_x p; p_y := y;
     p_zone := p_zone p |}.

(** [player[key] = v] on the shared object. *)
Definition mutate (r : nat) (f : player -> player) : M unit :=
  modify (fun w => with_heap (list_set r (f (deref w r)) (heap w)) w).

(** Lines 102-109. *)
Definition on_move (player_id : string) (s : session) (fx fy : field float)
    : M unit :=
  let player := ss_player s in
  x <- (old <- gets (fun w => p_x (deref w player)) ;; float_field old fx) ;;
  y <- (old <- gets (fun w => p_y (deref w player)) ;; float_field old fy) ;;
  mutate player (set_x x) ;;
  mutate player (set_y y) ;;
  modify (fun w => with_players (Dict.set player_id player (players w)) w) ;;
  moved <- gets (fun w => deref w player) ;;
  broadcast (PlayerMoved moved) None.

(** [(p["x"] - player["x"]) ** 2 + (p["y"] - player["y"]) ** 2]; [None] when
    a power raises. *)
Definition sq_dist `{Py.Libm} (p me : player) : option float :=
  match Py.pow2 (p_x p - p_x me)%float with
  | None => None
  | Some dx2 =>
      match Py.pow2 (p_y p - p_y me)%float with
      | None => None
      | Some dy2 => Some (dx2 + dy2)%float
      end
  end.

(** The comprehension of lines 114-118 over [players.items()]; the distance
    is not computed for the sender's own entry. *)
Fixpoint nearby_players `{Py.Libm} (w : world) (player_id : string) (me : player)
    (items : Dict.t nat) : option (list string) :=
  match items with
  | [] => Some []
  | (pid, r) :: rest =>
      if negb (String.eqb pid player_id) then
        match sq_dist (deref w r) me with
        | None => None
        | Some d =>
            match nearby_players w player_id me rest with
            | None => None
            | Some l => Some (if (d <=? 40000)%float then pid :: l else l)
            end
        end
      else nearby_players w player_id me rest
  end.

(** Lines 111-129. *)
Definition on_chat `{Py.Libm} (player_id : string) (s : session) (c : field string)
    : M unit :=
  content <- content_field c ;;
  me <- gets (fun w => deref w (ss_player s)) ;;
  near <- gets (fun w => nearby_players w player_id me (players w)) ;;
  match near with
  | None => raise
  | Some nearby =>
      send_to_players nearby (ChatMsg (p_name me) content) ;;
      send_text (ss_ws s) (ChatMsg (p_name me) content)
  end.

(** Lines 131-137. *)
Definition on_global_chat (s : session) (c : field string) : M unit :=
  content <- content_field c ;;
  me <- gets (fun w => deref w (ss_player s)) ;;
  broadcast (GlobalChatMsg (p_name me) content) None.

Definition or_default (d : string) (o : option string) : string :=
  match o with Some v => v | None => d end.

(** Lines 139-160. *)
Definition on_start_game (player_id : string) (s : session)
    (g z : option string) : M unit :=
  let game := or_default "minigame" g in
  let zone := or_default "arcade" z in
  me <- gets (fun w => deref w (ss_player s)) ;;
  let solo := [{| part_player := me; part_side := None |}] in
  if String.eqb game "breakout" then
    send_text (ss_ws s) (GameStarted me game zone solo)
  else
    n <- gets (fun w => List.length (players w)) ;;
    if (0 <? Z.of_nat n - 1)%Z then
      modify (fun w =>
        with_pending_games
          (Dict.set player_id
             {| pg_game := game; pg_zone := zone; pg_host := ss_player s;
                pg_participants := [player_id] |}
             (pending_games w)) w) ;;
      broadcast (GameInvite me game zone) (Some player_id) ;;
      send_text (ss_ws s) (GamePending me game zone)
    else broadcast (GameStarted me game zone solo) None.

(** Lines 173-182: [players.get(pid)], skipped when it is [None], else a
    copy annotated with its side. *)
Definition roster_entry (w : world) (side pid : string) : list participant :=
  match Dict.get pid (players w) with
  | Some r => [{| part_player := deref w r; part_side := Some side |}]
  | None => []
  end.

Definition build_roster (w : world) (host_pid joiner_pid : string)
    : list participant :=
  roster_entry w "left" host_pid ++ roster_entry w "right" joiner_pid.

(** Lines 191-199. *)
Definition new_game (pg : pending) (host_pid : string)
    (participant_ids : list string) : game_state :=
  {| g_host := pg_host pg;
     g_host_id := host_pid;
     g_participants := participant_ids;
     g_ball := {| b_x := 400; b_y := 250; b_vx := 5; b_vy := 0; b_r := 9 |};
     g_paddles := {| left_y := 200; right_y := 200 |};
     g_scores := {| s_left := 0; s_right := 0 |};
     g_winTo := 7 |}.

(** A truthy string. *)
Definition nonempty (s : string) : bool :=
  match s with EmptyString => false | _ => true end.

(** Lines 162-262.  [host_id and host_id in pending_games]: a missing, null
    or empty id stops at [and]; a truthy unhashable value makes [in] raise. *)
Definition on_join_game (player_id : string) (s : session)
    (h : field string) : M unit :=
  match h with
  | Absent => ret tt
  | Bad => raise
  | Val host_id =>
      found <- gets (fun w => Dict.get host_id (pending_games w)) ;;
      match nonempty host_id, found with
      | true, Some pg =>
          modify (fun w =>
            with_pending_games (Dict.pop host_id (pending_games w)) w) ;;
          participants <- gets (fun w => build_roster w host_id player_id) ;;
          host <- gets (fun w => deref w (pg_host pg)) ;;
          broadcast (GameStarted host (pg_game pg) (pg_zone pg) participants)
            None ;;
          let participant_ids :=
            map (fun p => p_id (part_player p)) participants in
          set_session player_id
            {| ss_ws := ss_ws s; ss_phase := ss_phase s;
               ss_player := ss_player s;
               ss_participant_ids := participant_ids |} ;;
          task <- gets (fun w => List.length (tasks w)) ;;
          modify (fun w =>
            with_tasks
              (tasks w ++
               [{| t_state := new_game pg host_id participant_ids;
                   t_host_id := host_id; t_owner := player_id;
                   t_running := true |}]) w) ;;
          modify (fun w =>
            with_active_games (Dict.set host_id task (active_games w)) w)
      | _, _ => ret tt
      end
  end.

Definition set_paddles (p : paddles) (g : game_state) : game_state :=
  {| g_host := g_host g; g_host_id := g_host_id g;
     g_participants := g_participants g; g_ball := g_ball g;
     g_paddles := p; g_scores := g_scores g; g_winTo := g_winTo g |}.

Definition set_state (g : game_state) (t : game_task) : game_task :=
  {| t_state := g; t_host_id := t_host_id t; t_owner := t_owner t;
     t_running := t_running t |}.

(** [max(0, min(500-100, y))] *)
Definition clamp_paddle (y : float) : float := Py.max 0 (Py.min 400 y).

(** [side == 'left'] *)
Definition is_left (side : option string) : bool :=
  match side with
  | Some sd => String.eqb sd "left"
  | None => false
  end.

(** Lines 276-279 on the state object of a game. *)
Definition move_paddle (side : option string) (y : float) (g : game_state)
    : game_state :=
  if is_left side then
    set_paddles {| left_y := clamp_paddle y;
                   right_y := right_y (g_paddles g) |} g
  else
    set_paddles {| left_y := left_y (g_paddles g);
                   right_y := clamp_paddle y |} g.

(** Lines 269-279. *)
Definition on_paddle_move (h : field string) (side : option string)
    (fy : field float) : M unit :=
  y <- float_field 0 fy ;;
  match h with
  | Absent => ret tt
  | Bad => raise
  | Val host_id =>
      found <- gets (fun w => Dict.get host_id (active_games w)) ;;
      match nonempty host_id, found with
      | true, Some t =>
          modify (fun w =>
            match nth_error (tasks w) t with
            | Some tk =>
                with_tasks
                  (list_set t (set_state (move_paddle side y (t_state tk)) tk)
                     (tasks w)) w
            | None => w
            end)
      | _, _ => ret tt
      end
  end.

(** One turn of the main loop (lines 98-279). *)
Definition main_loop `{Py.Libm} (player_id : string) (s : session) (f : frame) : M unit :=
  match f with
  | Malformed => raise
  | Untyped => raise
  | Move x y => on_move player_id s x y
  | Chat c => on_chat player_id s c
  | GlobalChat c => on_global_chat s c
  | StartGame g z => on_start_game player_id s g z
  | JoinGame h => on_join_game player_id s h
  | PaddleMove h side y => on_paddle_move h side y
  | Join _ => ret tt
  | Unknown => ret tt
  end.

(** Lines 281-292: both [except] clauses. *)
Definition cleanup (player_id : string) (s : session) : M unit :=
  modify (fun w => with_connections (Dict.pop player_id (connections w)) w) ;;
  modify (fun w => with_players (Dict.pop player_id (players w)) w) ;;
  broadcast (PlayerLeft player_id) None ;;
  cur <- gets (fun w => Dict.get player_id (sessions w)) ;;
  let s' := match cur with Some c => c | None => s end in
  set_session player_id
    {| ss_ws := ss_ws s'; ss_phase := Closed; ss_player := ss_player s';
       ss_participant_ids := ss_participant_ids s' |}.

(** A turn of the endpoint under its [try]: what was done before an
    exception stays done, then the cleanup runs. *)
Definition guarded (player_id : string) (s : session) (m : M unit)
    (w : world) : world * list sent :=
  match m w with
  | (Done _, w1, o1) => (w1, o1)
  | (Raised, w1, o1) =>
      match cleanup player_id s w1 with
      | (_, w2, o2) => (w2, o1 ++ o2)
      end
  end.

(** ** The body of [game_loop] (lines 200-259) *)

Module Physics.
Local Open Scope float_scope.

Definition left_x : float := 42.
Definition right_x : float := 758.

Definition set_pos (x y : float) (b : ball) : ball :=
  {| b_x := x; b_y := y; b_vx := b_vx b; b_vy := b_vy b; b_r := b_r b |}.
Definition set_vel (vx vy : float) (b : ball) : ball :=
  {| b_x := b_x b; b_y := b_y b; b_vx := vx; b_vy := vy; b_r := b_r b |}.

(** Lines 207-208. *)
Definition integrate (b : ball) : ball :=
  set_pos (b_x b + b_vx b) (b_y b + b_vy b) b.

(** Lines 210-211 and 212-213. *)
Definition bounce_top (b : ball) : ball :=
  if b_y b - b_r b <=? 0
  then set_vel (b_vx b) (b_vy b * -1) (set_pos (b_x b) (b_r b) b)
  else b.
Definition bounce_bottom (b : ball) : ball :=
  if 500 <=? b_y b + b_r b
  then set_vel (b_vx b) (b_vy b * -1) (set_pos (b_x b) (500 - b_r b) b)
  else b.

(** [rel] and [speed] of lines 223-224 and 232-233. *)
Definition rel (paddle_y : float) (b : ball) : float :=
  (b_y b - (paddle_y + 50)) / 50.
Definition speed (b : ball) : float :=
  Py.or_else ((abs (b_vx b) + abs (b_vy b)) * 1.05) 5.

(** The two tests of lines 220-221 and of lines 229-230. *)
Definition hits_left (ly : float) (b : ball) : bool :=
  (b_x b - b_r b <=? left_x) && ((ly <? b_y b) && (b_y b <? ly + 100)).
Definition hits_right (ry : float) (b : ball) : bool :=
  (right_x <=? b_x b + b_r b) && ((ry <? b_y b) && (b_y b <? ry + 100)).

(** Lines 222-227 and 231-236. *)
Definition bounce_left (ly : float) (b : ball) : ball :=
  if hits_left ly b
  then set_vel (abs (speed b) * 1) (speed b * (0.5 * rel ly b))
         (set_pos (left_x + b_r b) (b_y b) b)
  else b.
Definition bounce_right (ry : float) (b : ball) : ball :=
  if hits_right ry b
  then set_vel (- abs (speed b) * 1) (speed b * (0.5 * rel ry b))
         (set_pos (right_x - b_r b) (b_y b) b)
  else b.

(** The ball when line 238 is reached. *)
Definition before_scoring (p : paddles) (b : ball) : ball :=
  bounce_right (right_y p)
    (bounce_left (left_y p) (bounce_bottom (bounce_top (integrate b)))).

(** [b.update({'x':400.0,'y':250.0,'vx':vx,'vy':0.0})] *)
Definition serve (vx : float) (b : ball) : ball :=
  set_vel vx 0 (set_pos 400 250 b).

(** Lines 238-241 and 242-244. *)
Definition score_right (sb : scores * ball) : scores * ball :=
  let (s, b) := sb in
  if b_x b <? 0
  then ({| s_left := s_left s; s_right := s_right s + 1 |}, serve 5 b)
  else sb.
Definition score_left (sb : scores * ball) : scores * ball :=
  let (s, b) := sb in
  if 800 <? b_x b
  then ({| s_left := s_left s + 1; s_right := s_right s |}, serve (-5) b)
  else sb.

(** Lines 206-244 on the state object. *)
Definition physics (g : game_state) : game_state :=
  let (s, b) :=
    score_left
      (score_right (g_scores g, before_scoring (g_paddles g) (g_ball g))) in
  {| g_host := g_host g; g_host_id := g_host_id g;
     g_participants := g_participants g; g_ball := b;
     g_paddles := g_paddles g; g_scores := s; g_winTo := g_winTo g |}.

(** The test of line 253. *)
Definition won (g : game_state) : bool :=
  (g_winTo g <=? s_left (g_scores g))%Z || (g_winTo g <=? s_right (g_scores g))%Z.
End Physics.

Definition finish (t : game_task) : game_task :=
  {| t_state := t_state t; t_host_id := t_host_id t; t_owner := t_owner t;
     t_running := false |}.

(** The current value of the [participant_ids] local of an endpoint. *)
Definition participant_ids_of (w : world) (owner : string) : list string :=
  match Dict.get owner (sessions w) with
  | Some s => ss_participant_ids s
  | None => []
  end.

(** One turn of the [while True] of [game_loop], for the task at index [t];
    a task that left its loop does nothing. *)
Definition game_tick (t : nat) : M unit :=
  cur <- gets (fun w => nth_error (tasks w) t) ;;
  match cur with
  | Some tk =>
      if t_running tk then
        let g := Physics.physics (t_state tk) in
        modify (fun w => with_tasks (list_set t (set_state g tk) (tasks w)) w) ;;
        ids <- gets (fun w => participant_ids_of w (t_owner tk)) ;;
        send_to_players ids
          (GameStateMsg (t_host_id tk) (g_ball g) (g_paddles g) (g_scores g)) ;;
        if Physics.won g then
          ids' <- gets (fun w => participant_ids_of w (t_owner tk)) ;;
          send_to_players ids' (GameOver (g_scores g)) ;;
          modify (fun w =>
            with_tasks (list_set t (finish (set_state g tk)) (tasks w)) w)
        else ret tt
      else ret tt
  | None => ret tt
  end.

(** ** The hub as a transition system *)

(** What can happen between two suspension points: a socket is accepted
    (with the [uuid4] the endpoint draws for it, a string that is not empty
    and was not drawn before), a frame arrives (with the [uuid4] line 82
    may draw), the peer goes away, a game loop wakes up, or a socket starts
    refusing sends. *)
Inductive event :=
| Connect (player_id : string) (ws : nat)
| Recv (player_id : string) (f : frame) (u : string)
| Disconnect (player_id : string)
| Tick (t : nat)
| Break (ws : nat).

Definition step `{Py.Libm} (e : event) (w : world) : world * list sent :=
  match e with
  | Connect player_id ws =>
      if Dict.mem player_id (sessions w) || negb (nonempty player_id)
      then (w, [])
      else
        (with_sessions
           (Dict.set player_id
              {| ss_ws := ws; ss_phase := AwaitingJoin; ss_player := 0;
                 ss_participant_ids := [] |} (sessions w)) w, [])
  | Recv player_id f u =>
      match Dict.get player_id (sessions w) with
      | Some s =>
          match ss_phase s with
          | AwaitingJoin => guarded player_id s (handshake player_id s f u) w
          | Joined => guarded player_id s (main_loop player_id s f) w
          | Closed => (w, [])
          end
      | None => (w, [])
      end
  | Disconnect player_id =>
      match Dict.get player_id (sessions w) with
      | Some s =>
          match ss_phase s with
          | Closed => (w, [])
          | _ => guarded player_id s raise w
          end
      | None => (w, [])
      end
  | Tick t =>
      match game_tick t w with (_, w', o) => (w', o) end
  | Break ws => (with_dead (ws :: dead w) w, [])
  end.

(** A run: the state reached and, per event, what it sent. *)
Fixpoint run `{Py.Libm} (evs : list event) (w : world)
    : world * list (event * list sent) :=
  match evs with
  | [] => (w, [])
  | e :: rest =>
      let (w1, o) := step e w in
      let (w2, tr) := run rest w1 in
      (w2, (e, o) :: tr)
  end.

Definition after `{Py.Libm} (evs : list event) : world := fst (run evs empty_world).

(** ** Vocabulary of the statements *)

(** The worlds the hub can be in. *)
Definition reachable `{Py.Libm} (w : world) : Prop := exists evs, w = after evs.

(** The endpoint of [player_id] stands in its main loop (resp. in its
    handshake loop) with frame [s]. *)
Definition joined (w : world) (player_id : string) (s : session) : Prop :=
  Dict.get player_id (sessions w) = Some s /\ ss_phase s = Joined.
Definition awaiting (w : world) (player_id : string) (s : session) : Prop :=
  Dict.get player_id (sessions w) = Some s /\ ss_phase s = AwaitingJoin.

(** The state object of a game after [n] more turns of its loop, nothing
    else touching it. *)
Fixpoint after_ticks (n : nat) (g : game_state) : game_state :=
  match n with
  | O => g
  | S n' => after_ticks n' (Physics.physics g)
  end.

(** The ball the next turn holds when it reaches the scoring tests. *)
Definition pre_score (g : game_state) : ball :=
  Physics.before_scoring (g_paddles g) (g_ball g).

Definition scoreless (s : scores) : bool :=
  (s_left s =? 0)%Z && (s_right s =? 0)%Z.

(** The next turn scores nothing and does not take the ball past [x < 0]. *)
Definition no_goal (g : game_state) : bool :=
  scoreless (g_scores (Physics.physics g)) &&
  negb (b_x (pre_score g) <? 0)%float.

Fixpoint quiet (n : nat) (g : game_state) : bool :=
  match n with
  | O => true
  | S n' => no_goal g && quiet n' (Physics.physics g)
  end.

(** The sockets a [broadcast] with no exclusion reaches. *)
Definition live_sockets (w : world) : list nat :=
  filter (alive w) (Dict.values (connections w)).

(** The sockets a [broadcast] excluding [player_id] reaches. *)
Definition other_sockets (w : world) (player_id : string) : list nat :=
  filter (alive w)
    (Dict.values
       (filter (fun kv => negb (String.eqb (fst kv) player_id))
          (connections w))).

(** The sockets [send_to_players] reaches for a list of ids. *)
Definition sockets_of (w : world) (ids : list string) : list nat :=
  flat_map (fun pid => reached w (pid, Dict.get pid (connections w))) ids.

(** A field that is present or not, but well typed. *)
Definition opt_field {A : Type} (o : option A) : field A :=
  match o with Some a => Val a | None => Absent end.


(** What holds of every reachable world: the endpoints in their main loop
    hold a player object, and the ids that key sessions, invitations and
    games are drawn ids, the games started ones. *)
Record Inv (w : world) : Prop := {
  inv_player : forall id s,
    Dict.get id (sessions w) = Some s -> ss_phase s = Joined ->
    ss_player s < List.length (heap w);
  inv_ids : forall id s,
    Dict.get id (sessions w) = Some s -> nonempty id = true;
  inv_pending : forall h pg,
    Dict.get h (pending_games w) = Some pg -> nonempty h = true;
  inv_game : forall h t,
    Dict.get h (active_games w) = Some t ->
    nonempty h = true /\ t < List.length (tasks w)
}.

(** A handler keeps a property of the world, whether it returns or raises. *)
Definition preserves (P : world -> Prop) {A : Type} (m : M A) : Prop :=
  forall w, P w -> P (snd (fst (m w))).

(** [players] and [connections] have the same keys. *)
Definition same_keys (w : world) : Prop :=
  forall k, Dict.mem k (players w) = Dict.mem k (connections w).

(** The event is a [move] received in its main loop by an endpoint whose
    player is no longer in [players]. *)
Definition ghost_move (w : world) (e : event) : bool :=
  match e with
  | Recv id (Move _ _) _ =>
      match Dict.get id (sessions w) with
      | Some s =>
          match ss_phase s with
          | Joined => negb (Dict.mem id (players w))
          | _ => false
          end
      | None => false
      end
  | _ => false
  end.

(** The event is a turn of the loop of task [t]. *)
Definition is_tick (t : nat) (e : event) : bool :=
  match e with
  | Tick t' => Nat.eqb t t'
  | _ => false
  end.

(** The event is a [paddle_move] frame, whoever receives it. *)
Definition is_paddle_move (e : event) : bool :=
  match e with
  | Recv _ (PaddleMove _ _ _) _ => true
  | _ => false
  end.

(** How many turns the loop of task [t] takes in a run. *)
Definition turns (t : nat) (evs : list event) : nat :=
  List.length (filter (is_tick t) evs).

(** What the loop of task [t] sent in the course of a run, in order. *)
Fixpoint loop_log (t : nat) (tr : list (event * list sent)) : list sent :=
  match tr with
  | [] => []
  | (e, o) :: rest =>
      if is_tick t e then o ++ loop_log t rest else loop_log t rest
  end.

Definition is_snapshot (s : sent) : Prop :=
  exists h b p sc, body s = GameStateMsg h b p sc.

(** The test of line 253 on the scores and the threshold. *)
Definition reached_threshold (sc : scores) (winTo : Z) : bool :=
  (winTo <=? s_left sc)%Z || (winTo <=? s_right sc)%Z.

(** Task [t] exists, is (or is no longer) in its loop, and holds these
    scores and this threshold. *)
Definition loop_at (w : world) (t : nat) (running : bool) (sc : scores)
    (winTo : Z) : Prop :=
  exists tk,
    nth_error (tasks w) t = Some tk /\ t_running tk = running /\
    g_scores (t_state tk) = sc /\ g_winTo (t_state tk) = winTo.

(** How a run of the hub leaves the loop of task [t], whose sends, in order,
    were [log]: not started; in its loop, short of the threshold of 7, having
    sent snapshots only; or out of its loop, at the threshold, having sent
    snapshots and then, last of all, one [game_over] with the scores the
    task holds. *)
Inductive loop_outcome (w : world) (t : nat) (log : list sent) : Prop :=
| NotStarted :
    nth_error (tasks w) t = None -> log = [] -> loop_outcome w t log
| InLoop (sc : scores) :
    loop_at w t true sc 7 ->
    reached_threshold sc 7 = false ->
    Forall is_snapshot log ->
    loop_outcome w t log
| LoopOver (sc : scores) (snaps : list sent) (last : sent) :
    loop_at w t false sc 7 ->
    reached_threshold sc 7 = true ->
    log = snaps ++ [last] ->
    Forall is_snapshot snaps ->
    body last = GameOver sc ->
    loop_outcome w t log.

(** A log entry that carries a [game_over]. *)
Definition is_game_over (s : sent) : bool :=
  match body s with
  | GameOver _ => true
  | _ => false
  end.

(** A value whose sign bit is clear, or NaN. *)
Definition unsigned (x : SpecFloat.spec_float) : Prop := SpecFloat.SFabs x = x.

(** ** Sample runs *)

Section Samples.
Local Open Scope string_scope.

(** Ann has registered on socket 0; socket 1 is accepted and in its
    handshake. *)
Definition newcomer : list event :=
  [Connect "a" 0; Recv "a" (Join (Val "ann")) "u"; Connect "b" 1].

Definition two_players : list event :=
  newcomer ++ [Recv "b" (Join (Val "bob")) "u"].

(** Ann invites to a game of pong. *)
Definition invited : list event :=
  two_players ++ [Recv "a" (StartGame (Some "pong") None) "u"].

(** Bob accepts. *)
Definition playing : list event :=
  invited ++ [Recv "b" (JoinGame (Val "a")) "u"].

(** The ball of their game is one turn away from the right paddle. *)
Definition rally : list event := playing ++ repeat (Tick 0) 69.

(** Ann leaves before anybody has accepted; then Bob accepts. *)
Definition host_gone : list event := invited ++ [Disconnect "a"].

Definition lone_game : list event :=
  host_gone ++ [Recv "b" (JoinGame (Val "a")) "u"].

(** Bob takes both paddles out of the way of the ball and the game is played
    to its end: a goal every 81 turns, the thirteenth takes left to 7. *)
Definition lone_match : list event :=
  lone_game ++
  [Recv "b" (PaddleMove (Val "a") (Some "left") (Val 0%float)) "u";
   Recv "b" (PaddleMove (Val "a") (Some "right") (Val 0%float)) "u"] ++
  repeat (Tick 0) 1053.

(** Cat has registered too.  Ann invites and Bob accepts; then Cat invites
    and Bob accepts again, while his game with Ann is running. *)
Definition two_games : list event :=
  two_players ++
  [Connect "c" 2; Recv "c" (Join (Val "cat")) "u";
   Recv "a" (StartGame (Some "pong") None) "u";
   Recv "b" (JoinGame (Val "a")) "u";
   Recv "c" (StartGame (Some "pong") None) "u";
   Recv "b" (JoinGame (Val "c")) "u"].

(** Both paddles of the game of Ann and Bob are taken out of the way of the
    ball and that game is played to its end. *)
Definition first_match : list event :=
  two_games ++
  [Recv "a" (PaddleMove (Val "a") (Some "left") (Val 0%float)) "u";
   Recv "b" (PaddleMove (Val "a") (Some "right") (Val 0%float)) "u"] ++
  repeat (Tick 0) 1053.

(** Ann's socket starts to refuse sends, a broadcast evicts her, and a
    [move] of hers that was already on its way is handled; then socket 2 is
    accepted. *)
Definition ghost : list event :=
  two_players ++
  [Break 0; Recv "b" (GlobalChat (Val "hi")) "u";
   Recv "a" (Move (Val 1%float) (Val 2%float)) "u"; Connect "c" 2].

(** Bob has moved far to the east. *)
Definition far_apart : list event :=
  two_players ++ [Recv "b" (Move (Val 1e200%float) (Val 0%float)) "u"].

(** Ann, Bob and Cat stand at (0,0), (150,0) and (300,0). *)
Definition in_a_row : list event :=
  two_players ++
  [Connect "c" 2; Recv "c" (Join (Val "cat")) "u";
   Recv "a" (Move (Val 0%float) (Val 0%float)) "u";
   Recv "b" (Move (Val 150%float) (Val 0%float)) "u";
   Recv "c" (Move (Val 300%float) (Val 0%float)) "u"].

Definition ann : player :=
  {| p_id := "a"; p_name := "ann"; p_x := 100; p_y := 100; p_zone := "town" |}.
Definition bob : player :=
  {| p_id := "b"; p_name := "bob"; p_x := 100; p_y := 100; p_zone := "town" |}.

(** The frames of the endpoints of Ann and Bob in their main loops. *)
Definition ann_session : session :=
  {| ss_ws := 0; ss_phase := Joined; ss_player := 0; ss_participant_ids := [] |}.
Definition bob_session : session :=
  {| ss_ws := 1; ss_phase := Joined; ss_player := 1; ss_participant_ids := [] |}.
End Samples.

(** ** Vocabulary of the further properties *)

(** Every id with a connection has a player. *)
Definition linked (w : world) : Prop :=
  forall k, Dict.mem k (connections w) = true -> Dict.mem k (players w) = true.

(** The ids a [broadcast] takes out: those it tried and whose socket
    raised. *)
Definition failing (w : world) (exclude : option string) : list string :=
  map fst
    (filter (fun kv => negb (alive w (snd kv)))
       (filter (fun kv => negb (excluded exclude (fst kv))) (connections w))).

(** How [players], the records and the endpoints hang together: an entry of
    [players] names a record that carries the entry's key as its id; so
    does the [player] local of an endpoint in its main loop; an endpoint in
    its handshake (unless it is [ex], caught between registering and
    entering its main loop) or past its cleanup has no entry; and every
    entry belongs to some endpoint. *)
Record Filed (ex : option string) (w : world) : Prop := {
  filed_ref : forall k r,
    In (k, r) (players w) ->
    r < List.length (heap w) /\ p_id (deref w r) = k;
  filed_own : forall id s,
    Dict.get id (sessions w) = Some s -> ss_phase s = Joined ->
    ss_player s < List.length (heap w) /\ p_id (deref w (ss_player s)) = id;
  filed_fresh : forall id s,
    Dict.get id (sessions w) = Some s -> ss_phase s = AwaitingJoin ->
    excluded ex id = false -> Dict.mem id (players w) = false;
  filed_gone : forall id s,
    Dict.get id (sessions w) = Some s -> ss_phase s = Closed ->
    Dict.mem id (players w) = false;
  filed_known : forall k,
    Dict.mem k (players w) = true -> Dict.mem k (sessions w) = true
}.

(** The endpoint of [id] is in its main loop and its [player] is record
    [r]. *)
Definition owner (w : world) (id : string) (r : nat) : Prop :=
  exists s, Dict.get id (sessions w) = Some s /\ ss_phase s = Joined /\
            ss_player s = r.

Definition Owned (id : string) (r : nat) (w : world) : Prop :=
  Filed None w /\ owner w id r.

(** What a handler leaves: all is in order if it returns; if it raises, all
    but the endpoint's own entry, which the cleanup then removes. *)
Definition settles (id : string) (r : outcome unit * world * list sent) : Prop :=
  match r with
  | (Done _, w', _) => Filed None w'
  | (Raised, w', _) => Filed (Some id) w'
  end.

(** A frame that decodes to an object and is not a [join]. *)
Definition not_a_join (f : frame) : bool :=
  match f with
  | Malformed | Join _ => false
  | _ => true
  end.

(** The field holds a value the handler cannot use. *)
Definition is_bad {A : Type} (f : field A) : bool :=
  match f with Bad => true | _ => false end.

(** A frame on which the endpoint raises before it has done anything:
    undecodable in either loop; in the handshake, a [join] whose name has
    no [strip]; in the main loop, no ["type"], or a field of the wrong
    kind. *)
Definition unreadable (ph : phase) (f : frame) : bool :=
  match ph, f with
  | Closed, _ => false
  | _, Malformed => true
  | AwaitingJoin, Join name => is_bad name
  | Joined, Untyped => true
  | Joined, Move x y => is_bad x || is_bad y
  | Joined, Chat c => is_bad c
  | Joined, GlobalChat c => is_bad c
  | Joined, JoinGame h => is_bad h
  | Joined, PaddleMove h _ y => is_bad y || is_bad h
  | _, _ => false
  end.

(** The frame of an endpoint once it has ended. *)
Definition close (s : session) : session :=
  {| ss_ws := ss_ws s; ss_phase := Closed; ss_player := ss_player s;
     ss_participant_ids := ss_participant_ids s |}.

(** [msg.get("content", "")[:1000]] of a content that is a string or
    missing. *)
Definition cut (oc : option string) : string :=
  match oc with Some c => Py.prefix 1000 c | None => EmptyString end.

(** The event is a [move] frame. *)
Definition is_move (e : event) : bool :=
  match e with
  | Recv _ (Move _ _) _ => true
  | _ => false
  end.

(** Record [k] is there and is [p] but for its position. *)
Definition akin (k : nat) (p : player) (w : world) : Prop :=
  exists p', nth_error (heap w) k = Some p' /\ p_id p' = p_id p /\
             p_name p' = p_name p /\ p_zone p' = p_zone p.

(** Record [k] is there and is [p]. *)
Definition holds (k : nat) (p : player) (w : world) : Prop :=
  nth_error (heap w) k = Some p.

(** The event is a [join_game] frame naming host [h]. *)
Definition accepts (h : string) (e : event) : bool :=
  match e with
  | Recv _ (JoinGame (Val host_id)) _ => String.eqb host_id h
  | _ => false
  end.

(** The event is a [start_game] frame received by the endpoint of [h]. *)
Definition invites_again (h : string) (e : event) : bool :=
  match e with
  | Recv id (StartGame _ _) _ => String.eqb id h
  | _ => false
  end.

(** Host [h] has the invitation [pg] pending. *)
Definition invited_by (h : string) (pg : pending) (w : world) : Prop :=
  Dict.get h (pending_games w) = Some pg.

(** Host [h] keys an active game. *)
Definition hosting (h : string) (w : world) : Prop :=
  Dict.mem h (active_games w) = true.

(** The ids of the registered players other than [id] whose squared
    distance to [me] is at most 200 squared, in the order of [players]. *)
Definition within_range `{Py.Libm} (w : world) (id : string) (me : player)
    : list string :=
  map fst
    (filter
       (fun kv =>
          negb (String.eqb (fst kv) id) &&
          match sq_dist (deref w (snd kv)) me with
          | Some d => (d <=? 40000)%float
          | None => false
          end)
       (players w)).

(** The event is a [join_game] frame received by the endpoint of [id]. *)
Definition accepts_as (id : string) (e : event) : bool :=
  match e with
  | Recv id' (JoinGame _) _ => String.eqb id' id
  | _ => false
  end.

(** The endpoint of [id] is past its handshake and its [participant_ids]
    holds [ids]. *)
Definition bound_to (id : string) (ids : list string) (w : world) : Prop :=
  exists s,
    Dict.get id (sessions w) = Some s /\ ss_phase s <> AwaitingJoin /\
    ss_participant_ids s = ids.

(** Task [t] is there, was started by the endpoint of [id], and the state
    of its game lists [ids] as the participants. *)
Definition plays (t : nat) (id : string) (ids : list string) (w : world)
    : Prop :=
  exists tk,
    nth_error (tasks w) t = Some tk /\ t_owner tk = id /\
    g_participants (t_state tk) = ids.
(** * Properties *)

Unset Implicit Arguments.

(** ** Binary64 facts the collision response rests on *)

Module FloatFacts.
Local Open Scope float_scope.


Lemma unsigned_abs (x : spec_float) : unsigned (SFabs x).
Proof. destruct x; reflexivity. Qed.

Lemma unsigned_round (m e : Z) (l : location) :
  unsigned (binary_round_aux prec emax false m e l).
Proof.
  unfold unsigned, binary_round_aux.
  destruct (shr_fexp prec emax m e l) as [r1 e1].
  destruct (shr_fexp prec emax _ e1 loc_Exact) as [r2 e2].
  destruct (shr_m r2); [reflexivity | | reflexivity].
  destruct (Z.leb e2 _); reflexivity.
Qed.

Lemma unsigned_mul (x : spec_float) (m : positive) (e : Z) :
  unsigned x -> unsigned (SF64mul x (S754_finite false m e)).
Proof.
  unfold unsigned.
  destruct x as [[] | [] | | [] mx ex]; simpl; intro H;
    try discriminate; try reflexivity.
  apply unsigned_round.
Qed.

Lemma unsigned_add (x y : spec_float) :
  unsigned x -> unsigned y -> unsigned (SF64add x y).
Proof.
  unfold unsigned.
  destruct x as [[] | [] | | [] mx ex]; simpl; intro Hx; try discriminate;
    destruct y as [[] | [] | | [] my ey]; simpl; intro Hy;
    try discriminate; try reflexivity.
  unfold SF64add, SFadd. cbn [cond_Zopp]. cbn [Z.add binary_normalize].
  unfold binary_round. destruct (shl_align _ _ _). apply unsigned_round.
Qed.

(** [(|a| + |b|) * 1.05] has no sign to drop. *)
Lemma abs_scaled_sum (a b : float) :
  abs ((abs a + abs b) * 1.05) = (abs a + abs b) * 1.05.
Proof.
  apply Prim2SF_inj. rewrite abs_spec, mul_spec, add_spec, !abs_spec.
  change (Prim2SF 1.05) with (S754_finite false 4728779608739021 (-52)).
  apply unsigned_mul, unsigned_add; apply unsigned_abs.
Qed.

Lemma digits_shift52 (m : positive) :
  Zpos (digits2_pos (Pos.mul 4503599627370496 m))
  = (Zpos (digits2_pos m) + 52)%Z.
Proof. cbn [Pos.mul digits2_pos]. lia. Qed.

Lemma shr52 (m : positive) :
  SpecFloat.iter_pos shr_1 52%positive
    {| shr_m := Zpos (Pos.mul 4503599627370496 m);
       shr_r := false; shr_s := false |}
  = {| shr_m := Zpos m; shr_r := false; shr_s := false |}.
Proof. reflexivity. Qed.

Lemma shr_fexp_shifted (m : positive) (e : Z) :
  fexp prec emax (Zpos (digits2_pos m) + e) = e ->
  shr_fexp prec emax (Zpos (Pos.mul 4503599627370496 m)) (e + -52) loc_Exact
  = ({| shr_m := Zpos m; shr_r := false; shr_s := false |}, e).
Proof.
  intro Hc. unfold shr_fexp, Zdigits2. rewrite digits_shift52.
  replace (Z.pos (digits2_pos m) + 52 + (e + -52))%Z
    with (Z.pos (digits2_pos m) + e)%Z by lia.
  rewrite Hc. replace (e - (e + -52))%Z with 52%Z by lia.
  cbn [shr_record_of_loc shr]. rewrite shr52. f_equal. lia.
Qed.

Lemma shr_fexp_canonical (m : positive) (e : Z) :
  fexp prec emax (Zpos (digits2_pos m) + e) = e ->
  shr_fexp prec emax (Zpos m) e loc_Exact
  = ({| shr_m := Zpos m; shr_r := false; shr_s := false |}, e).
Proof.
  intro Hc. unfold shr_fexp, Zdigits2. rewrite Hc, Z.sub_diag. reflexivity.
Qed.

Lemma mul_one_sf (x : spec_float) :
  valid_binary x = true ->
  SF64mul x (S754_finite false 4503599627370496 (-52)) = x.
Proof.
  destruct x as [[] | [] | | s m e]; try reflexivity.
  cbn [valid_binary]. unfold bounded, canonical_mantissa.
  intro H. apply andb_prop in H. destruct H as [Hc Hb].
  apply Z.eqb_eq in Hc.
  unfold SF64mul, SFmul, binary_round_aux.
  rewrite xorb_false_r, Pos.mul_comm, (@shr_fexp_shifted _ _ Hc).
  cbn [shr_m loc_of_shr_record round_nearest_even].
  rewrite (@shr_fexp_canonical _ _ Hc). cbn [shr_m].
  rewrite Hb. reflexivity.
Qed.

(** Multiplying by [1.0] rounds nothing. *)
Lemma mul_one (x : float) : x * 1 = x.
Proof.
  apply Prim2SF_inj. rewrite mul_spec.
  change (Prim2SF 1) with (S754_finite false 4503599627370496 (-52)).
  apply mul_one_sf, Prim2SF_valid.
Qed.


Lemma leb_not_ltb_eqb (x y : float) :
  (x <=? y) = true -> (x <? y) = false -> (x =? y) = true.
Proof.
  rewrite FloatAxioms.ltb_spec, FloatAxioms.leb_spec, FloatAxioms.eqb_spec. unfold SFltb, SFleb, SFeqb.
  destruct (SFcompare _ _) as [[] |]; congruence.
Qed.

Lemma eqb_refl_leb (x y : float) : (x <=? y) = true -> (x =? x) = true.
Proof.
  rewrite FloatAxioms.leb_spec, FloatAxioms.eqb_spec. unfold SFleb, SFeqb.
  destruct (Prim2SF x) as [[] | [] | | [] m e]; simpl; try congruence;
    try (destruct (Prim2SF y) as [[] | [] | | [] m' e']; simpl; congruence);
    intros _; rewrite Z.compare_refl, Pos.compare_cont_refl; reflexivity.
Qed.
End FloatFacts.

(** ** The simulation step *)

Section PhysicsFacts.
Local Open Scope float_scope.
Import Physics.

Lemma speed_unsigned (b : ball) : abs (speed b) = speed b.
Proof.
  unfold speed, Py.or_else.
  destruct (Py.truthy _); [apply FloatFacts.abs_scaled_sum | reflexivity].
Qed.

Lemma after_ticks_succ (n : nat) (g : game_state) :
  after_ticks (S n) g = physics (after_ticks n g).
Proof.
  revert g. induction n as [| n IH]; intro g; [reflexivity |].
  change (after_ticks (S (S n)) g) with (after_ticks (S n) (physics g)).
  rewrite IH. reflexivity.
Qed.

Lemma quiet_no_goal (n : nat) (g : game_state) :
  quiet n g = true ->
  forall k, (k < n)%nat -> no_goal (after_ticks k g) = true.
Proof.
  revert g. induction n as [| n IH]; intros g Hq k Hk; [lia |].
  cbn [quiet] in Hq. apply andb_prop in Hq. destruct Hq as [H0 Hq].
  destruct k as [| k]; [exact H0 |].
  cbn [after_ticks]. apply IH; [exact Hq | lia].
Qed.

Lemma physics_paddles (g : game_state) : g_paddles (physics g) = g_paddles g.
Proof.
  unfold physics. destruct (score_left _). reflexivity.
Qed.

Lemma after_ticks_paddles (n : nat) (g : game_state) :
  g_paddles (after_ticks n g) = g_paddles g.
Proof.
  revert g. induction n as [| n IH]; intro g; [reflexivity |].
  cbn [after_ticks]. rewrite IH. apply physics_paddles.
Qed.
End PhysicsFacts.

(** A game as [join_game] creates it, ticking with nothing else touching
    it: no turn scores or sees [x < 0] until the speed overflows binary64
    at the right paddle; the turn after, the 17308th, has [x = -inf < 0],
    gives the right side its first point and serves the ball again. *)
Lemma unattended_ticks (g0 : game_state) :
  g_ball g0 = {| b_x := 400; b_y := 250; b_vx := 5; b_vy := 0; b_r := 9 |} ->
  g_paddles g0 = {| left_y := 200; right_y := 200 |} ->
  g_scores g0 = {| s_left := 0; s_right := 0 |} ->
  (forall k, k < 17307 ->
     (b_x (pre_score (after_ticks k g0)) <? 0)%float = false /\
     g_scores (after_ticks (S k) g0) = {| s_left := 0; s_right := 0 |}) /\
  (b_x (pre_score (after_ticks 17307 g0)) <? 0)%float = true /\
  (b_x (pre_score (after_ticks 17308 g0)) <? 0)%float = false /\
  g_scores (after_ticks 17308 g0) = {| s_left := 0; s_right := 1 |} /\
  g_ball (after_ticks 17308 g0) =
    {| b_x := 400; b_y := 250; b_vx := 5; b_vy := 0; b_r := 9 |}.
Proof.
  destruct g0 as [h hid ps b p sc wt]. cbn [g_ball g_paddles g_scores].
  intros -> -> ->.
  split; [| split; [| split; [| split]]].
  - intros k Hk.
    assert (Hq : quiet 17307
                   {| g_host := h; g_host_id := hid; g_participants := ps;
                      g_ball := {| b_x := 400; b_y := 250; b_vx := 5;
                                   b_vy := 0; b_r := 9 |};
                      g_paddles := {| left_y := 200; right_y := 200 |};
                      g_scores := {| s_left := 0; s_right := 0 |};
                      g_winTo := wt |} = true) by (vm_compute; reflexivity).
    pose proof (quiet_no_goal _ _ Hq _ Hk) as Hn.
    unfold no_goal in Hn. apply andb_prop in Hn. destruct Hn as [Hs Hx].
    split.
    + apply negb_true_iff in Hx. exact Hx.
    + rewrite after_ticks_succ. unfold scoreless in Hs.
      apply andb_prop in Hs. destruct Hs as [Hl Hr].
      apply Z.eqb_eq in Hl. apply Z.eqb_eq in Hr.
      destruct (g_scores _) as [l r]. cbn in Hl, Hr. subst. reflexivity.
  - vm_compute. reflexivity.
  - vm_compute. reflexivity.
  - vm_compute. reflexivity.
  - vm_compute. reflexivity.
Qed.

(** The two paddle responses, with [speed] and [rel] written out. *)
Lemma bounce_left_cases (ly : float) (b : ball) :
  let s := ((abs (b_vx b) + abs (b_vy b)) * 1.05)%float in
  let speed := if (s =? 0)%float then 5%float else s in
  Physics.bounce_left ly b =
  if ((b_x b - b_r b <=? 42) && ((ly <? b_y b) && (b_y b <? ly + 100)))%float
  then {| b_x := (42 + b_r b)%float; b_y := b_y b; b_vx := speed;
          b_vy := (speed * (0.5 * ((b_y b - (ly + 50)) / 50)))%float;
          b_r := b_r b |}
  else b.
Proof.
  intros s speed.
  assert (Hspeed : speed = Physics.speed b).
  { unfold speed, s, Physics.speed, Py.or_else, Py.truthy.
    destruct (_ =? 0)%float; reflexivity. }
  unfold Physics.bounce_left.
  change (Physics.hits_left ly b)
    with ((b_x b - b_r b <=? 42) && ((ly <? b_y b) && (b_y b <? ly + 100)))%float.
  destruct (_ && _); [| reflexivity].
  rewrite Hspeed, speed_unsigned, FloatFacts.mul_one. reflexivity.
Qed.

Lemma bounce_right_cases (ry : float) (b : ball) :
  let s := ((abs (b_vx b) + abs (b_vy b)) * 1.05)%float in
  let speed := if (s =? 0)%float then 5%float else s in
  Physics.bounce_right ry b =
  if ((758 <=? b_x b + b_r b) && ((ry <? b_y b) && (b_y b <? ry + 100)))%float
  then {| b_x := (758 - b_r b)%float; b_y := b_y b; b_vx := (- speed)%float;
          b_vy := (speed * (0.5 * ((b_y b - (ry + 50)) / 50)))%float;
          b_r := b_r b |}
  else b.
Proof.
  intros s speed.
  assert (Hspeed : speed = Physics.speed b).
  { unfold speed, s, Physics.speed, Py.or_else, Py.truthy.
    destruct (_ =? 0)%float; reflexivity. }
  unfold Physics.bounce_right.
  change (Physics.hits_right ry b)
    with ((758 <=? b_x b + b_r b) && ((ry <? b_y b) && (b_y b <? ry + 100)))%float.
  destruct (_ && _); [| reflexivity].
  rewrite Hspeed, speed_unsigned, FloatFacts.mul_one. reflexivity.
Qed.

(** ** Dictionaries and lists *)

Section DictFacts.
Context {V : Type}.
Implicit Types (d : Dict.t V) (k : string).

Lemma get_set k k' (v : V) d :
  Dict.get k (Dict.set k' v d) = if String.eqb k k' then Some v else Dict.get k d.
Proof.
  induction d as [| [k0 v0] d IH]; cbn.
  - destruct (String.eqb k k'); reflexivity.
  - destruct (String.eqb k' k0) eqn:E0; cbn.
    + apply String.eqb_eq in E0. subst k0.
      destruct (String.eqb k k'); reflexivity.
    + destruct (String.eqb k k0) eqn:E1.
      * apply String.eqb_eq in E1. subst k0.
        rewrite String.eqb_sym, E0. reflexivity.
      * exact IH.
Qed.

Lemma get_pop k k' d :
  Dict.get k (Dict.pop k' d) = if String.eqb k k' then None else Dict.get k d.
Proof.
  unfold Dict.pop. induction d as [| [k0 v0] d IH]; cbn.
  - destruct (String.eqb k k'); reflexivity.
  - destruct (String.eqb k' k0) eqn:E0; cbn.
    + apply String.eqb_eq in E0. subst k0. rewrite IH.
      destruct (String.eqb k k'); reflexivity.
    + rewrite IH. destruct (String.eqb k k0) eqn:E1; [| reflexivity].
      apply String.eqb_eq in E1. subst k0.
      rewrite String.eqb_sym, E0. reflexivity.
Qed.

Lemma get_pop_all k (ks : list string) d :
  Dict.get k (Dict.pop_all ks d) =
  if existsb (String.eqb k) ks then None else Dict.get k d.
Proof.
  unfold Dict.pop_all. revert d.
  induction ks as [| k0 ks IH]; intro d; cbn; [reflexivity |].
  rewrite IH, get_pop.
  destruct (existsb _ ks), (String.eqb k k0); reflexivity.
Qed.

Lemma get_some_in k (v : V) d : Dict.get k d = Some v -> In (k, v) d.
Proof.
  induction d as [| [k0 v0] d IH]; cbn; [discriminate |].
  destruct (String.eqb k k0) eqn:E.
  - apply String.eqb_eq in E. intro H. inversion H. subst. left. reflexivity.
  - intro H. right. apply IH, H.
Qed.
End DictFacts.

Lemma list_set_length {A : Type} (n : nat) (x : A) (l : list A) :
  List.length (list_set n x l) = List.length l.
Proof.
  revert n. induction l as [| y l IH]; intros [| n]; cbn; auto.
Qed.

Lemma nth_list_set {A : Type} (n k : nat) (x d : A) (l : list A) :
  nth k (list_set n x l) d =
  if (k =? n)%nat && (n <? List.length l)%nat then x else nth k l d.
Proof.
  revert n k. induction l as [| y l IH]; intros n k.
  - destruct n, k; cbn; rewrite ?andb_false_r; reflexivity.
  - destruct n as [| n], k as [| k]; cbn; try reflexivity. apply IH.
Qed.

Lemma nth_error_list_set {A : Type} (n k : nat) (x : A) (l : list A) :
  nth_error (list_set n x l) k =
  if (k =? n)%nat && (n <? List.length l)%nat then Some x else nth_error l k.
Proof.
  revert n k. induction l as [| y l IH]; intros n k.
  - destruct n, k; cbn; rewrite ?andb_false_r; reflexivity.
  - destruct n as [| n], k as [| k]; cbn; try reflexivity. apply IH.
Qed.

(** ** The hub, whatever the C library computes *)

Section Hub.
Context {libm : Py.Libm}.

(** ** Running a handler symbolically *)

Ltac exec :=
  cbv [bind ret gets modify emit raise set_session mutate
       float_field content_field broadcast send_to_players fan_out];
  cbn [fst snd].

(** What a fan-out with no exclusion reaches. *)
Lemma reached_all (w : world) (c : Dict.t nat) :
  flat_map (reached w) (map (fun kv => (fst kv, Some (snd kv))) c)
  = filter (alive w) (Dict.values c).
Proof.
  unfold Dict.values.
  induction c as [| [k ws] c IH]; cbn [map flat_map filter fst snd];
    [reflexivity |].
  rewrite IH. unfold reached. cbn [snd].
  destruct (alive w ws); reflexivity.
Qed.

Lemma broadcast_all_rcpts (w : world) :
  flat_map (reached w)
    (map (fun kv => (fst kv, Some (snd kv)))
       (filter (fun kv => negb (excluded None (fst kv))) (connections w)))
  = live_sockets w.
Proof.
  rewrite reached_all. unfold live_sockets. f_equal. f_equal.
  induction (connections w) as [| kv c IH]; [reflexivity |].
  cbn [filter excluded negb]. f_equal. exact IH.
Qed.

(** ** Properties handlers keep *)

Section Preserves.
Variable P : world -> Prop.

Lemma preserves_ret {A : Type} (a : A) : preserves P (ret a).
Proof. intros w H. exact H. Qed.

Lemma preserves_raise {A : Type} : preserves P (@raise A).
Proof. intros w H. exact H. Qed.

Lemma preserves_gets {A : Type} (f : world -> A) : preserves P (gets f).
Proof. intros w H. exact H. Qed.

Lemma preserves_emit (s : sent) : preserves P (emit s).
Proof. intros w H. exact H. Qed.

Lemma preserves_send_text (ws : nat) (m : server_msg) :
  preserves P (send_text ws m).
Proof. intros w H. unfold send_text. destruct (alive w ws); exact H. Qed.

Lemma preserves_modify (f : world -> world) :
  (forall w, P w -> P (f w)) -> preserves P (modify f).
Proof. intros Hf w H. apply Hf, H. Qed.

Lemma preserves_bind {A B : Type} (m : M A) (f : A -> M B) :
  preserves P m -> (forall a, preserves P (f a)) -> preserves P (bind m f).
Proof.
  intros Hm Hf w H. unfold bind. specialize (Hm w H).
  destruct (m w) as [[[a |] w1] o1]; cbn [fst snd] in Hm |- *.
  - specialize (Hf a w1 Hm). destruct (f a w1) as [[r w2] o2]. exact Hf.
  - exact Hm.
Qed.

Hypothesis P_evict : forall l w, P w -> P (evict l w).

Lemma preserves_fan_out (targets : list (string * option nat))
    (m : server_msg) : preserves P (fan_out targets m).
Proof. intros w H. apply P_evict, H. Qed.

Lemma preserves_broadcast (m : server_msg) (exclude : option string) :
  preserves P (broadcast m exclude).
Proof. intros w H. apply P_evict, H. Qed.

Lemma preserves_send_to_players (ids : list string) (m : server_msg) :
  preserves P (send_to_players ids m).
Proof. intros w H. apply P_evict, H. Qed.

(** A turn under [try] keeps what its body and the cleanup keep. *)
Lemma preserves_guarded (id : string) (s : session) (m : M unit) :
  preserves P m -> preserves P (cleanup id s) ->
  forall w, P w -> P (fst (guarded id s m w)).
Proof.
  intros Hm Hc w H. unfold guarded. specialize (Hm w H).
  destruct (m w) as [[[a |] w1] o1]; cbn [fst snd] in Hm |- *; [exact Hm |].
  specialize (Hc w1 Hm). destruct (cleanup id s w1) as [[r w2] o2]. exact Hc.
Qed.
End Preserves.

Ltac keep_step :=
  lazymatch goal with
  | |- preserves _ (bind _ _) => apply preserves_bind; [| intro]
  | |- preserves _ (ret _) => apply preserves_ret
  | |- preserves _ raise => apply preserves_raise
  | |- preserves _ (gets _) => apply preserves_gets
  | |- preserves _ (emit _) => apply preserves_emit
  | |- preserves _ (modify _) => apply preserves_modify
  | |- preserves _ (send_text _ _) => apply preserves_send_text
  | |- preserves _ (broadcast _ _) => apply preserves_broadcast
  | |- preserves _ (send_to_players _ _) => apply preserves_send_to_players
  | |- preserves _ (fan_out _ _) => apply preserves_fan_out
  | |- preserves _ (match ?x with _ => _ end) => destruct x
  end.

Ltac keep := repeat keep_step.

(** ** Stepping through a handler *)

Lemma bind_ret {A B : Type} (a : A) (k : A -> M B) (w : world) :
  bind (ret a) k w = k a w.
Proof. unfold bind, ret. destruct (k a w) as [[r w2] o2]. reflexivity. Qed.

Lemma bind_gets {A B : Type} (f : world -> A) (k : A -> M B) (w : world) :
  bind (gets f) k w = k (f w) w.
Proof. unfold bind, gets. destruct (k (f w) w) as [[r w2] o2]. reflexivity. Qed.

Lemma bind_modify {B : Type} (f : world -> world) (k : unit -> M B) (w : world) :
  bind (modify f) k w = k tt (f w).
Proof. unfold bind, modify. destruct (k tt (f w)) as [[r w2] o2]. reflexivity. Qed.

Lemma bind_raise {A B : Type} (k : A -> M B) (w : world) :
  bind (@raise A) k w = (Raised, w, []).
Proof. reflexivity. Qed.

Lemma bind_bind {A B C : Type} (m : M A) (f : A -> M B) (g : B -> M C) (w : world) :
  bind (bind m f) g w = bind m (fun a => bind (f a) g) w.
Proof.
  unfold bind. destruct (m w) as [[[a |] w1] o1]; [| reflexivity].
  destruct (f a w1) as [[[b |] w2] o2]; [| reflexivity].
  destruct (g b w2) as [[r w3] o3]. rewrite app_assoc. reflexivity.
Qed.

Lemma bind_done {A B : Type} (m : M A) (k : A -> M B) (w w1 : world) (a : A)
    (o1 : list sent) :
  m w = (Done a, w1, o1) ->
  bind m k w = (fst (fst (k a w1)), snd (fst (k a w1)), o1 ++ snd (k a w1)).
Proof.
  intro H. unfold bind. rewrite H. destruct (k a w1) as [[r w2] o2]. reflexivity.
Qed.

(** The log entry and the evictions of one [broadcast] to everybody. *)
Lemma broadcast_all (m : server_msg) (w : world) :
  broadcast m None w =
  (Done tt,
   evict (map fst (filter (fun kv => negb (alive w (snd kv))) (connections w))) w,
   [{| body := m; rcpts := live_sockets w |}]).
Proof.
  unfold broadcast, fan_out. rewrite broadcast_all_rcpts. do 3 f_equal.
  induction (connections w) as [| [k ws] c IH]; [reflexivity |].
  cbn in IH |- *. destruct (alive w ws); cbn; rewrite IH; reflexivity.
Qed.

Ltac mstep :=
  repeat (first [ rewrite bind_bind | rewrite bind_gets | rewrite bind_modify
                | rewrite bind_ret | rewrite bind_raise ];
          cbv beta).

(** ** The invariant *)

Lemma Inv_ext (w w' : world) :
  List.length (heap w') = List.length (heap w) ->
  (forall k, Dict.get k (sessions w') = Dict.get k (sessions w)) ->
  (forall k, Dict.get k (pending_games w') = Dict.get k (pending_games w)) ->
  (forall k, Dict.get k (active_games w') = Dict.get k (active_games w)) ->
  List.length (tasks w') = List.length (tasks w) -> Inv w -> Inv w'.
Proof.
  intros Hh Hs Hp Ha Ht [I1 I2 I3 I4].
  constructor; intros *; rewrite ?Hh, ?Hs, ?Hp, ?Ha, ?Ht; eauto.
Qed.

Lemma Inv_evict (l : list string) (w : world) : Inv w -> Inv (evict l w).
Proof. apply Inv_ext; reflexivity. Qed.

Lemma Inv_session (w : world) (id : string) (s : session) :
  Inv w -> nonempty id = true ->
  (ss_phase s = Joined -> ss_player s < List.length (heap w)) ->
  Inv (with_sessions (Dict.set id s (sessions w)) w).
Proof.
  intros [I1 I2 I3 I4] Hid Hs. constructor; cbn; try assumption.
  - intros id' s'. rewrite get_set. destruct (String.eqb id' id).
    + intros H. inversion H. subst. exact Hs.
    + apply I1.
  - intros id' s'. rewrite get_set. destruct (String.eqb id' id) eqn:E.
    + apply String.eqb_eq in E. subst. intros _. exact Hid.
    + apply I2.
Qed.

Lemma Inv_spawn (w : world) (p : player) : Inv w -> Inv (with_heap (heap w ++ [p]) w).
Proof.
  intros [I1 I2 I3 I4]. constructor; cbn; try assumption.
  intros id s H1 H2. rewrite length_app. specialize (I1 _ _ H1 H2). lia.
Qed.

Lemma Inv_invite (w : world) (h : string) (pg : pending) :
  Inv w -> nonempty h = true ->
  Inv (with_pending_games (Dict.set h pg (pending_games w)) w).
Proof.
  intros [I1 I2 I3 I4] Hh. constructor; cbn; try assumption.
  intros h' pg'. rewrite get_set. destruct (String.eqb h' h) eqn:E.
  - apply String.eqb_eq in E. subst. intros _. exact Hh.
  - apply I3.
Qed.

Lemma Inv_uninvite (w : world) (h : string) :
  Inv w -> Inv (with_pending_games (Dict.pop h (pending_games w)) w).
Proof.
  intros [I1 I2 I3 I4]. constructor; cbn; try assumption.
  intros h' pg'. rewrite get_pop. destruct (String.eqb h' h); [discriminate |].
  apply I3.
Qed.

Lemma Inv_launch (w : world) (h : string) (t : game_task) :
  Inv w -> nonempty h = true ->
  Inv (with_active_games
         (Dict.set h (List.length (tasks w))
            (active_games (with_tasks (tasks w ++ [t]) w)))
         (with_tasks (tasks w ++ [t]) w)).
Proof.
  intros [I1 I2 I3 I4] Hh. constructor; cbn; try assumption.
  intros h' t'. rewrite get_set, length_app. cbn.
  destruct (String.eqb h' h) eqn:E.
  - apply String.eqb_eq in E. subst. intro H. inversion H. split; [exact Hh | lia].
  - intro H. destruct (I4 _ _ H). split; [assumption | lia].
Qed.

Lemma Inv_task_set (w : world) (n : nat) (t : game_task) :
  Inv w -> Inv (with_tasks (list_set n t (tasks w)) w).
Proof. apply Inv_ext; try reflexivity. cbn. apply list_set_length. Qed.

Lemma Inv_heap_set (w : world) (r : nat) (p : player) :
  Inv w -> Inv (with_heap (list_set r p (heap w)) w).
Proof. apply Inv_ext; try reflexivity. cbn. apply list_set_length. Qed.

Lemma Inv_players (w : world) (p : Dict.t nat) : Inv w -> Inv (with_players p w).
Proof. apply Inv_ext; reflexivity. Qed.

Lemma Inv_connections (w : world) (c : Dict.t nat) :
  Inv w -> Inv (with_connections c w).
Proof. apply Inv_ext; reflexivity. Qed.

Ltac keep_inv :=
  keep;
  try (intros; first
    [ apply Inv_evict | apply Inv_heap_set | apply Inv_players
    | apply Inv_connections | apply Inv_task_set | apply Inv_uninvite ];
    assumption).

Lemma Inv_cleanup (id : string) (s : session) :
  nonempty id = true -> preserves Inv (cleanup id s).
Proof.
  intro Hid. unfold cleanup, set_session. keep_inv.
  intros w H. apply Inv_session; [assumption | assumption | discriminate].
Qed.

Lemma Inv_on_move (id : string) (s : session) (fx fy : field float) :
  preserves Inv (on_move id s fx fy).
Proof. unfold on_move, float_field, mutate. keep_inv. Qed.

Lemma Inv_on_chat (id : string) (s : session) (c : field string) :
  preserves Inv (on_chat id s c).
Proof. unfold on_chat, content_field. keep_inv. Qed.

Lemma Inv_on_global_chat (s : session) (c : field string) :
  preserves Inv (on_global_chat s c).
Proof. unfold on_global_chat, content_field. keep_inv. Qed.

Lemma Inv_on_start_game (id : string) (s : session) (g z : option string) :
  nonempty id = true -> preserves Inv (on_start_game id s g z).
Proof.
  intro Hid. unfold on_start_game. keep_inv.
  intros w H. apply Inv_invite; assumption.
Qed.

Lemma Inv_on_paddle_move (h : field string) (sd : option string) (fy : field float) :
  preserves Inv (on_paddle_move h sd fy).
Proof.
  unfold on_paddle_move, float_field. keep_inv;
    intros w H; destruct (nth_error (tasks w) _); [apply Inv_task_set |]; exact H.
Qed.

Lemma Inv_game_tick (t : nat) : preserves Inv (game_tick t).
Proof. unfold game_tick. keep_inv. Qed.

Lemma Inv_on_join_game (id : string) (s : session) (h : field string) (w : world) :
  Inv w -> nonempty id = true ->
  (ss_phase s = Joined -> ss_player s < List.length (heap w)) ->
  Inv (snd (fst (on_join_game id s h w))).
Proof.
  intros HI Hid Hs. unfold on_join_game.
  destruct h as [| hid |]; try exact HI. exec.
  destruct (nonempty hid) eqn:Hh; [| exact HI].
  destruct (Dict.get hid (pending_games w)) as [pg |]; [| exact HI].
  exec. apply Inv_launch; [| exact Hh].
  apply Inv_session; [| exact Hid | exact Hs].
  apply Inv_evict, Inv_uninvite, HI.
Qed.

Lemma Inv_register (id : string) (ws : nat) (name : string) (w : world) :
  Inv w -> nonempty id = true -> Inv (snd (fst (register id ws name w))).
Proof.
  intros HI Hid. unfold register. exec. unfold send_text.
  match goal with |- context [alive ?w0 ws] => destruct (alive w0 ws) end;
    cbn [fst snd].
  - apply Inv_session; [| exact Hid |].
    + apply Inv_evict, Inv_connections, Inv_players.
      apply Inv_session; [| exact Hid | discriminate]. apply Inv_spawn, HI.
    + intros _. cbn. rewrite length_app. cbn. lia.
  - apply Inv_connections, Inv_players.
    apply Inv_session; [| exact Hid | discriminate]. apply Inv_spawn, HI.
Qed.

Lemma Inv_handshake (id : string) (s : session) (f : frame) (u : string) (w : world) :
  Inv w -> nonempty id = true -> Inv (snd (fst (handshake id s f u w))).
Proof.
  intros HI Hid. unfold handshake.
  assert (Hreg : forall name, preserves Inv (register id (ss_ws s) name)).
  { intros name w0 H0. apply Inv_register; assumption. }
  destruct f as [| | | nm | x y | c | c | g z | h | h sd y]; try exact HI;
    try (apply preserves_bind; [keep | intro; apply Hreg | exact HI]).
  destruct (proposed_name id nm) as [proposed |]; [| exact HI].
  apply preserves_bind; [keep | | exact HI].
  intros []; [keep | apply Hreg].
Qed.

Lemma Inv_main_loop (id : string) (s : session) (f : frame) (w : world) :
  Inv w -> nonempty id = true ->
  (ss_phase s = Joined -> ss_player s < List.length (heap w)) ->
  Inv (snd (fst (main_loop id s f w))).
Proof.
  intros HI Hid Hs. unfold main_loop.
  destruct f as [| | | nm | x y | c | c | g z | h | h sd y]; try exact HI.
  - apply Inv_on_move, HI.
  - apply Inv_on_chat, HI.
  - apply Inv_on_global_chat, HI.
  - apply Inv_on_start_game; assumption.
  - apply Inv_on_join_game; assumption.
  - apply Inv_on_paddle_move, HI.
Qed.

Lemma Inv_guarded (id : string) (s : session) (m : M unit) (w : world) :
  nonempty id = true -> Inv (snd (fst (m w))) -> Inv (fst (guarded id s m w)).
Proof.
  intros Hid H. unfold guarded.
  destruct (m w) as [[r w1] o1]. cbn [fst snd] in H.
  destruct r; [exact H |].
  pose proof (Inv_cleanup id s Hid w1 H) as Hc.
  destruct (cleanup id s w1) as [[r2 w2] o2]. exact Hc.
Qed.

Lemma Inv_empty : Inv empty_world.
Proof. constructor; cbn; intros; discriminate. Qed.

Lemma Inv_step (e : event) (w : world) : Inv w -> Inv (fst (step e w)).
Proof.
  intro HI. destruct e as [id ws | id f u | id | t | ws]; cbn [step].
  - destruct (Dict.mem id (sessions w)); cbn [orb]; [exact HI |].
    destruct (nonempty id) eqn:Hid; cbn [negb]; [| exact HI].
    cbn [fst]. apply Inv_session; [exact HI | exact Hid | discriminate].
  - destruct (Dict.get id (sessions w)) as [s |] eqn:Hs; [| exact HI].
    pose proof (@inv_ids w HI id s Hs) as Hid.
    destruct (ss_phase s) eqn:Hp; [| | exact HI].
    + apply Inv_guarded; [exact Hid |]. apply Inv_handshake; assumption.
    + apply Inv_guarded; [exact Hid |]. apply Inv_main_loop; try assumption.
      intros _. apply (@inv_player w HI id s Hs Hp).
  - destruct (Dict.get id (sessions w)) as [s |] eqn:Hs; [| exact HI].
    pose proof (@inv_ids w HI id s Hs) as Hid.
    destruct (ss_phase s); try exact HI; apply Inv_guarded; assumption.
  - pose proof (Inv_game_tick t w HI) as H.
    destruct (game_tick t w) as [[r w'] o]. exact H.
  - revert HI. apply Inv_ext; reflexivity.
Qed.

Lemma Inv_run (evs : list event) (w : world) : Inv w -> Inv (fst (run evs w)).
Proof.
  revert w. induction evs as [| e evs IH]; intros w HI; [exact HI |].
  cbn [run]. pose proof (Inv_step e w HI) as H1.
  destruct (step e w) as [w1 o]. cbn [fst] in H1.
  specialize (IH w1 H1). destruct (run evs w1) as [w2 tr]. exact IH.
Qed.

Lemma reachable_Inv (w : world) : reachable w -> Inv w.
Proof. intros [evs ->]. apply Inv_run, Inv_empty. Qed.

Local Open Scope string_scope.

(** ** The handshake *)

Lemma name_taken_in (w : world) (n pid : string) (r : nat) :
  In (pid, r) (players w) -> p_name (deref w r) = n -> name_taken w n = true.
Proof.
  intros Hin Hn. unfold name_taken. apply existsb_exists. exists r. split.
  - unfold Dict.values. apply in_map_iff. exists (pid, r). split; [reflexivity | exact Hin].
  - apply String.eqb_eq, Hn.
Qed.

(** C7.  An endpoint still in its handshake receives a [join] whose
    proposed name (the given name, or the generated one, stripped) is the
    name of a registered player: it answers [join_rejected] with the
    proposed name followed by ["-1"] on its own socket and changes nothing
    else, so no player is registered and the endpoint is still awaiting a
    [join]. *)
Theorem duplicate_join_rejected (w : world) (id : string) (s : session)
    (name : field string) (proposed pid : string) (r : nat) (u : string) :
  awaiting w id s ->
  proposed_name id name = Some proposed ->
  In (pid, r) (players w) -> p_name (deref w r) = proposed ->
  alive w (ss_ws s) = true ->
  step (Recv id (Join name) u) w =
    (w, [{| body := JoinRejected "duplicate" (proposed ++ "-1");
            rcpts := [ss_ws s] |}]).
Proof.
  intros [Hs Hp] Hn Hin Hname Hal.
  pose proof (name_taken_in w proposed pid r Hin Hname) as Ht.
  cbn [step]. rewrite Hs, Hp. unfold guarded, handshake. rewrite Hn.
  exec. rewrite Ht. unfold send_text. rewrite Hal. reflexivity.
Qed.

(** ** Invitations *)

(** C8, for a [host_id] that can be looked up.  In its main loop, an
    endpoint that receives a [join_game] whose [host_id] is missing, or is
    a string that keys no pending invitation, sends nothing and leaves
    every registry as it was. *)
Theorem join_game_without_invite (w : world) (id : string) (s : session)
    (oh : option string) (u : string) :
  joined w id s ->
  (forall host_id, oh = Some host_id ->
                   Dict.get host_id (pending_games w) = None) ->
  step (Recv id (JoinGame (opt_field oh)) u) w = (w, []).
Proof.
  intros [Hs Hp] Hn. cbn [step]. rewrite Hs, Hp.
  unfold guarded, main_loop, on_join_game.
  destruct oh as [hid |]; cbn [opt_field]; [| reflexivity].
  exec. rewrite (Hn hid eq_refl). destruct (nonempty hid); reflexivity.
Qed.

(** ** Paddle input *)




(** ** Movement *)




(** ** Accepting an invitation *)

(** C3, as the code has it.  In its main loop, an endpoint that receives a
    [join_game] naming a host with a pending invitation: removes the
    invitation; builds the roster from those of the host (side ["left"])
    and itself (side ["right"]) that [players] still holds, which are both
    when both are registered; sends one [game_started] with the invitation's
    host, game and zone and that roster to every registered connection whose
    socket takes it; and starts a game loop, recorded in [active_games]
    under the host id, on a state with the ball at (400, 250) moving at
    (5, 0), both paddles at 200, no score and 7 to win. *)
Theorem join_game_starts_game (w : world) (id : string) (s : session)
    (host_id : string) (pg : pending) (u : string) :
  reachable w -> joined w id s ->
  Dict.get host_id (pending_games w) = Some pg ->
  let r := step (Recv id (JoinGame (Val host_id)) u) w in
  let roster := build_roster w host_id id in
  let ids := map (fun p => p_id (part_player p)) roster in
  let g := new_game pg host_id ids in
  Dict.get host_id (pending_games (fst r)) = None /\
  roster = (roster_entry w "left" host_id ++ roster_entry w "right" id)%list /\
  (forall hr jr,
     Dict.get host_id (players w) = Some hr -> Dict.get id (players w) = Some jr ->
     roster = [{| part_player := deref w hr; part_side := Some "left" |};
               {| part_player := deref w jr; part_side := Some "right" |}]) /\
  snd r = [{| body := GameStarted (deref w (pg_host pg)) (pg_game pg)
                        (pg_zone pg) roster;
              rcpts := live_sockets w |}] /\
  Dict.get host_id (active_games (fst r)) = Some (List.length (tasks w)) /\
  nth_error (tasks (fst r)) (List.length (tasks w)) =
    Some {| t_state := g; t_host_id := host_id; t_owner := id;
            t_running := true |} /\
  g_ball g = {| b_x := 400; b_y := 250; b_vx := 5; b_vy := 0; b_r := 9 |} /\
  g_paddles g = {| left_y := 200; right_y := 200 |} /\
  g_scores g = {| s_left := 0; s_right := 0 |} /\
  g_winTo g = 7%Z.
Proof.
  intros Hr [Hs Hp] Hpg r roster ids g.
  pose proof (reachable_Inv w Hr) as HI.
  pose proof (@inv_pending w HI host_id pg Hpg) as Hne.
  unfold r. cbn [step]. rewrite Hs, Hp.
  unfold guarded, main_loop, on_join_game.
  mstep. rewrite Hpg, Hne. mstep.
  rewrite (bind_done _ _ _ _ _ _ (broadcast_all _ _)).
  unfold set_session. mstep. unfold modify. cbn [fst snd app].
  split. { cbn. rewrite get_pop, String.eqb_refl. reflexivity. }
  split. { reflexivity. }
  split. { intros hr jr Hh Hj. unfold roster, build_roster, roster_entry.
           rewrite Hh, Hj. reflexivity. }
  split. { reflexivity. }
  split. { cbn. rewrite get_set, String.eqb_refl. reflexivity. }
  split. { cbn. rewrite nth_error_app2 by lia. rewrite Nat.sub_diag. reflexivity. }
  repeat split.
Qed.

(** ** Chat *)

Lemma prefix_len (n : nat) (s : string) : Py.len (Py.prefix n s) <= n.
Proof.
  revert n. induction s as [| c s IH]; intro n; cbn [Py.prefix Py.len]; [lia |].
  destruct (Py.continues c) eqn:E.
  - cbn [Py.len]. rewrite E. apply IH.
  - destruct n as [| n]; cbn [Py.len]; [lia |]. rewrite E.
    specialize (IH n). lia.
Qed.

(** The log entry and the evictions of one [send_to_players]. *)
Lemma send_to_players_result (ids : list string) (m : server_msg) (w : world) :
  exists l,
    send_to_players ids m w =
    (Done tt, evict l w, [{| body := m; rcpts := sockets_of w ids |}]).
Proof.
  unfold send_to_players, fan_out, sockets_of. eexists. do 3 f_equal.
  induction ids as [| pid ids IH]; [reflexivity |].
  cbn [map flat_map]. rewrite IH. reflexivity.
Qed.

(** What the comprehension of lines 114-118 collects, when no power
    overflows. *)
Lemma nearby_players_spec (w : world) (id : string) (me : player)
    (items : Dict.t nat) (near : list string) :
  nearby_players w id me items = Some near ->
  forall pid,
    In pid near <->
    pid <> id /\
    exists r d, In (pid, r) items /\ sq_dist (deref w r) me = Some d /\
                (d <=? 40000)%float = true.
Proof.
  revert near. induction items as [| [k r] items IH]; intros near H pid.
  - cbn in H. inversion H. cbn. split; [contradiction |].
    intros [_ [r [d [[] _]]]].
  - cbn [nearby_players] in H. destruct (String.eqb k id) eqn:Ek; cbn [negb] in H.
    + apply String.eqb_eq in Ek. subst k.
      rewrite (IH near H pid). split.
      * intros [Hne [r' [d [Hin Hd]]]]. split; [exact Hne |].
        exists r', d. split; [right; exact Hin | exact Hd].
      * intros [Hne [r' [d [[Heq | Hin] Hd]]]].
        -- inversion Heq. congruence.
        -- split; [exact Hne |]. exists r', d. split; assumption.
    + apply String.eqb_neq in Ek.
      destruct (sq_dist (deref w r) me) as [d0 |] eqn:Hd0; [| discriminate].
      destruct (nearby_players w id me items) as [l |]; [| discriminate].
      specialize (IH l eq_refl pid).
      destruct (d0 <=? 40000)%float eqn:Hle; inversion H; subst near; clear H.
      * cbn [In]. rewrite IH. split.
        -- intros [Heq | [Hne [r' [d [Hin Hd]]]]].
           ++ subst pid. split; [exact Ek |]. exists r, d0.
              split; [left; reflexivity | split; assumption].
           ++ split; [exact Hne |]. exists r', d. split; [right; exact Hin | exact Hd].
        -- intros [Hne [r' [d [[Heq | Hin] Hd]]]].
           ++ inversion Heq. left. reflexivity.
           ++ right. split; [exact Hne |]. exists r', d. split; assumption.
      * rewrite IH. split.
        -- intros [Hne [r' [d [Hin Hd]]]]. split; [exact Hne |].
           exists r', d. split; [right; exact Hin | exact Hd].
        -- intros [Hne [r' [d [[Heq | Hin] [Hd Hdle]]]]].
           ++ inversion Heq. subst. rewrite Hd0 in Hd. inversion Hd. subst.
              rewrite Hle in Hdle. discriminate.
           ++ split; [exact Hne |]. exists r', d. split; [exact Hin | split; assumption].
Qed.

(** The chat handler where every squared distance is computed: the content
    is cut to 1000 characters, one message goes to the sockets of the other
    registered players within 200, one to the sender. *)
Lemma chat_reaches_nearby (w : world) (id : string) (s : session)
    (oc : option string) (near : list string) (u : string) :
  joined w id s ->
  let me := deref w (ss_player s) in
  nearby_players w id me (players w) = Some near ->
  alive w (ss_ws s) = true ->
  let content := match oc with Some c => Py.prefix 1000 c | None => "" end in
  let msg := ChatMsg (p_name me) content in
  snd (step (Recv id (Chat (opt_field oc)) u) w) =
    [{| body := msg; rcpts := sockets_of w near |};
     {| body := msg; rcpts := [ss_ws s] |}] /\
  Py.len content <= 1000 /\
  (forall pid,
     In pid near <->
     pid <> id /\
     exists r d, In (pid, r) (players w) /\ sq_dist (deref w r) me = Some d /\
                 (d <=? 40000)%float = true).
Proof.
  intros [Hs Hp] me Hnear Hal content msg. split; [| split].
  - cbn [step]. rewrite Hs, Hp. unfold guarded, main_loop, on_chat.
    assert (Hc : content_field (opt_field oc) = ret content)
      by (destruct oc; reflexivity).
    rewrite Hc. mstep. fold me. rewrite Hnear.
    destruct (send_to_players_result near msg w) as [l Hsend].
    rewrite (bind_done _ _ _ _ _ _ Hsend).
    unfold send_text.
    change (alive (evict l w) (ss_ws s)) with (alive w (ss_ws s)).
    rewrite Hal. reflexivity.
  - unfold content. destruct oc; [apply prefix_len | cbn; lia].
  - apply nearby_players_spec; exact Hnear.
Qed.

(** ** The two registries *)

Lemma mem_set {V : Type} (k k' : string) (v : V) (d : Dict.t V) :
  Dict.mem k (Dict.set k' v d) = String.eqb k k' || Dict.mem k d.
Proof. unfold Dict.mem. rewrite get_set. destruct (String.eqb k k'); reflexivity. Qed.

Lemma mem_pop {V : Type} (k k' : string) (d : Dict.t V) :
  Dict.mem k (Dict.pop k' d) = negb (String.eqb k k') && Dict.mem k d.
Proof. unfold Dict.mem. rewrite get_pop. destruct (String.eqb k k'); reflexivity. Qed.

Lemma mem_pop_all {V : Type} (k : string) (ks : list string) (d : Dict.t V) :
  Dict.mem k (Dict.pop_all ks d) = negb (existsb (String.eqb k) ks) && Dict.mem k d.
Proof. unfold Dict.mem. rewrite get_pop_all. destruct (existsb _ ks); reflexivity. Qed.

Lemma same_keys_ext (w w' : world) :
  players w' = players w -> connections w' = connections w ->
  same_keys w -> same_keys w'.
Proof. intros Hp Hc H k. rewrite Hp, Hc. apply H. Qed.

(** Eviction takes the same ids out of both. *)
Lemma same_keys_evict (l : list string) (w : world) :
  same_keys w -> same_keys (evict l w).
Proof. intros H k. cbn. rewrite !mem_pop_all, H. reflexivity. Qed.

(** Registration puts the id into both. *)
Lemma same_keys_register_both (id : string) (r ws : nat) (w w' : world) :
  players w' = Dict.set id r (players w) ->
  connections w' = Dict.set id ws (connections w) ->
  same_keys w -> same_keys w'.
Proof. intros Hp Hc H k. rewrite Hp, Hc, !mem_set, H. reflexivity. Qed.

(** Cleanup takes the id out of both. *)
Lemma same_keys_pop_both (id : string) (w w' : world) :
  players w' = Dict.pop id (players w) ->
  connections w' = Dict.pop id (connections w) ->
  same_keys w -> same_keys w'.
Proof. intros Hp Hc H k. rewrite Hp, Hc, !mem_pop, H. reflexivity. Qed.

Ltac keep_keys :=
  keep;
  try (intros; first [ apply same_keys_evict; assumption
                     | eapply same_keys_ext; [| | eassumption]; reflexivity ]).

Lemma same_keys_cleanup (id : string) (s : session) :
  preserves same_keys (cleanup id s).
Proof.
  intros w H. unfold cleanup. mstep.
  refine (preserves_bind same_keys _ _ _ _ _ _);
    [unfold set_session; keep_keys | intro; unfold set_session; keep_keys |].
  revert H. apply (same_keys_pop_both id); reflexivity.
Qed.

Lemma same_keys_register (id : string) (ws : nat) (name : string) :
  preserves same_keys (register id ws name).
Proof.
  intros w H. unfold register, set_session. mstep.
  refine (preserves_bind same_keys _ _ _ _ _ _); [keep_keys | intro; keep_keys |].
  revert H. apply (same_keys_register_both id (List.length (heap w)) ws);
    reflexivity.
Qed.

Lemma same_keys_handshake (id : string) (s : session) (f : frame) (u : string) :
  preserves same_keys (handshake id s f u).
Proof.
  unfold handshake.
  destruct f; keep_keys; apply same_keys_register.
Qed.

Lemma same_keys_on_move (id : string) (s : session) (fx fy : field float) (w : world) :
  Dict.mem id (players w) = true ->
  same_keys w -> same_keys (snd (fst (on_move id s fx fy w))).
Proof.
  intros Hm H. unfold on_move, mutate.
  destruct fx as [| x |], fy as [| y |]; unfold float_field; mstep;
    try exact H; rewrite broadcast_all; cbn [fst snd];
    apply same_keys_evict; intro k; cbn; rewrite mem_set;
    (destruct (String.eqb k id) eqn:E;
      [apply String.eqb_eq in E; subst k; rewrite <- (H id), Hm; reflexivity
      | apply H]).
Qed.

Lemma same_keys_on_chat (id : string) (s : session) (c : field string) :
  preserves same_keys (on_chat id s c).
Proof. unfold on_chat, content_field. keep_keys. Qed.

Lemma same_keys_on_global_chat (s : session) (c : field string) :
  preserves same_keys (on_global_chat s c).
Proof. unfold on_global_chat, content_field. keep_keys. Qed.

Lemma same_keys_on_start_game (id : string) (s : session) (g z : option string) :
  preserves same_keys (on_start_game id s g z).
Proof. unfold on_start_game. keep_keys. Qed.

Lemma same_keys_on_join_game (id : string) (s : session) (h : field string) :
  preserves same_keys (on_join_game id s h).
Proof. unfold on_join_game, set_session. keep_keys. Qed.

Lemma same_keys_on_paddle_move (h : field string) (sd : option string)
    (fy : field float) : preserves same_keys (on_paddle_move h sd fy).
Proof.
  unfold on_paddle_move, float_field. keep_keys;
    intros w H; destruct (nth_error (tasks w) _); [| exact H];
    revert H; apply same_keys_ext; reflexivity.
Qed.

Lemma same_keys_game_tick (t : nat) : preserves same_keys (game_tick t).
Proof. unfold game_tick. keep_keys. Qed.

Lemma same_keys_main_loop (id : string) (s : session) (f : frame) (w : world) :
  (forall x y, f = Move x y -> Dict.mem id (players w) = true) ->
  same_keys w -> same_keys (snd (fst (main_loop id s f w))).
Proof.
  intros Hm H. unfold main_loop.
  destruct f as [| | | nm | x y | c | c | g z | h | h sd y]; try exact H.
  - apply same_keys_on_move; [apply (Hm x y eq_refl) | exact H].
  - apply same_keys_on_chat, H.
  - apply same_keys_on_global_chat, H.
  - apply same_keys_on_start_game, H.
  - apply same_keys_on_join_game, H.
  - apply same_keys_on_paddle_move, H.
Qed.

Lemma same_keys_guarded (id : string) (s : session) (m : M unit) (w : world) :
  same_keys (snd (fst (m w))) -> same_keys (fst (guarded id s m w)).
Proof.
  intro H. unfold guarded.
  destruct (m w) as [[r w1] o1]. cbn [fst snd] in H.
  destruct r; [exact H |].
  pose proof (same_keys_cleanup id s w1 H) as Hc.
  destruct (cleanup id s w1) as [[r2 w2] o2]. exact Hc.
Qed.

(** X23.  Key-set equality of [players] and [connections] is kept by every
    step of the hub (a registration puts the id into both, an eviction and
    a cleanup take the same ids out of both) other than a [move] handled
    for an endpoint whose player is not in [players] any more. *)
Theorem registries_stay_in_step (e : event) (w : world) :
  same_keys w -> ghost_move w e = false -> same_keys (fst (step e w)).
Proof.
  intros H Hg. destruct e as [id ws | id f u | id | t | ws]; cbn [step].
  - destruct (_ || _); [exact H |]. revert H. apply same_keys_ext; reflexivity.
  - destruct (Dict.get id (sessions w)) as [s |] eqn:Hs; [| exact H].
    destruct (ss_phase s) eqn:Hp; [| | exact H]; apply same_keys_guarded.
    + apply same_keys_handshake, H.
    + apply same_keys_main_loop; [| exact H].
      intros x y ->. cbn [ghost_move] in Hg. rewrite Hs, Hp in Hg.
      apply negb_false_iff, Hg.
  - destruct (Dict.get id (sessions w)) as [s |]; [| exact H].
    destruct (ss_phase s); try exact H; apply same_keys_guarded; exact H.
  - pose proof (same_keys_game_tick t w H) as Ht.
    destruct (game_tick t w) as [[r w'] o]. exact Ht.
  - revert H. apply same_keys_ext; reflexivity.
Qed.

(** ** The game loop *)

Local Open Scope list_scope.

Lemma physics_winTo (g : game_state) : g_winTo (Physics.physics g) = g_winTo g.
Proof. unfold Physics.physics. destruct (Physics.score_left _). reflexivity. Qed.

Lemma won_threshold (g : game_state) :
  Physics.won g = reached_threshold (g_scores g) (g_winTo g).
Proof. reflexivity. Qed.

Section LoopFrame.
Variables (t : nat) (running : bool) (sc : scores) (winTo : Z).

Let P (w : world) : Prop := loop_at w t running sc winTo.

Lemma loop_at_ext (w w' : world) : tasks w' = tasks w -> P w -> P w'.
Proof. intros Ht [tk H]. exists tk. rewrite Ht. exact H. Qed.

Lemma loop_at_append (w : world) (x : game_task) :
  P w -> P (with_tasks (tasks w ++ [x]) w).
Proof.
  intros [tk [Hn H]]. exists tk. split; [| exact H]. cbn.
  rewrite nth_error_app1; [exact Hn |]. apply nth_error_Some. congruence.
Qed.

Lemma loop_at_other (w : world) (t' : nat) (x : game_task) :
  t' <> t -> P w -> P (with_tasks (list_set t' x (tasks w)) w).
Proof.
  intros Hne [tk [Hn H]]. exists tk. split; [| exact H]. cbn.
  rewrite nth_error_list_set.
  destruct (t =? t')%nat eqn:E; [apply Nat.eqb_eq in E; congruence |].
  exact Hn.
Qed.

Lemma loop_at_paddle (w : world) (t0 : nat) (side : option string) (y : float) :
  P w ->
  P match nth_error (tasks w) t0 with
    | Some tk =>
        with_tasks
          (list_set t0 (set_state (move_paddle side y (t_state tk)) tk) (tasks w)) w
    | None => w
    end.
Proof.
  intros [tk [Hn [Hr [Hs Hw]]]].
  destruct (nth_error (tasks w) t0) as [tk0 |] eqn:H0; [| exists tk; auto].
  destruct (Nat.eq_dec t0 t) as [-> | Hne].
  - rewrite Hn in H0. inversion H0. subst tk0.
    exists (set_state (move_paddle side y (t_state tk)) tk). cbn.
    rewrite nth_error_list_set, Nat.eqb_refl.
    assert (Hlt : (t <? List.length (tasks w))%nat = true).
    { apply Nat.ltb_lt, nth_error_Some. congruence. }
    rewrite Hlt. split; [reflexivity |].
    unfold move_paddle. destruct (is_left side); cbn; auto.
  - apply loop_at_other; [exact Hne |]. exists tk. auto.
Qed.

Ltac keep_loop :=
  keep;
  try (intros; first [ apply loop_at_append; assumption
                     | apply loop_at_paddle; assumption
                     | eapply loop_at_ext; [| eassumption]; reflexivity ]).

Lemma loop_at_handshake (id : string) (s : session) (f : frame) (u : string) :
  preserves P (handshake id s f u).
Proof. unfold handshake, register, set_session. destruct f; keep_loop. Qed.

Lemma loop_at_cleanup (id : string) (s : session) : preserves P (cleanup id s).
Proof. unfold cleanup, set_session. keep_loop. Qed.

Lemma loop_at_main_loop (id : string) (s : session) (f : frame) :
  preserves P (main_loop id s f).
Proof.
  unfold main_loop, on_move, on_chat, on_global_chat, on_start_game,
    on_join_game, on_paddle_move, mutate, set_session, float_field,
    content_field.
  destruct f; keep_loop.
Qed.

Lemma loop_at_tick_other (t' : nat) : t' <> t -> preserves P (game_tick t').
Proof.
  intro Hne. unfold game_tick. keep_loop; intros; apply loop_at_other; assumption.
Qed.

Lemma loop_at_step (e : event) (w : world) :
  is_tick t e = false -> P w -> P (fst (step e w)).
Proof.
  intros He H. destruct e as [id ws | id f u | id | t' | ws]; cbn [step].
  - destruct (_ || _); [exact H |]. revert H. apply loop_at_ext. reflexivity.
  - destruct (Dict.get id (sessions w)) as [s |]; [| exact H].
    destruct (ss_phase s); [| | exact H].
    + apply preserves_guarded; [apply loop_at_handshake | apply loop_at_cleanup | exact H].
    + apply preserves_guarded; [apply loop_at_main_loop | apply loop_at_cleanup | exact H].
  - destruct (Dict.get id (sessions w)) as [s |]; [| exact H].
    destruct (ss_phase s); try exact H;
      (apply preserves_guarded; [keep | apply loop_at_cleanup | exact H]).
  - cbn [is_tick] in He. apply Nat.eqb_neq in He.
    assert (Hne : t' <> t) by congruence.
    pose proof (loop_at_tick_other t' Hne w H) as Ht.
    destruct (game_tick t' w) as [[r w'] o]. exact Ht.
  - revert H. apply loop_at_ext. reflexivity.
Qed.
End LoopFrame.

Section LoopStart.
Variable t : nat.

Let zero : scores := {| s_left := 0; s_right := 0 |}.
Let P0 (w : world) : Prop :=
  nth_error (tasks w) t = None \/ loop_at w t true zero 7.

Lemma not_started_ext (w w' : world) : tasks w' = tasks w -> P0 w -> P0 w'.
Proof.
  intros Ht [H | H]; [left; rewrite Ht; exact H | right].
  eapply loop_at_ext; eassumption.
Qed.

Lemma not_started_append (w : world) (pg : pending) (h o : string)
    (ids : list string) :
  P0 w ->
  P0 (with_tasks
        (tasks w ++ [{| t_state := new_game pg h ids; t_host_id := h;
                        t_owner := o; t_running := true |}]) w).
Proof.
  intros [H | H]; [| right; apply loop_at_append; exact H].
  apply nth_error_None in H.
  destruct (Nat.eq_dec t (List.length (tasks w))) as [-> | Hne].
  - right. eexists. cbn. rewrite nth_error_app2, Nat.sub_diag by lia.
    cbn. repeat split.
  - left. cbn. apply nth_error_None. rewrite length_app. cbn. lia.
Qed.

Lemma not_started_other (w : world) (t' : nat) (x : game_task) :
  t' <> t -> P0 w -> P0 (with_tasks (list_set t' x (tasks w)) w).
Proof.
  intros Hne [H | H]; [left | right; apply loop_at_other; assumption].
  cbn. apply nth_error_None. rewrite list_set_length.
  apply nth_error_None, H.
Qed.

Lemma not_started_paddle (w : world) (t0 : nat) (side : option string) (y : float) :
  P0 w ->
  P0 match nth_error (tasks w) t0 with
     | Some tk =>
         with_tasks
           (list_set t0 (set_state (move_paddle side y (t_state tk)) tk) (tasks w)) w
     | None => w
     end.
Proof.
  intros [H | H]; [| right; apply loop_at_paddle; exact H].
  destruct (nth_error (tasks w) t0) as [tk0 |] eqn:H0; [| left; exact H].
  left. cbn. apply nth_error_None. rewrite list_set_length.
  apply nth_error_None, H.
Qed.

Ltac keep_start :=
  keep;
  try (intros; first [ apply not_started_append; assumption
                     | apply not_started_paddle; assumption
                     | eapply not_started_ext; [| eassumption]; reflexivity ]).

Lemma not_started_handshake (id : string) (s : session) (f : frame) (u : string) :
  preserves P0 (handshake id s f u).
Proof. unfold handshake, register, set_session. destruct f; keep_start. Qed.

Lemma not_started_cleanup (id : string) (s : session) : preserves P0 (cleanup id s).
Proof. unfold cleanup, set_session. keep_start. Qed.

Lemma not_started_main_loop (id : string) (s : session) (f : frame) :
  preserves P0 (main_loop id s f).
Proof.
  unfold main_loop, on_move, on_chat, on_global_chat, on_start_game,
    on_join_game, on_paddle_move, mutate, set_session, float_field,
    content_field.
  destruct f; keep_start.
Qed.

Lemma not_started_tick_other (t' : nat) : t' <> t -> preserves P0 (game_tick t').
Proof.
  intro Hne. unfold game_tick.
  keep_start; intros; apply not_started_other; assumption.
Qed.

Lemma not_started_step (e : event) (w : world) :
  is_tick t e = false -> P0 w -> P0 (fst (step e w)).
Proof.
  intros He H. destruct e as [id ws | id f u | id | t' | ws]; cbn [step].
  - destruct (_ || _); [exact H |]. revert H. apply not_started_ext. reflexivity.
  - destruct (Dict.get id (sessions w)) as [s |]; [| exact H].
    destruct (ss_phase s); [| | exact H].
    + apply preserves_guarded;
        [apply not_started_handshake | apply not_started_cleanup | exact H].
    + apply preserves_guarded;
        [apply not_started_main_loop | apply not_started_cleanup | exact H].
  - destruct (Dict.get id (sessions w)) as [s |]; [| exact H].
    destruct (ss_phase s); try exact H;
      (apply preserves_guarded; [keep | apply not_started_cleanup | exact H]).
  - cbn [is_tick] in He. apply Nat.eqb_neq in He.
    assert (Hne : t' <> t) by congruence.
    pose proof (not_started_tick_other t' Hne w H) as Ht.
    destruct (game_tick t' w) as [[r w'] o]. exact Ht.
  - revert H. apply not_started_ext. reflexivity.
Qed.
End LoopStart.

(** A loop that is not there, or was left, does nothing. *)
Lemma tick_idle (w : world) (t : nat) :
  (nth_error (tasks w) t = None \/
   exists sc winTo, loop_at w t false sc winTo) ->
  step (Tick t) w = (w, []).
Proof.
  intros [H | [sc [wt [tk [H [Hr _]]]]]]; cbn [step]; unfold game_tick; mstep;
    rewrite H; [reflexivity |]. rewrite Hr. reflexivity.
Qed.

Lemma list_set_twice {A : Type} (n : nat) (x y : A) (l : list A) :
  list_set n y (list_set n x l) = list_set n y l.
Proof.
  revert n. induction l as [| a l IH]; intros [| n]; cbn; try reflexivity.
  rewrite IH. reflexivity.
Qed.


(** The sockets of a list of ids are the same after the ids that failed
    have been evicted: what a second send to the list reaches is what the
    first reached. *)
Lemma sockets_of_evict (w w' : world) (ids : list string) :
  connections w' = connections w -> dead w' = dead w ->
  sockets_of
    (evict (map fst (filter (failed w)
                       (map (fun pid => (pid, Dict.get pid (connections w))) ids)))
       w') ids =
  sockets_of w ids.
Proof.
  intros Hc Hd. unfold sockets_of. apply flat_map_ext. intro pid.
  cbn [evict connections with_players with_connections].
  rewrite get_pop_all, Hc.
  assert (Hal : forall ws, alive (evict (map fst (filter (failed w)
                       (map (fun pid => (pid, Dict.get pid (connections w))) ids)))
       w') ws = alive w ws).
  { intro ws. unfold alive. cbn. rewrite Hd. reflexivity. }
  destruct (existsb _ _) eqn:E.
  - apply existsb_exists in E. destruct E as [k [Hin Hk]].
    apply String.eqb_eq in Hk. subst k.
    apply in_map_iff in Hin. destruct Hin as [[k o] [Hk Hin]].
    cbn in Hk. subst k. apply filter_In in Hin. destruct Hin as [Hin Hf].
    apply in_map_iff in Hin. destruct Hin as [k [Hk _]].
    inversion Hk. subst k o. clear Hk.
    unfold failed in Hf. unfold reached. cbn [snd] in *.
    destruct (Dict.get pid (connections w)) as [ws |]; [| reflexivity].
    destruct (alive w ws); [discriminate | reflexivity].
  - unfold reached. cbn [snd].
    destruct (Dict.get pid (connections w)) as [ws |]; [| reflexivity].
    rewrite Hal. reflexivity.
Qed.

Lemma send_to_players_unfold (ids : list string) (m : server_msg) (w : world) :
  send_to_players ids m w =
  (Done tt,
   evict (map fst (filter (failed w)
                     (map (fun pid => (pid, Dict.get pid (connections w))) ids))) w,
   [{| body := m; rcpts := sockets_of w ids |}]).
Proof.
  unfold send_to_players, fan_out, sockets_of. do 3 f_equal.
  induction ids as [| pid ids IH]; [reflexivity |].
  cbn [map flat_map]. rewrite IH. reflexivity.
Qed.

(** One turn of a loop: the state moves by [physics]; a snapshot goes to the
    sockets of the ids that [participant_ids] holds; at the threshold a
    [game_over] with the scores follows, to the same sockets, and the loop
    is left. *)
Lemma tick_turn (w : world) (t : nat) (tk : game_task) :
  nth_error (tasks w) t = Some tk -> t_running tk = true ->
  let g := Physics.physics (t_state tk) in
  let to := sockets_of w (participant_ids_of w (t_owner tk)) in
  exists w',
    step (Tick t) w =
      (w', {| body := GameStateMsg (t_host_id tk) (g_ball g) (g_paddles g)
                        (g_scores g);
              rcpts := to |}
           :: if Physics.won g
              then [{| body := GameOver (g_scores g); rcpts := to |}]
              else []) /\
    nth_error (tasks w') t =
      Some (if Physics.won g then finish (set_state g tk) else set_state g tk).
Proof.
  intros Hn Hr g to. cbn [step]. unfold game_tick. mstep.
  rewrite Hn, Hr. fold g. mstep.
  assert (Hlt : (t <? List.length (tasks w))%nat = true).
  { apply Nat.ltb_lt, nth_error_Some. rewrite Hn. discriminate. }
  rewrite (bind_done _ _ _ _ _ _ (send_to_players_unfold _ _ _)).
  destruct (Physics.won g).
  - mstep.
    rewrite (bind_done _ _ _ _ _ _ (send_to_players_unfold _ _ _)).
    unfold modify. cbn [fst snd app].
    eexists. split.
    + f_equal. f_equal. f_equal. f_equal.
      apply (sockets_of_evict w); reflexivity.
    + cbn. rewrite list_set_twice, nth_error_list_set, Nat.eqb_refl, Hlt.
      reflexivity.
  - cbn [fst snd app ret]. eexists. split; [reflexivity |].
    cbn. rewrite nth_error_list_set, Nat.eqb_refl, Hlt. reflexivity.
Qed.

(** The outcome is kept from event to event, the log growing by what the
    turns of the loop send. *)
Lemma loop_outcome_step (e : event) (w : world) (t : nat) (log : list sent) :
  loop_outcome w t log ->
  loop_outcome (fst (step e w)) t
    (log ++ if is_tick t e then snd (step e w) else []).
Proof.
  intro H. destruct (is_tick t e) eqn:He.
  - destruct e as [| | | t' |]; try discriminate.
    cbn [is_tick] in He. apply Nat.eqb_eq in He. subst t'.
    destruct H as [Hn Hl | sc [tk [Hn [Hr [Hs Hw]]]] Hb Hl
                  | sc snaps last Hat Hb Hl Hsn Hlast].
    + rewrite (tick_idle w t) by (left; exact Hn).
      rewrite app_nil_r. apply NotStarted; assumption.
    + destruct (tick_turn w t tk Hn Hr) as [w' [Hstep Hn']].
      rewrite Hstep. cbn [fst snd].
      rewrite won_threshold, physics_winTo, Hw in *.
      destruct (reached_threshold (g_scores (Physics.physics (t_state tk))) 7)
        eqn:Hwon.
      * apply LoopOver with (sc := g_scores (Physics.physics (t_state tk)))
          (snaps := (log ++ [{| body := GameStateMsg (t_host_id tk)
                                 (g_ball (Physics.physics (t_state tk)))
                                 (g_paddles (Physics.physics (t_state tk)))
                                 (g_scores (Physics.physics (t_state tk)));
                               rcpts := sockets_of w
                                 (participant_ids_of w (t_owner tk)) |}])%list)
          (last := {| body := GameOver (g_scores (Physics.physics (t_state tk)));
                      rcpts := sockets_of w (participant_ids_of w (t_owner tk)) |}).
        -- eexists. split; [exact Hn' |]. cbn. rewrite physics_winTo, Hw.
           repeat split; assumption.
        -- exact Hwon.
        -- rewrite <- app_assoc. reflexivity.
        -- apply Forall_app. split; [exact Hl |]. constructor; [| constructor].
           do 4 eexists. reflexivity.
        -- reflexivity.
      * apply InLoop with (sc := g_scores (Physics.physics (t_state tk))).
        -- eexists. split; [exact Hn' |]. cbn. rewrite physics_winTo, Hw.
           repeat split; assumption.
        -- exact Hwon.
        -- apply Forall_app. split; [exact Hl |]. constructor; [| constructor].
           do 4 eexists. reflexivity.
    + rewrite (tick_idle w t) by (right; eauto).
      rewrite app_nil_r. eapply LoopOver; eassumption.
  - rewrite app_nil_r.
    destruct H as [Hn Hl | sc Hat Hb Hl | sc snaps last Hat Hb Hl Hsn Hlast].
    + destruct (not_started_step t e w He (or_introl Hn)) as [Hn' | Hat].
      * apply NotStarted; assumption.
      * subst log. eapply InLoop; [exact Hat | reflexivity | constructor].
    + eapply InLoop; [| eassumption..]. apply loop_at_step; assumption.
    + eapply LoopOver; [| eassumption..]. apply loop_at_step; assumption.
Qed.

Lemma loop_log_cons (t : nat) (e : event) (o : list sent)
    (tr : list (event * list sent)) :
  loop_log t ((e, o) :: tr) = (if is_tick t e then o else []) ++ loop_log t tr.
Proof. cbn. destruct (is_tick t e); reflexivity. Qed.

Lemma loop_outcome_run (evs : list event) (w : world) (t : nat) (log : list sent) :
  loop_outcome w t log ->
  loop_outcome (fst (run evs w)) t (log ++ loop_log t (snd (run evs w))).
Proof.
  revert w log. induction evs as [| e evs IH]; intros w log H.
  - cbn. rewrite app_nil_r. exact H.
  - cbn [run]. pose proof (loop_outcome_step e w t log H) as H1.
    destruct (step e w) as [w1 o]. cbn [fst snd] in H1.
    specialize (IH w1 _ H1).
    destruct (run evs w1) as [w2 tr]. cbn [fst snd] in IH |- *.
    rewrite loop_log_cons, app_assoc. exact IH.
Qed.

(** X24.  In every run of the hub, for every game loop: either the loop was
    not started; or it is in its loop, both scores below the win threshold
    of 7, and all it sent are [game_state] snapshots; or a score reached 7,
    the loop was left for good, and what it sent are snapshots followed by
    exactly one [game_over] with the final scores, after which nothing.
    On each turn the snapshot, and the [game_over] when there is one, go to
    the sockets of the ids that the [participant_ids] of the endpoint that
    started the loop holds at that moment. *)
Theorem game_over_sent_once (evs : list event) (t : nat) :
  loop_outcome (after evs) t (loop_log t (snd (run evs empty_world))) /\
  forall tk : game_task,
    nth_error (tasks (after evs)) t = Some tk -> t_running tk = true ->
    let w := after evs in
    let g := Physics.physics (t_state tk) in
    let to := sockets_of w (participant_ids_of w (t_owner tk)) in
    snd (step (Tick t) w) =
      {| body := GameStateMsg (t_host_id tk) (g_ball g) (g_paddles g)
                   (g_scores g);
         rcpts := to |}
      :: if reached_threshold (g_scores g) 7
         then [{| body := GameOver (g_scores g); rcpts := to |}]
         else [].
Proof.
  assert (H0 : loop_outcome empty_world t []).
  { apply NotStarted; [destruct t |]; reflexivity. }
  pose proof (loop_outcome_run evs empty_world t [] H0) as H. clear H0.
  cbn [app] in H. fold (after evs) in H.
  split; [exact H |].
  intros tk Hn Hr w g to.
  destruct (tick_turn w t tk Hn Hr) as [w' [Hstep _]].
  rewrite Hstep. cbn [snd]. fold g to. rewrite won_threshold.
  change (g_winTo g) with (g_winTo (Physics.physics (t_state tk))).
  rewrite physics_winTo.
  replace (g_winTo (t_state tk)) with 7%Z; [reflexivity |].
  destruct H as [Hn0 _ | sc [tk0 [Hn0 [_ [_ Hw]]]] _ _
                | sc snaps last [tk0 [Hn0 [_ [_ Hw]]]] _ _ _ _];
    unfold w in Hn; congruence.
Qed.


(** ** A game between and during its turns *)

(** What is not a turn of its loop and not a [paddle_move] leaves a task as
    it is. *)
Section TaskFrame.
Variables (t : nat) (tk : game_task).

Let P (w : world) : Prop := nth_error (tasks w) t = Some tk.

Lemma task_ext (w w' : world) : tasks w' = tasks w -> P w -> P w'.
Proof. unfold P. intros Ht H. rewrite Ht. exact H. Qed.

Lemma task_append (w : world) (x : game_task) :
  P w -> P (with_tasks (tasks w ++ [x]) w).
Proof.
  unfold P. intro Hn. cbn.
  rewrite nth_error_app1; [exact Hn |]. apply nth_error_Some. congruence.
Qed.

Lemma task_other (w : world) (t' : nat) (x : game_task) :
  t' <> t -> P w -> P (with_tasks (list_set t' x (tasks w)) w).
Proof.
  unfold P. intros Hne Hn. cbn. rewrite nth_error_list_set.
  destruct (t =? t')%nat eqn:E; [apply Nat.eqb_eq in E; congruence |].
  exact Hn.
Qed.

Ltac keep_task :=
  keep;
  try (intros; first [ apply task_append; assumption
                     | eapply task_ext; [| eassumption]; reflexivity ]).

Lemma task_handshake (id : string) (s : session) (f : frame) (u : string) :
  preserves P (handshake id s f u).
Proof. unfold handshake, register, set_session. destruct f; keep_task. Qed.

Lemma task_cleanup (id : string) (s : session) : preserves P (cleanup id s).
Proof. unfold cleanup, set_session. keep_task. Qed.

Lemma task_main_loop (id : string) (s : session) (f : frame) (u : string) :
  is_paddle_move (Recv id f u) = false -> preserves P (main_loop id s f).
Proof.
  intro Hf.
  unfold main_loop, on_move, on_chat, on_global_chat, on_start_game,
    on_join_game, mutate, set_session, float_field, content_field.
  destruct f; try discriminate; keep_task.
Qed.

Lemma task_tick_other (t' : nat) : t' <> t -> preserves P (game_tick t').
Proof.
  intro Hne. unfold game_tick. keep_task; intros; apply task_other; assumption.
Qed.

Lemma task_step (e : event) (w : world) :
  is_tick t e = false -> is_paddle_move e = false ->
  P w -> P (fst (step e w)).
Proof.
  intros He Hp H. destruct e as [id ws | id f u | id | t' | ws]; cbn [step].
  - destruct (_ || _); [exact H |]. revert H. apply task_ext. reflexivity.
  - destruct (Dict.get id (sessions w)) as [s |]; [| exact H].
    destruct (ss_phase s); [| | exact H].
    + apply preserves_guarded; [apply task_handshake | apply task_cleanup | exact H].
    + apply preserves_guarded;
        [apply (task_main_loop id s f u Hp) | apply task_cleanup | exact H].
  - destruct (Dict.get id (sessions w)) as [s |]; [| exact H].
    destruct (ss_phase s); try exact H;
      (apply preserves_guarded; [keep | apply task_cleanup | exact H]).
  - cbn [is_tick] in He. apply Nat.eqb_neq in He.
    assert (Hne : t' <> t) by congruence.
    pose proof (task_tick_other t' Hne w H) as Ht.
    destruct (game_tick t' w) as [[r w'] o]. exact Ht.
  - revert H. apply task_ext. reflexivity.
Qed.
End TaskFrame.

(** The task after a turn of its loop. *)
Lemma tick_state (w : world) (t : nat) (tk : game_task) :
  nth_error (tasks w) t = Some tk -> t_running tk = true ->
  let g := Physics.physics (t_state tk) in
  nth_error (tasks (fst (step (Tick t) w))) t =
    Some (if Physics.won g then finish (set_state g tk) else set_state g tk).
Proof.
  intros Hn Hr g. destruct (tick_turn w t tk Hn Hr) as [w' [Hstep Hn']].
  rewrite Hstep. exact Hn'.
Qed.

Lemma after_ticks_winTo (n : nat) (g : game_state) :
  g_winTo (after_ticks n g) = g_winTo g.
Proof.
  revert g. induction n as [| n IH]; intro g; [reflexivity |].
  cbn [after_ticks]. rewrite IH. apply physics_winTo.
Qed.

Lemma turns_cons (t : nat) (e : event) (evs : list event) :
  turns t (e :: evs) = if is_tick t e then S (turns t evs) else turns t evs.
Proof. unfold turns. cbn [filter]. destruct (is_tick t e); reflexivity. Qed.

(** A run without [paddle_move]: a loop that does not reach the threshold
    has moved its state by as many turns as it took. *)
Lemma run_turns (evs : list event) (w : world) (t : nat) (tk : game_task) :
  nth_error (tasks w) t = Some tk -> t_running tk = true ->
  forallb (fun e => negb (is_paddle_move e)) evs = true ->
  (forall k, 1 <= k <= turns t evs ->
             Physics.won (after_ticks k (t_state tk)) = false) ->
  nth_error (tasks (fst (run evs w))) t =
    Some (set_state (after_ticks (turns t evs) (t_state tk)) tk).
Proof.
  revert w tk. induction evs as [| e evs IH]; intros w tk Hn Hr Hp Hw.
  - cbn. rewrite Hn. destruct tk; reflexivity.
  - cbn [forallb] in Hp. apply andb_prop in Hp. destruct Hp as [He Hp].
    apply negb_true_iff in He.
    cbn [run]. rewrite turns_cons in *.
    destruct (is_tick t e) eqn:Et.
    + destruct e as [| | | t' |]; try discriminate.
      cbn [is_tick] in Et. apply Nat.eqb_eq in Et. subst t'.
      pose proof (tick_state w t tk Hn Hr) as Hs. cbv zeta in Hs.
      assert (H1 : Physics.won (after_ticks 1 (t_state tk)) = false)
        by (apply Hw; lia).
      cbn [after_ticks] in H1. rewrite H1 in Hs.
      destruct (step (Tick t) w) as [w1 o]. cbn [fst] in Hs.
      specialize (IH w1 _ Hs Hr Hp).
      destruct (run evs w1) as [w2 tr]. cbn [fst] in IH |- *.
      rewrite IH; [reflexivity |].
      intros k Hk. apply (Hw (S k)). lia.
    + pose proof (task_step t tk e w Et He Hn) as Hs.
      destruct (step e w) as [w1 o]. cbn [fst] in Hs.
      specialize (IH w1 tk Hs Hr Hp Hw).
      destruct (run evs w1) as [w2 tr]. exact IH.
Qed.

(** C2.  A game whose loop runs on a state as [join_game] creates it (ball
    at (400,250) moving at (5,0), both paddles at 200, no score), in a run
    of the hub in which no [paddle_move] arrives: the paddles stay at 200
    and the ball is returned by both, 5% faster each time, no turn scoring
    or seeing [x < 0], until the speed overflows binary64 at the right
    paddle; the turn after, the 17308th, is the one that sees
    [x = -inf < 0]: it gives the right side its first point, the left side
    still having none, and serves the ball again from (400,250) at
    (+5,0). *)
Theorem unattended_ball_scores_right (w : world) (t : nat) (tk : game_task)
    (evs : list event) :
  nth_error (tasks w) t = Some tk -> t_running tk = true ->
  g_ball (t_state tk) =
    {| b_x := 400; b_y := 250; b_vx := 5; b_vy := 0; b_r := 9 |} ->
  g_paddles (t_state tk) = {| left_y := 200; right_y := 200 |} ->
  g_scores (t_state tk) = {| s_left := 0; s_right := 0 |} ->
  g_winTo (t_state tk) = 7%Z ->
  forallb (fun e => negb (is_paddle_move e)) evs = true ->
  let n := turns t evs in
  n <= 17308 ->
  exists tk',
    nth_error (tasks (fst (run evs w))) t = Some tk' /\
    t_running tk' = true /\
    g_paddles (t_state tk') = {| left_y := 200; right_y := 200 |} /\
    (b_x (pre_score (t_state tk')) <? 0)%float = (n =? 17307)%nat /\
    g_scores (t_state tk') =
      {| s_left := 0; s_right := if (n =? 17308)%nat then 1 else 0 |} /\
    (n = 17308 ->
     g_ball (t_state tk') =
       {| b_x := 400; b_y := 250; b_vx := 5; b_vy := 0; b_r := 9 |}).
Proof.
  intros Hn Hr Hb Hpd Hsc Hwt Hp n Hle.
  assert (En : turns t evs = n) by reflexivity. clearbody n.
  assert (E8 : 17308 = S 17307) by reflexivity.
  destruct (unattended_ticks (t_state tk) Hb Hpd Hsc)
    as [Hq [Hx [Hx' [Hs Hball]]]].
  assert (Hscores : forall k, k <= 17308 ->
            g_scores (after_ticks k (t_state tk)) =
              {| s_left := 0; s_right := if (k =? 17308)%nat then 1 else 0 |}).
  { intros k Hk. destruct (Nat.eq_dec k 17308) as [-> | Hne].
    - rewrite Nat.eqb_refl. exact Hs.
    - apply Nat.eqb_neq in Hne. rewrite Hne. apply Nat.eqb_neq in Hne.
      destruct k as [| k]; [exact Hsc |]. apply Hq. lia. }
  assert (Hwon : forall k, 1 <= k <= turns t evs ->
            Physics.won (after_ticks k (t_state tk)) = false).
  { intros k Hk. unfold Physics.won.
    rewrite after_ticks_winTo, Hwt, Hscores by lia.
    cbn [s_left s_right]. destruct (k =? 17308)%nat; reflexivity. }
  exists (set_state (after_ticks n (t_state tk)) tk).
  split; [rewrite <- En; apply run_turns; assumption |].
  cbn [t_state t_running set_state].
  split; [exact Hr |].
  split; [rewrite after_ticks_paddles; exact Hpd |].
  split.
  { destruct (Nat.eq_dec n 17307) as [E | Hne].
    - rewrite E, Nat.eqb_refl. exact Hx.
    - apply Nat.eqb_neq in Hne. rewrite Hne. apply Nat.eqb_neq in Hne.
      destruct (Nat.eq_dec n 17308) as [E | Hne'].
      + rewrite E. exact Hx'.
      + apply Hq. lia. }
  split; [apply Hscores; exact Hle |].
  intro E. rewrite E. exact Hball.
Qed.

(** The ball when a turn reaches the scoring tests, written out. *)
Lemma before_scoring_cases (p : paddles) (b0 : ball) :
  let ball_at x y vx vy :=
    {| b_x := x; b_y := y; b_vx := vx; b_vy := vy; b_r := b_r b0 |} in
  let b1 :=
    ball_at (b_x b0 + b_vx b0)%float (b_y b0 + b_vy b0)%float (b_vx b0)
      (b_vy b0) in
  let b2 :=
    if (b_y b1 - b_r b0 <=? 0)%float
    then ball_at (b_x b1) (b_r b0) (b_vx b1) (b_vy b1 * -1)%float
    else b1 in
  let b :=
    if (500 <=? b_y b2 + b_r b0)%float
    then ball_at (b_x b2) (500 - b_r b0)%float (b_vx b2) (b_vy b2 * -1)%float
    else b2 in
  let speed_of (c : ball) :=
    let s := ((abs (b_vx c) + abs (b_vy c)) * 1.05)%float in
    if (s =? 0)%float then 5%float else s in
  let rel_of (py : float) (c : ball) := ((b_y c - (py + 50)) / 50)%float in
  let l :=
    if ((b_x b - b_r b0 <=? 42) &&
        ((left_y p <? b_y b) && (b_y b <? left_y p + 100)))%float
    then ball_at (42 + b_r b0)%float (b_y b) (speed_of b)
           (speed_of b * (0.5 * rel_of (left_y p) b))%float
    else b in
  let r :=
    if ((758 <=? b_x l + b_r b0) &&
        ((right_y p <? b_y l) && (b_y l <? right_y p + 100)))%float
    then ball_at (758 - b_r b0)%float (b_y l) (- speed_of l)%float
           (speed_of l * (0.5 * rel_of (right_y p) l))%float
    else l in
  Physics.before_scoring p b0 = r.
Proof.
  intros ball_at b1 b2 b speed_of rel_of l r.
  unfold Physics.before_scoring.
  change (Physics.integrate b0) with b1.
  assert (H2 : Physics.bounce_top b1 = b2) by reflexivity.
  rewrite H2.
  assert (Hr2 : b_r b2 = b_r b0)
    by (unfold b2; destruct (_ <=? 0)%float; reflexivity).
  assert (H3 : Physics.bounce_bottom b2 = b).
  { unfold Physics.bounce_bottom, b. rewrite Hr2.
    destruct (500 <=? _)%float; [| reflexivity].
    unfold Physics.set_vel, Physics.set_pos, ball_at.
    cbn [b_x b_y b_vx b_vy b_r]. rewrite Hr2. reflexivity. }
  rewrite H3.
  assert (Hrb : b_r b = b_r b0).
  { unfold b. destruct (500 <=? _)%float; [reflexivity | exact Hr2]. }
  assert (H4 : Physics.bounce_left (left_y p) b = l).
  { rewrite bounce_left_cases. unfold l. rewrite Hrb. reflexivity. }
  rewrite H4.
  assert (Hrl : b_r l = b_r b0).
  { unfold l. destruct (_ && _); [reflexivity | exact Hrb]. }
  rewrite bounce_right_cases. unfold r. rewrite Hrl. reflexivity.
Qed.

(** C4.  On every turn of a game loop, with the ball as the integration
    and the wall tests leave it: the left test fires exactly when
    [x - r <= 42] and [ly < y < ly + 100]; it then puts the ball at
    [x = 42 + r], and with [rel = (y - (ly + 50)) / 50] and
    [speed = (|vx| + |vy|) * 1.05], or [5] when that is zero, sets
    [vx = speed] and [vy = speed * (0.5 * rel)]; otherwise it leaves the
    ball alone.  The right test, on the ball the left one leaves, fires
    exactly when [758 <= x + r] and [ry < y < ry + 100], puts the ball at
    [x = 758 - r] and sets [vx = - speed], [vy = speed * (0.5 * rel)].  The
    ball the task holds after the turn is that ball, or the ball served
    again from (400,250) when that ball is beyond either end; the paddles
    are as before. *)
Theorem paddle_collision (w : world) (t : nat) (tk : game_task) :
  nth_error (tasks w) t = Some tk -> t_running tk = true ->
  let b0 := g_ball (t_state tk) in
  let ly := left_y (g_paddles (t_state tk)) in
  let ry := right_y (g_paddles (t_state tk)) in
  let ball_at x y vx vy :=
    {| b_x := x; b_y := y; b_vx := vx; b_vy := vy; b_r := b_r b0 |} in
  let b1 :=
    ball_at (b_x b0 + b_vx b0)%float (b_y b0 + b_vy b0)%float (b_vx b0)
      (b_vy b0) in
  let b2 :=
    if (b_y b1 - b_r b0 <=? 0)%float
    then ball_at (b_x b1) (b_r b0) (b_vx b1) (b_vy b1 * -1)%float
    else b1 in
  let b :=
    if (500 <=? b_y b2 + b_r b0)%float
    then ball_at (b_x b2) (500 - b_r b0)%float (b_vx b2) (b_vy b2 * -1)%float
    else b2 in
  let speed_of (c : ball) :=
    let s := ((abs (b_vx c) + abs (b_vy c)) * 1.05)%float in
    if (s =? 0)%float then 5%float else s in
  let rel_of (py : float) (c : ball) := ((b_y c - (py + 50)) / 50)%float in
  let l :=
    if ((b_x b - b_r b0 <=? 42) && ((ly <? b_y b) && (b_y b <? ly + 100)))%float
    then ball_at (42 + b_r b0)%float (b_y b) (speed_of b)
           (speed_of b * (0.5 * rel_of ly b))%float
    else b in
  let r :=
    if ((758 <=? b_x l + b_r b0) && ((ry <? b_y l) && (b_y l <? ry + 100)))%float
    then ball_at (758 - b_r b0)%float (b_y l) (- speed_of l)%float
           (speed_of l * (0.5 * rel_of ry l))%float
    else l in
  exists tk',
    nth_error (tasks (fst (step (Tick t) w))) t = Some tk' /\
    g_paddles (t_state tk') = g_paddles (t_state tk) /\
    g_ball (t_state tk') =
      if (b_x r <? 0)%float then ball_at 400%float 250%float 5%float 0%float
      else if (800 <? b_x r)%float
           then ball_at 400%float 250%float (-5)%float 0%float
           else r.
Proof.
  intros Hn Hr b0 ly ry ball_at b1 b2 b speed_of rel_of l r.
  pose proof (tick_state w t tk Hn Hr) as Hs. cbv zeta in Hs.
  pose proof (before_scoring_cases (g_paddles (t_state tk)) b0) as Hbs.
  cbv zeta in Hbs. fold ball_at b1 b2 b speed_of rel_of ly ry in Hbs.
  fold l in Hbs. fold r in Hbs.
  assert (Hrr : b_r r = b_r b0).
  { unfold r, l, b, b2.
    repeat match goal with
           | |- context [if ?c then _ else _] => destruct c
           end; reflexivity. }
  set (g := Physics.physics (t_state tk)) in *.
  exists (if Physics.won g then finish (set_state g tk) else set_state g tk).
  split; [exact Hs |].
  assert (Hst : t_state (if Physics.won g then finish (set_state g tk)
                         else set_state g tk) = g)
    by (destruct (Physics.won g); reflexivity).
  rewrite Hst. split; [apply physics_paddles |].
  unfold g, Physics.physics. fold b0. rewrite Hbs.
  unfold Physics.score_right, Physics.score_left.
  destruct (b_x r <? 0)%float eqn:E1.
  - change (800 <? b_x (Physics.serve 5 r))%float with false.
    cbn [g_ball]. unfold Physics.serve, Physics.set_vel, Physics.set_pos, ball_at.
    cbn [b_x b_y b_vx b_vy b_r]. rewrite Hrr. reflexivity.
  - destruct (800 <? b_x r)%float eqn:E2; cbn [g_ball]; [| reflexivity].
    unfold Physics.serve, Physics.set_vel, Physics.set_pos, ball_at.
    cbn [b_x b_y b_vx b_vy b_r]. rewrite Hrr. reflexivity.
Qed.

(** * Further properties *)

(** ** What a broadcast does *)

Lemma broadcast_result (m : server_msg) (ex : option string) (w : world) :
  broadcast m ex w =
  (Done tt, evict (failing w ex) w,
   [{| body := m;
       rcpts := filter (alive w)
                  (Dict.values
                     (filter (fun kv => negb (excluded ex (fst kv)))
                        (connections w))) |}]).
Proof.
  unfold broadcast, fan_out, failing. rewrite reached_all. do 3 f_equal.
  induction (filter _ (connections w)) as [| [k ws] c IH]; [reflexivity |].
  cbn in IH |- *. destruct (alive w ws); cbn; rewrite IH; reflexivity.
Qed.

(** ** Connections without a player *)

Lemma linked_ext (w w' : world) :
  players w' = players w -> connections w' = connections w ->
  linked w -> linked w'.
Proof. intros Hp Hc H k. rewrite Hp, Hc. apply H. Qed.

Lemma linked_evict (l : list string) (w : world) : linked w -> linked (evict l w).
Proof.
  intros H k. cbn. rewrite !mem_pop_all.
  destruct (existsb _ l); cbn; [discriminate | apply H].
Qed.

Lemma linked_set_both (id : string) (r ws : nat) (w w' : world) :
  players w' = Dict.set id r (players w) ->
  connections w' = Dict.set id ws (connections w) ->
  linked w -> linked w'.
Proof.
  intros Hp Hc H k. rewrite Hp, Hc, !mem_set.
  destruct (String.eqb k id); cbn; [reflexivity | apply H].
Qed.

Lemma linked_pop_both (id : string) (w w' : world) :
  players w' = Dict.pop id (players w) ->
  connections w' = Dict.pop id (connections w) ->
  linked w -> linked w'.
Proof.
  intros Hp Hc H k. rewrite Hp, Hc, !mem_pop.
  destruct (String.eqb k id); cbn; [discriminate | apply H].
Qed.

Lemma linked_set_player (id : string) (r : nat) (w : world) :
  linked w -> linked (with_players (Dict.set id r (players w)) w).
Proof.
  intros H k Hk. cbn in *. rewrite mem_set. rewrite (H k Hk).
  apply orb_true_r.
Qed.

Ltac keep_linked :=
  keep;
  try (intros; first [ apply linked_evict; assumption
                     | apply linked_set_player; assumption
                     | eapply linked_ext; [| | eassumption]; reflexivity ]).

Lemma linked_cleanup (id : string) (s : session) : preserves linked (cleanup id s).
Proof.
  intros w H. unfold cleanup. mstep.
  refine (preserves_bind linked _ _ _ _ _ _);
    [unfold set_session; keep_linked | intro; unfold set_session; keep_linked |].
  revert H. apply (linked_pop_both id); reflexivity.
Qed.

Lemma linked_register (id : string) (ws : nat) (name : string) :
  preserves linked (register id ws name).
Proof.
  intros w H. unfold register, set_session. mstep.
  refine (preserves_bind linked _ _ _ _ _ _); [keep_linked | intro; keep_linked |].
  revert H. apply (linked_set_both id (List.length (heap w)) ws); reflexivity.
Qed.

Lemma linked_handshake (id : string) (s : session) (f : frame) (u : string) :
  preserves linked (handshake id s f u).
Proof. unfold handshake. destruct f; keep_linked; apply linked_register. Qed.

Lemma linked_main_loop (id : string) (s : session) (f : frame) :
  preserves linked (main_loop id s f).
Proof.
  unfold main_loop, on_move, on_chat, on_global_chat, on_start_game,
    on_join_game, on_paddle_move, mutate, set_session, float_field,
    content_field.
  destruct f; keep_linked;
    intros w H; destruct (nth_error (tasks w) _); [| exact H];
    revert H; apply linked_ext; reflexivity.
Qed.

Lemma linked_game_tick (t : nat) : preserves linked (game_tick t).
Proof. unfold game_tick. keep_linked. Qed.

Lemma linked_step (e : event) (w : world) : linked w -> linked (fst (step e w)).
Proof.
  intro H. destruct e as [id ws | id f u | id | t | ws]; cbn [step].
  - destruct (_ || _); [exact H |]. revert H. apply linked_ext; reflexivity.
  - destruct (Dict.get id (sessions w)) as [s |]; [| exact H].
    destruct (ss_phase s); [| | exact H];
      (apply preserves_guarded; [| apply linked_cleanup | exact H]).
    + apply linked_handshake.
    + apply linked_main_loop.
  - destruct (Dict.get id (sessions w)) as [s |]; [| exact H].
    destruct (ss_phase s); try exact H;
      (apply preserves_guarded; [keep | apply linked_cleanup | exact H]).
  - pose proof (linked_game_tick t w H) as Ht.
    destruct (game_tick t w) as [[r w'] o]. exact Ht.
  - revert H. apply linked_ext; reflexivity.
Qed.

Lemma linked_run (evs : list event) (w : world) :
  linked w -> linked (fst (run evs w)).
Proof.
  revert w. induction evs as [| e evs IH]; intros w H; [exact H |].
  cbn [run]. pose proof (linked_step e w H) as H1.
  destruct (step e w) as [w1 o]. specialize (IH w1 H1).
  destruct (run evs w1) as [w2 tr]. exact IH.
Qed.


(** ** Player records and their keys *)

Lemma in_set {V : Type} (k k' : string) (v v' : V) (d : Dict.t V) :
  In (k, v) (Dict.set k' v' d) -> (k, v) = (k', v') \/ In (k, v) d.
Proof.
  induction d as [| [k0 v0] d IH]; cbn.
  - intros [H | []]. left. symmetry. exact H.
  - destruct (String.eqb k' k0); cbn.
    + intros [H | H]; [left; symmetry; exact H | right; right; exact H].
    + intros [H | H]; [right; left; exact H |].
      destruct (IH H) as [H1 | H1]; [left; exact H1 | right; right; exact H1].
Qed.

Lemma in_pop {V : Type} (k k' : string) (v : V) (d : Dict.t V) :
  In (k, v) (Dict.pop k' d) -> In (k, v) d.
Proof. unfold Dict.pop. intro H. apply filter_In in H. apply H. Qed.

Lemma in_pop_all {V : Type} (k : string) (v : V) (ks : list string)
    (d : Dict.t V) :
  In (k, v) (Dict.pop_all ks d) -> In (k, v) d.
Proof.
  unfold Dict.pop_all. revert d.
  induction ks as [| k0 ks IH]; intro d; cbn; [auto |].
  intro H. apply (in_pop k k0), IH, H.
Qed.

Lemma Filed_ext (ex : option string) (w w' : world) :
  heap w' = heap w -> players w' = players w -> sessions w' = sessions w ->
  Filed ex w -> Filed ex w'.
Proof.
  intros Hh Hp Hs [F1 F2 F3 F5 F4].
  constructor; unfold deref; rewrite ?Hh, ?Hp, ?Hs; assumption.
Qed.

Lemma Filed_evict (ex : option string) (l : list string) (w : world) :
  Filed ex w -> Filed ex (evict l w).
Proof.
  intros [F1 F2 F3 F5 F4]. constructor; cbn.
  - intros k r H. apply F1. eapply in_pop_all, H.
  - exact F2.
  - intros id s Hs Hp He. rewrite mem_pop_all, (F3 id s Hs Hp He).
    apply andb_false_r.
  - intros id s Hs Hp. rewrite mem_pop_all, (F5 id s Hs Hp).
    apply andb_false_r.
  - intros k. rewrite mem_pop_all. intro H. apply andb_prop in H. apply F4, H.
Qed.

Lemma Filed_pop (id : string) (w : world) :
  Filed (Some id) w -> Filed (Some id) (with_players (Dict.pop id (players w)) w).
Proof.
  intros [F1 F2 F3 F5 F4]. constructor; cbn.
  - intros k r H. apply F1. eapply in_pop, H.
  - exact F2.
  - intros id' s Hs Hp He. rewrite mem_pop, (F3 id' s Hs Hp He).
    apply andb_false_r.
  - intros id' s Hs Hp. rewrite mem_pop, (F5 id' s Hs Hp).
    apply andb_false_r.
  - intros k. rewrite mem_pop. intro H. apply andb_prop in H. apply F4, H.
Qed.

Lemma deref_spawn (w : world) (p : player) (r : nat) :
  r < List.length (heap w) -> deref (with_heap (heap w ++ [p]) w) r = deref w r.
Proof. intro H. unfold deref. cbn. apply app_nth1, H. Qed.

Lemma Filed_spawn (ex : option string) (p : player) (w : world) :
  Filed ex w -> Filed ex (with_heap (heap w ++ [p]) w).
Proof.
  intros [F1 F2 F3 F5 F4]. constructor; try assumption.
  - intros k r H. destruct (F1 k r H) as [Hlt Hid]. rewrite deref_spawn by exact Hlt.
    cbn. rewrite length_app. split; [lia | exact Hid].
  - intros id s Hs Hp. destruct (F2 id s Hs Hp) as [Hlt Hid].
    rewrite deref_spawn by exact Hlt.
    cbn. rewrite length_app. split; [lia | exact Hid].
Qed.

Lemma deref_mutate_id (w : world) (r k : nat) (f : player -> player) :
  (forall p, p_id (f p) = p_id p) ->
  p_id (deref (with_heap (list_set r (f (deref w r)) (heap w)) w) k) =
  p_id (deref w k).
Proof.
  intro Hf. unfold deref. cbn. rewrite nth_list_set.
  destruct ((k =? r)%nat && _) eqn:E; [| reflexivity].
  apply andb_prop in E. destruct E as [E _]. apply Nat.eqb_eq in E. subst k.
  apply Hf.
Qed.

Lemma Filed_mutate (ex : option string) (r : nat) (f : player -> player)
    (w : world) :
  (forall p, p_id (f p) = p_id p) ->
  Filed ex w -> Filed ex (with_heap (list_set r (f (deref w r)) (heap w)) w).
Proof.
  intros Hf [F1 F2 F3 F5 F4]. constructor; try assumption.
  - intros k r0 H. rewrite deref_mutate_id by exact Hf.
    cbn. rewrite list_set_length. apply F1, H.
  - intros id s Hs Hp. rewrite deref_mutate_id by exact Hf.
    cbn. rewrite list_set_length. apply F2; assumption.
Qed.

Lemma mem_get_some {V : Type} (k : string) (v : V) (d : Dict.t V) :
  Dict.get k d = Some v -> Dict.mem k d = true.
Proof. unfold Dict.mem. intros ->. reflexivity. Qed.

(** An endpoint in its main loop stores its own record under its own id. *)
Lemma Filed_enrol (id : string) (r : nat) (w : world) :
  Filed None w -> owner w id r ->
  Filed None (with_players (Dict.set id r (players w)) w).
Proof.
  intros [F1 F2 F3 F5 F4] [s [Hs [Hp Hr]]]. subst r. constructor; cbn.
  - intros k r H. destruct (in_set _ _ _ _ _ H) as [E | Hin]; [| apply F1, Hin].
    inversion E. subst. apply (F2 id s Hs Hp).
  - exact F2.
  - intros id' s' Hs' Hp' _. rewrite mem_set.
    destruct (String.eqb id' id) eqn:E.
    + apply String.eqb_eq in E. subst id'. congruence.
    + apply (F3 id' s' Hs' Hp'). reflexivity.
  - intros id' s' Hs' Hp'. rewrite mem_set.
    destruct (String.eqb id' id) eqn:E.
    + apply String.eqb_eq in E. subst id'. congruence.
    + apply (F5 id' s' Hs' Hp').
  - intros k. rewrite mem_set. destruct (String.eqb k id) eqn:E.
    + apply String.eqb_eq in E. subst k. intros _. eapply mem_get_some, Hs.
    + apply F4.
Qed.

(** A turn of the main loop rewrites its frame without changing where it
    stands or which record it holds. *)
Lemma Filed_session_same (ex : option string) (id : string) (s s' : session)
    (w : world) :
  Filed ex w -> Dict.get id (sessions w) = Some s ->
  ss_phase s' = ss_phase s -> ss_player s' = ss_player s ->
  Filed ex (with_sessions (Dict.set id s' (sessions w)) w).
Proof.
  intros [F1 F2 F3 F5 F4] Hs Hp Hr. constructor; cbn; try assumption.
  - intros id' s0. rewrite get_set. destruct (String.eqb id' id) eqn:E.
    + apply String.eqb_eq in E. subst id'. intros H Hj. inversion H. subst s0.
      rewrite Hr. apply (F2 id s Hs). congruence.
    + apply F2.
  - intros id' s0. rewrite get_set. destruct (String.eqb id' id) eqn:E.
    + apply String.eqb_eq in E. subst id'. intros H Ha. inversion H. subst s0.
      apply (F3 id s Hs). congruence.
    + apply F3.
  - intros id' s0. rewrite get_set. destruct (String.eqb id' id) eqn:E.
    + apply String.eqb_eq in E. subst id'. intros H Ha. inversion H. subst s0.
      apply (F5 id s Hs). congruence.
    + apply F5.
  - intros k Hk. rewrite mem_set, (F4 k Hk). apply orb_true_r.
Qed.

(** Leaving: the frame is closed once the id is out of [players]. *)
Lemma Filed_close (id : string) (s' : session) (w : world) :
  Filed (Some id) w -> ss_phase s' = Closed ->
  Dict.mem id (players w) = false ->
  Filed None (with_sessions (Dict.set id s' (sessions w)) w).
Proof.
  intros [F1 F2 F3 F5 F4] Hp Hout. constructor; cbn; try assumption.
  - intros id' s0. rewrite get_set. destruct (String.eqb id' id).
    + intros H Hj. inversion H. subst s0. congruence.
    + apply F2.
  - intros id' s0. rewrite get_set. destruct (String.eqb id' id) eqn:E.
    + intros H Ha. inversion H. subst s0. congruence.
    + intros H Ha _. apply (F3 id' s0 H Ha). cbn. exact E.
  - intros id' s0. rewrite get_set. destruct (String.eqb id' id) eqn:E.
    + apply String.eqb_eq in E. subst id'. intros _ _. exact Hout.
    + apply F5.
  - intros k Hk. rewrite mem_set, (F4 k Hk). apply orb_true_r.
Qed.

Lemma Filed_weaken (ex : option string) (w : world) : Filed None w -> Filed ex w.
Proof.
  intros [F1 F2 F3 F5 F4]. constructor; try assumption.
  intros id s Hs Hp _. apply (F3 id s Hs Hp). reflexivity.
Qed.

Lemma Filed_cleanup (id : string) (s : session) (w : world) :
  Filed (Some id) w -> Filed None (snd (fst (cleanup id s w))).
Proof.
  intro H. unfold cleanup. mstep.
  rewrite (bind_done _ _ _ _ _ _ (broadcast_all _ _)).
  unfold set_session. mstep. unfold modify. cbn [fst snd].
  apply Filed_close; [| reflexivity |].
  2: { cbn -[Dict.pop_all Dict.pop Dict.mem].
       rewrite mem_pop_all, mem_pop, String.eqb_refl. apply andb_false_r. }
  apply Filed_evict.
  apply (Filed_pop id
           (with_connections (Dict.pop id (connections w)) w)).
  revert H. apply Filed_ext; reflexivity.
Qed.

Lemma Filed_await (id : string) (s' : session) (w : world) :
  Filed (Some id) w -> ss_phase s' = AwaitingJoin ->
  Filed (Some id) (with_sessions (Dict.set id s' (sessions w)) w).
Proof.
  intros [F1 F2 F3 F5 F4] Hp. constructor; cbn; try assumption.
  - intros id' s0. rewrite get_set. destruct (String.eqb id' id).
    + intros H Hj. inversion H. subst s0. congruence.
    + apply F2.
  - intros id' s0. rewrite get_set. destruct (String.eqb id' id) eqn:E.
    + intros _ _ He. cbn in He. congruence.
    + intros Hs0 Ha _. apply (F3 id' s0 Hs0 Ha). exact E.
  - intros id' s0. rewrite get_set. destruct (String.eqb id' id).
    + intros H Hc. inversion H. subst s0. congruence.
    + apply F5.
  - intros k Hk. rewrite mem_set, (F4 k Hk). apply orb_true_r.
Qed.

Lemma Filed_enlist (id : string) (r : nat) (s : session) (w : world) :
  Filed (Some id) w -> r < List.length (heap w) -> p_id (deref w r) = id ->
  Dict.get id (sessions w) = Some s -> ss_phase s = AwaitingJoin ->
  Filed (Some id) (with_players (Dict.set id r (players w)) w).
Proof.
  intros [F1 F2 F3 F5 F4] Hlt Hid Hs Hp. constructor; cbn; try assumption.
  - intros k r0 H. destruct (in_set _ _ _ _ _ H) as [E | Hin]; [| apply F1, Hin].
    inversion E. subst. split; [assumption | reflexivity].
  - intros id' s' Hs' Hp' He. rewrite mem_set. cbn in He. rewrite He.
    apply (F3 id' s' Hs' Hp'). exact He.
  - intros id' s' Hs' Hp'. rewrite mem_set.
    destruct (String.eqb id' id) eqn:E.
    + apply String.eqb_eq in E. subst id'. congruence.
    + apply (F5 id' s' Hs' Hp').
  - intros k. rewrite mem_set. destruct (String.eqb k id) eqn:E.
    + apply String.eqb_eq in E. subst k. intros _. eapply mem_get_some, Hs.
    + apply F4.
Qed.

Lemma Filed_admit (id : string) (s' : session) (w : world) :
  Filed (Some id) w -> ss_phase s' = Joined ->
  ss_player s' < List.length (heap w) -> p_id (deref w (ss_player s')) = id ->
  Filed None (with_sessions (Dict.set id s' (sessions w)) w).
Proof.
  intros [F1 F2 F3 F5 F4] Hp Hlt Hid. constructor; cbn; try assumption.
  - intros id' s0. rewrite get_set. destruct (String.eqb id' id) eqn:E.
    + apply String.eqb_eq in E. subst id'. intros H _. inversion H. subst s0.
      split; assumption.
    + apply F2.
  - intros id' s0. rewrite get_set. destruct (String.eqb id' id) eqn:E.
    + intros H Ha. inversion H. subst s0. congruence.
    + intros H Ha _. apply (F3 id' s0 H Ha). cbn. exact E.
  - intros id' s0. rewrite get_set. destruct (String.eqb id' id).
    + intros H Hc. inversion H. subst s0. congruence.
    + apply F5.
  - intros k Hk. rewrite mem_set, (F4 k Hk). apply orb_true_r.
Qed.

Lemma deref_new (w : world) (p : player) :
  deref (with_heap (heap w ++ [p]) w) (List.length (heap w)) = p.
Proof. unfold deref. cbn. rewrite app_nth2, Nat.sub_diag by lia. reflexivity. Qed.

Lemma settles_register (id : string) (ws : nat) (name : string) (w : world) :
  Filed None w -> settles id (register id ws name w).
Proof.
  intro H. unfold register, set_session. mstep.
  set (me := {| p_id := id; p_name := name; p_x := 100; p_y := 100;
                p_zone := "town" |}).
  set (w1 := with_heap (heap w ++ [me]) w).
  set (s1 := {| ss_ws := ws; ss_phase := AwaitingJoin;
                ss_player := List.length (heap w);
                ss_participant_ids := [] |}).
  set (w2 := with_sessions (Dict.set id s1 (sessions w1)) w1).
  set (w3 := with_players (Dict.set id (List.length (heap w)) (players w2)) w2).
  set (w4 := with_connections (Dict.set id ws (connections w3)) w3).
  assert (Hlt : List.length (heap w) < List.length (heap w ++ [me])).
  { rewrite length_app. cbn. lia. }
  assert (H4 : Filed (Some id) w4).
  { apply (Filed_ext (Some id) w3); try reflexivity.
    apply (Filed_enlist id _ s1).
    - apply Filed_await; [| reflexivity].
      apply Filed_weaken, Filed_spawn, H.
    - exact Hlt.
    - change (deref w2 (List.length (heap w))) with
        (deref (with_heap (heap w ++ [me]) w) (List.length (heap w))).
      rewrite deref_new. reflexivity.
    - cbn. rewrite get_set, String.eqb_refl. reflexivity.
    - reflexivity. }
  unfold send_text at 1. unfold bind at 1.
  destruct (alive w4 ws); [| exact H4].
  rewrite (bind_done _ _ _ _ _ _ (broadcast_result _ _ _)).
  unfold modify. cbn [fst snd settles].
  apply Filed_admit; [apply Filed_evict, H4 | reflexivity | exact Hlt |].
  cbn [ss_player].
  change (p_id (deref (with_heap (heap w ++ [me]) w) (List.length (heap w))) = id).
  rewrite deref_new. reflexivity.
Qed.

Lemma settles_handshake (id : string) (s : session) (f : frame) (u : string)
    (w : world) :
  Filed None w -> settles id (handshake id s f u w).
Proof.
  intro H. unfold handshake.
  destruct f as [| | | nm | x y | c | c | g z | h | h sd y];
    try (rewrite bind_gets; apply settles_register, H).
  - apply Filed_weaken, H.
  - destruct (proposed_name id nm) as [proposed |];
      [| apply Filed_weaken, H].
    rewrite bind_gets. destruct (name_taken w proposed);
      [| apply settles_register, H].
    unfold send_text. destruct (alive w (ss_ws s)); [exact H |].
    apply Filed_weaken, H.
Qed.

Lemma settles_guarded (id : string) (s : session) (m : M unit) (w : world) :
  settles id (m w) -> Filed None (fst (guarded id s m w)).
Proof.
  unfold settles, guarded. destruct (m w) as [[[[] |] w1] o1]; intro H;
    [exact H |].
  pose proof (Filed_cleanup id s w1 H) as Hc.
  destruct (cleanup id s w1) as [[r2 w2] o2]. exact Hc.
Qed.

Lemma Owned_ext (id : string) (r : nat) (w w' : world) :
  heap w' = heap w -> players w' = players w -> sessions w' = sessions w ->
  Owned id r w -> Owned id r w'.
Proof.
  intros Hh Hp Hs [H [s Ho]]. split; [revert H; apply Filed_ext; assumption |].
  exists s. rewrite Hs. exact Ho.
Qed.

Lemma Owned_evict (id : string) (r : nat) (l : list string) (w : world) :
  Owned id r w -> Owned id r (evict l w).
Proof. intros [H Ho]. split; [apply Filed_evict, H | exact Ho]. Qed.

Lemma Owned_mutate (id : string) (r r' : nat) (f : player -> player) (w : world) :
  (forall p, p_id (f p) = p_id p) ->
  Owned id r w ->
  Owned id r (with_heap (list_set r' (f (deref w r')) (heap w)) w).
Proof. intros Hf [H Ho]. split; [apply Filed_mutate; assumption | exact Ho]. Qed.

Lemma Owned_enrol (id : string) (r : nat) (w : world) :
  Owned id r w -> Owned id r (with_players (Dict.set id r (players w)) w).
Proof. intros [H Ho]. split; [apply Filed_enrol; assumption | exact Ho]. Qed.

Lemma Owned_session (id : string) (r : nat) (s' : session) (w : world) :
  ss_phase s' = Joined -> ss_player s' = r ->
  Owned id r w -> Owned id r (with_sessions (Dict.set id s' (sessions w)) w).
Proof.
  intros Hp Hr [H [s [Hs [Hps Hrs]]]]. split.
  - apply (Filed_session_same None id s); congruence.
  - exists s'. cbn. rewrite get_set, String.eqb_refl. auto.
Qed.

Ltac keep_owned :=
  keep;
  try (intros; first
    [ apply Owned_evict; assumption
    | apply Owned_enrol; assumption
    | apply Owned_mutate; [intros []; reflexivity | assumption]
    | apply Owned_session; [assumption | reflexivity | assumption]
    | eapply Owned_ext; [| | | eassumption]; reflexivity ]).

Lemma Owned_main_loop (id : string) (s : session) (f : frame) :
  ss_phase s = Joined -> preserves (Owned id (ss_player s)) (main_loop id s f).
Proof.
  intro Hp.
  unfold main_loop, on_move, on_chat, on_global_chat, on_start_game,
    on_join_game, on_paddle_move, mutate, set_session, float_field,
    content_field.
  destruct f; keep_owned;
    intros w H; destruct (nth_error (tasks w) _); [| exact H];
    revert H; apply Owned_ext; reflexivity.
Qed.

Lemma settles_main_loop (id : string) (s : session) (f : frame) (w : world) :
  Filed None w -> joined w id s -> settles id (main_loop id s f w).
Proof.
  intros H [Hs Hp].
  assert (Ho : Owned id (ss_player s) w) by (split; [exact H | exists s; auto]).
  pose proof (Owned_main_loop id s f Hp w Ho) as [H1 _].
  unfold settles. destruct (main_loop id s f w) as [[[[] |] w1] o1];
    [exact H1 | apply Filed_weaken, H1].
Qed.

Lemma Filed_game_tick (t : nat) : preserves (Filed None) (game_tick t).
Proof.
  unfold game_tick. keep;
    try (intros; first [ apply Filed_evict; assumption
                       | eapply Filed_ext; [| | | eassumption]; reflexivity ]).
Qed.

Lemma Filed_empty : Filed None empty_world.
Proof. constructor; cbn; intros; try discriminate. contradiction. Qed.

Lemma mem_false_get {V : Type} (k : string) (d : Dict.t V) :
  Dict.mem k d = false -> Dict.get k d = None.
Proof. unfold Dict.mem. destruct (Dict.get k d); [discriminate | reflexivity]. Qed.

Lemma Filed_step (e : event) (w : world) :
  Filed None w -> Filed None (fst (step e w)).
Proof.
  intro H. destruct e as [id ws | id f u | id | t | ws]; cbn [step].
  - destruct (Dict.mem id (sessions w)) eqn:Hm; cbn [orb]; [exact H |].
    destruct (nonempty id); cbn [negb fst]; [| exact H].
    destruct H as [F1 F2 F3 F5 F4]. constructor; cbn; try assumption.
    + intros id' s0. rewrite get_set. destruct (String.eqb id' id).
      * intros E. inversion E. subst s0. discriminate.
      * apply F2.
    + intros id' s0. rewrite get_set. destruct (String.eqb id' id) eqn:E.
      * apply String.eqb_eq in E. subst id'. intros _ _ _.
        destruct (Dict.mem id (players w)) eqn:Hp; [| reflexivity].
        rewrite (F4 id Hp) in Hm. discriminate.
      * apply F3.
    + intros id' s0. rewrite get_set. destruct (String.eqb id' id).
      * intros E. inversion E. subst s0. discriminate.
      * apply F5.
    + intros k Hk. rewrite mem_set, (F4 k Hk). apply orb_true_r.
  - destruct (Dict.get id (sessions w)) as [s |] eqn:Hs; [| exact H].
    destruct (ss_phase s) eqn:Hp; [| | exact H]; apply settles_guarded.
    + apply settles_handshake, H.
    + apply settles_main_loop; [exact H | split; assumption].
  - destruct (Dict.get id (sessions w)) as [s |] eqn:Hs; [| exact H].
    destruct (ss_phase s); try exact H;
      apply settles_guarded; apply Filed_weaken, H.
  - pose proof (Filed_game_tick t w H) as Ht.
    destruct (game_tick t w) as [[r w'] o]. exact Ht.
  - revert H. apply Filed_ext; reflexivity.
Qed.

Lemma Filed_run (evs : list event) (w : world) :
  Filed None w -> Filed None (fst (run evs w)).
Proof.
  revert w. induction evs as [| e evs IH]; intros w H; [exact H |].
  cbn [run]. pose proof (Filed_step e w H) as H1.
  destruct (step e w) as [w1 o]. specialize (IH w1 H1).
  destruct (run evs w1) as [w2 tr]. exact IH.
Qed.

Lemma reachable_Filed (w : world) : reachable w -> Filed None w.
Proof. intros [evs ->]. apply Filed_run, Filed_empty. Qed.

(** ** The registries in every state *)

Lemma reachable_linked (w : world) : reachable w -> linked w.
Proof. intros [evs ->]. apply linked_run. intros k Hk. discriminate. Qed.

(** X1.  In every state the hub can reach, an id that has a connection has a
    player: a registration stores the player before the connection,
    evictions and cleanups drop both, and nothing else adds to
    [connections]. *)
Theorem connection_has_player (evs : list event) (k : string) (ws : nat) :
  Dict.get k (connections (after evs)) = Some ws ->
  exists r, Dict.get k (players (after evs)) = Some r.
Proof.
  intro Hc.
  assert (H : linked (after evs)) by (apply reachable_linked; exists evs; reflexivity).
  specialize (H k). unfold Dict.mem in H. rewrite Hc in H.
  destruct (Dict.get k (players (after evs))) as [r |]; [eauto |].
  discriminate (H eq_refl).
Qed.

(** X2.  In every state the hub can reach, every entry of [players] holds a
    record whose ["id"] is the entry's key: records are stored under their
    own id at registration and by [move], and no handler rewrites an
    ["id"]. *)
Theorem player_stored_under_own_id (evs : list event) (k : string) (r : nat) :
  Dict.get k (players (after evs)) = Some r ->
  exists p, nth_error (heap (after evs)) r = Some p /\ p_id p = k.
Proof.
  intro H.
  assert (HF : Filed None (after evs)) by (apply reachable_Filed; exists evs; reflexivity).
  destruct (@filed_ref None (after evs) HF k r (get_some_in _ _ _ H)) as [Hlt Hid].
  exists (deref (after evs) r). split; [| exact Hid].
  unfold deref. apply nth_error_nth'. exact Hlt.
Qed.

(** X3.  In every state the hub can reach, an endpoint that is still in its
    handshake, or has gone through its cleanup, has neither a player nor a
    connection: only an endpoint in its main loop can be registered. *)
Theorem registered_only_in_main_loop (evs : list event) (id : string)
    (s : session) :
  Dict.get id (sessions (after evs)) = Some s -> ss_phase s <> Joined ->
  Dict.get id (players (after evs)) = None /\
  Dict.get id (connections (after evs)) = None.
Proof.
  intros Hs Hp.
  assert (Hr : reachable (after evs)) by (exists evs; reflexivity).
  pose proof (reachable_Filed _ Hr) as HF. pose proof (reachable_linked _ Hr) as HL.
  assert (Hm : Dict.mem id (players (after evs)) = false).
  { destruct (ss_phase s) eqn:E.
    - apply (@filed_fresh None _ HF id s Hs E). reflexivity.
    - congruence.
    - apply (@filed_gone None _ HF id s Hs E). }
  split; [apply mem_false_get, Hm |].
  apply mem_false_get. specialize (HL id).
  destruct (Dict.mem id (connections (after evs))); [| reflexivity].
  rewrite HL in Hm by reflexivity. discriminate.
Qed.

(** ** Registration *)

Lemma set_fresh {V : Type} (k : string) (v : V) (d : Dict.t V) :
  Dict.mem k d = false -> Dict.set k v d = d ++ [(k, v)].
Proof.
  unfold Dict.mem. induction d as [| [k0 v0] d IH]; cbn; [reflexivity |].
  destruct (String.eqb k k0); [discriminate |].
  intro H. rewrite (IH H). reflexivity.
Qed.

(** The one a broadcast leaves out is not among those it takes out. *)
Lemma failing_excluded (w : world) (id : string) :
  existsb (String.eqb id) (failing w (Some id)) = false.
Proof.
  unfold failing. induction (connections w) as [| [k ws] c IH]; [reflexivity |].
  cbn [filter fst excluded]. destruct (String.eqb k id) eqn:E; cbn [negb].
  - exact IH.
  - cbn [filter snd]. destruct (alive w ws); cbn [negb]; [exact IH |].
    cbn [map existsb fst]. rewrite (String.eqb_sym id k), E. exact IH.
Qed.

Lemma others_after_set (id : string) (ws : nat) (c : Dict.t nat) :
  filter (fun kv => negb (excluded (Some id) (fst kv))) (Dict.set id ws c) =
  filter (fun kv => negb (excluded (Some id) (fst kv))) c.
Proof.
  induction c as [| [k v] c IH]; cbn [Dict.set].
  - cbn [filter fst excluded]. rewrite String.eqb_refl. reflexivity.
  - destruct (String.eqb id k) eqn:E; cbn [filter fst excluded].
    + apply String.eqb_eq in E. subst k. rewrite String.eqb_refl. reflexivity.
    + rewrite (String.eqb_sym k id), E. cbn [negb]. f_equal. exact IH.
Qed.

(** Lines 87-95 for an id that is not registered, on a socket that takes
    the welcome. *)
Lemma register_result (w : world) (id : string) (ws : nat) (name : string) :
  Filed None w -> Dict.mem id (players w) = false -> alive w ws = true ->
  let me := {| p_id := id; p_name := name; p_x := 100; p_y := 100;
               p_zone := "town" |} in
  exists w',
    register id ws name w =
      (Done tt, w',
       [{| body := Welcome me (map (deref w) (Dict.values (players w)) ++ [me]);
           rcpts := [ws] |};
        {| body := PlayerJoined me; rcpts := other_sockets w id |}]) /\
    heap w' = heap w ++ [me] /\
    Dict.get id (players w') = Some (List.length (heap w)) /\
    Dict.get id (connections w') = Some ws /\
    Dict.get id (sessions w') =
      Some {| ss_ws := ws; ss_phase := Joined;
              ss_player := List.length (heap w); ss_participant_ids := [] |} /\
    pending_games w' = pending_games w /\
    active_games w' = active_games w /\ tasks w' = tasks w.
Proof.
  intros HF Hfresh Hal me. unfold register, set_session. mstep. fold me.
  set (w1 := with_heap (heap w ++ [me]) w).
  set (s1 := {| ss_ws := ws; ss_phase := AwaitingJoin;
                ss_player := List.length (heap w);
                ss_participant_ids := [] |}).
  set (w2 := with_sessions (Dict.set id s1 (sessions w1)) w1).
  set (w3 := with_players (Dict.set id (List.length (heap w)) (players w2)) w2).
  set (w4 := with_connections (Dict.set id ws (connections w3)) w3).
  unfold send_text at 1. unfold bind at 1.
  change (alive w4 ws) with (alive w ws). rewrite Hal. cbv beta iota.
  rewrite (bind_done _ _ _ _ _ _ (broadcast_result _ _ _)).
  unfold modify. cbn [fst snd app].
  assert (Hsnap : map (deref w4) (Dict.values (players w4)) =
                  map (deref w) (Dict.values (players w)) ++ [me]).
  { change (players w4) with (Dict.set id (List.length (heap w)) (players w)).
    rewrite (set_fresh _ _ _ Hfresh). unfold Dict.values.
    rewrite !map_app, !map_map. cbn [map snd]. f_equal.
    - apply map_ext_in. intros [k r] Hin. cbn [snd].
      unfold deref. change (heap w4) with (heap w ++ [me]). apply app_nth1.
      apply (@filed_ref None w HF k r Hin).
    - unfold deref. change (heap w4) with (heap w ++ [me]).
      rewrite app_nth2, Nat.sub_diag by lia. reflexivity. }
  assert (Hto : filter (alive w4)
                  (Dict.values
                     (filter (fun kv => negb (excluded (Some id) (fst kv)))
                        (connections w4))) = other_sockets w id).
  { change (connections w4) with (Dict.set id ws (connections w)).
    rewrite others_after_set. reflexivity. }
  rewrite Hsnap, Hto.
  eexists. split; [reflexivity |]. repeat split.
  - cbn [players evict with_sessions with_players with_connections].
    rewrite get_pop_all, failing_excluded.
    change (players w4) with (Dict.set id (List.length (heap w)) (players w)).
    rewrite get_set, String.eqb_refl. reflexivity.
  - cbn [connections evict with_sessions with_players with_connections].
    rewrite get_pop_all, failing_excluded.
    change (connections w4) with (Dict.set id ws (connections w)).
    rewrite get_set, String.eqb_refl. reflexivity.
  - cbn [sessions with_sessions]. rewrite get_set, String.eqb_refl. reflexivity.
Qed.

(** A turn of the handshake that comes down to a registration. *)
Lemma handshake_registers (w : world) (id : string) (s : session) (f : frame)
    (name u : string) :
  reachable w -> awaiting w id s -> alive w (ss_ws s) = true ->
  handshake id s f u w = register id (ss_ws s) name w ->
  let me := {| p_id := id; p_name := name; p_x := 100; p_y := 100;
               p_zone := "town" |} in
  let r := step (Recv id f u) w in
  snd r =
    [{| body := Welcome me (map (deref w) (Dict.values (players w)) ++ [me]);
        rcpts := [ss_ws s] |};
     {| body := PlayerJoined me; rcpts := other_sockets w id |}] /\
  joined (fst r) id
    {| ss_ws := ss_ws s; ss_phase := Joined;
       ss_player := List.length (heap w); ss_participant_ids := [] |} /\
  Dict.get id (players (fst r)) = Some (List.length (heap w)) /\
  deref (fst r) (List.length (heap w)) = me /\
  Dict.get id (connections (fst r)) = Some (ss_ws s) /\
  pending_games (fst r) = pending_games w /\
  active_games (fst r) = active_games w /\ tasks (fst r) = tasks w.
Proof.
  intros Hr [Hs Hp] Hal Hh me r.
  pose proof (reachable_Filed w Hr) as HF.
  assert (Hfresh : Dict.mem id (players w) = false)
    by (apply (@filed_fresh None w HF id s Hs Hp); reflexivity).
  destruct (register_result w id (ss_ws s) name HF Hfresh Hal)
    as [w' [Hreg [Hheap [Hpl [Hco [Hse [Hpe [Hac Hta]]]]]]]].
  assert (Hstep : r = (w', snd (register id (ss_ws s) name w))).
  { unfold r. cbn [step]. rewrite Hs, Hp. unfold guarded. rewrite Hh, Hreg.
    reflexivity. }
  rewrite Hstep, Hreg. cbn [fst snd]. fold me.
  repeat split; try assumption.
  unfold deref. rewrite Hheap, app_nth2, Nat.sub_diag by lia. reflexivity.
Qed.

(** X4.  An endpoint in its handshake that receives a [join] whose proposed
    name nobody holds, on a socket that takes the answer: it spawns the
    player at (100, 100) in zone ["town"] under that name, puts it into
    [players] and its socket into [connections], sends [welcome] with the
    new record and the records of all players, the new one last, to its own
    socket, announces [player_joined] to every other connection, and enters
    its main loop; invitations and games are left alone. *)
Theorem join_registers (w : world) (id : string) (s : session)
    (name : field string) (n u : string) :
  reachable w -> awaiting w id s ->
  proposed_name id name = Some n -> name_taken w n = false ->
  alive w (ss_ws s) = true ->
  let me := {| p_id := id; p_name := n; p_x := 100; p_y := 100;
               p_zone := "town" |} in
  let r := step (Recv id (Join name) u) w in
  snd r =
    [{| body := Welcome me (map (deref w) (Dict.values (players w)) ++ [me]);
        rcpts := [ss_ws s] |};
     {| body := PlayerJoined me; rcpts := other_sockets w id |}] /\
  joined (fst r) id
    {| ss_ws := ss_ws s; ss_phase := Joined;
       ss_player := List.length (heap w); ss_participant_ids := [] |} /\
  Dict.get id (players (fst r)) = Some (List.length (heap w)) /\
  deref (fst r) (List.length (heap w)) = me /\
  Dict.get id (connections (fst r)) = Some (ss_ws s) /\
  pending_games (fst r) = pending_games w /\
  active_games (fst r) = active_games w /\ tasks (fst r) = tasks w.
Proof.
  intros Hr Ha Hn Ht Hal.
  apply (handshake_registers w id s (Join name) n u Hr Ha Hal).
  unfold handshake. rewrite Hn, bind_gets, Ht. reflexivity.
Qed.

(** X5.  An endpoint in its handshake whose first decodable frame is not a
    [join] is registered all the same, under ["Player-"] followed by the
    first four characters of its id, or, when that name is taken, under
    that name extended by ["-"] and four characters of a fresh uuid, which
    is not checked again; the rest is as for an accepted [join]. *)
Theorem first_frame_auto_name (w : world) (id : string) (s : session)
    (f : frame) (u : string) :
  reachable w -> awaiting w id s -> not_a_join f = true ->
  alive w (ss_ws s) = true ->
  let auto := auto_name id in
  let name :=
    if name_taken w auto then (auto ++ "-" ++ Py.prefix 4 u)%string else auto in
  let me := {| p_id := id; p_name := name; p_x := 100; p_y := 100;
               p_zone := "town" |} in
  let r := step (Recv id f u) w in
  snd r =
    [{| body := Welcome me (map (deref w) (Dict.values (players w)) ++ [me]);
        rcpts := [ss_ws s] |};
     {| body := PlayerJoined me; rcpts := other_sockets w id |}] /\
  joined (fst r) id
    {| ss_ws := ss_ws s; ss_phase := Joined;
       ss_player := List.length (heap w); ss_participant_ids := [] |} /\
  Dict.get id (players (fst r)) = Some (List.length (heap w)) /\
  deref (fst r) (List.length (heap w)) = me /\
  Dict.get id (connections (fst r)) = Some (ss_ws s).
Proof.
  intros Hr Ha Hf Hal auto name me r.
  destruct (handshake_registers w id s f name u Hr Ha Hal)
    as [H1 [H2 [H3 [H4 [H5 _]]]]].
  - unfold handshake. destruct f; try discriminate; rewrite bind_gets;
      reflexivity.
  - split; [exact H1 |]. split; [exact H2 |]. split; [exact H3 |].
    split; [exact H4 | exact H5].
Qed.


(** ** Leaving *)

Lemma live_after_pop (w w0 : world) (id : string) :
  connections w0 = Dict.pop id (connections w) -> dead w0 = dead w ->
  live_sockets w0 = other_sockets w id.
Proof.
  intros Hc Hd. unfold live_sockets, other_sockets. rewrite Hc.
  unfold Dict.pop.
  assert (Hal : forall ws, alive w0 ws = alive w ws)
    by (intro ws; unfold alive; rewrite Hd; reflexivity).
  rewrite (filter_ext _ _ Hal). do 2 f_equal.
  apply filter_ext. intros [k v]. cbn [fst]. rewrite String.eqb_sym. reflexivity.
Qed.

(** Both [except] clauses, for an endpoint whose frame is [s] by now. *)
Lemma cleanup_result (w : world) (id : string) (s0 s : session) :
  Dict.get id (sessions w) = Some s ->
  exists w',
    cleanup id s0 w =
      (Done tt, w', [{| body := PlayerLeft id; rcpts := other_sockets w id |}]) /\
    Dict.get id (players w') = None /\
    Dict.get id (connections w') = None /\
    Dict.get id (sessions w') = Some (close s) /\
    (forall k, k <> id -> Dict.get k (sessions w') = Dict.get k (sessions w)) /\
    heap w' = heap w /\ pending_games w' = pending_games w /\
    active_games w' = active_games w /\ tasks w' = tasks w /\
    dead w' = dead w.
Proof.
  intro Hs. unfold cleanup. mstep.
  rewrite (bind_done _ _ _ _ _ _ (broadcast_all _ _)).
  unfold set_session. mstep. unfold modify. cbn [fst snd app].
  rewrite (live_after_pop w _ id) by reflexivity.
  cbn [sessions evict with_players with_connections]. rewrite Hs.
  eexists. split; [reflexivity |]. repeat split.
  - cbn [players evict with_sessions with_players with_connections].
    rewrite get_pop_all, get_pop, String.eqb_refl.
    destruct (existsb _ _); reflexivity.
  - cbn [connections evict with_sessions with_players with_connections].
    rewrite get_pop_all, get_pop, String.eqb_refl.
    destruct (existsb _ _); reflexivity.
  - cbn [sessions with_sessions]. rewrite get_set, String.eqb_refl. reflexivity.
  - intros k Hk. cbn [sessions with_sessions evict with_players with_connections].
    rewrite get_set. apply String.eqb_neq in Hk. rewrite Hk. reflexivity.
Qed.

(** X6.  When the peer of an endpoint that has not ended goes away, the
    endpoint takes its id out of [connections] and [players], tells every
    connection that is left [player_left] with its id, and ends.  Records,
    invitations and games stay as they are: an invitation of the one who
    left can still be accepted, and a game it took part in goes on. *)
Theorem disconnect_cleans_up (w : world) (id : string) (s : session) :
  Dict.get id (sessions w) = Some s -> ss_phase s <> Closed ->
  let r := step (Disconnect id) w in
  snd r = [{| body := PlayerLeft id; rcpts := other_sockets w id |}] /\
  Dict.get id (players (fst r)) = None /\
  Dict.get id (connections (fst r)) = None /\
  Dict.get id (sessions (fst r)) = Some (close s) /\
  heap (fst r) = heap w /\ pending_games (fst r) = pending_games w /\
  active_games (fst r) = active_games w /\ tasks (fst r) = tasks w.
Proof.
  intros Hs Hp r.
  destruct (cleanup_result w id s s Hs)
    as [w' [Hc [H1 [H2 [H3 [_ [H4 [H5 [H6 [H7 _]]]]]]]]]].
  assert (Hr : r = (w', [{| body := PlayerLeft id; rcpts := other_sockets w id |}])).
  { unfold r. cbn [step]. rewrite Hs.
    destruct (ss_phase s); try contradiction; unfold guarded, raise;
      rewrite Hc; reflexivity. }
  rewrite Hr. cbn [fst snd]. repeat split; assumption.
Qed.

(** X7.  A frame on which the endpoint raises before it has done anything
    is handled exactly as the departure of the peer: the two [except]
    clauses do the same. *)
Theorem unreadable_frame_is_disconnect (w : world) (id : string) (s : session)
    (f : frame) (u : string) :
  Dict.get id (sessions w) = Some s -> unreadable (ss_phase s) f = true ->
  step (Recv id f u) w = step (Disconnect id) w.
Proof.
  intros Hs Hu. cbn [step]. rewrite Hs.
  destruct (ss_phase s); [| | discriminate]; unfold guarded.
  - replace (handshake id s f u w) with (@raise unit w); [reflexivity |].
    unfold handshake.
    destruct f as [| | | [| nm |] | x y | c | c | g z | h | h sd y];
      try discriminate; reflexivity.
  - replace (main_loop id s f w) with (@raise unit w); [reflexivity |].
    unfold main_loop, on_move, on_chat, on_global_chat, on_join_game,
      on_paddle_move.
    destruct f as [| | | nm | [| x |] [| y |] | [| c |] | [| c |] | g z
                   | [| h |] | [| h |] sd [| y |]];
      try discriminate; try reflexivity.
Qed.


(** ** A welcome that cannot be sent *)

Lemma other_sockets_ext (w w' : world) (id : string) (ws : nat) :
  connections w' = Dict.set id ws (connections w) -> dead w' = dead w ->
  other_sockets w' id = other_sockets w id.
Proof.
  intros Hc Hd. unfold other_sockets. rewrite Hc.
  pose proof (others_after_set id ws (connections w)) as H. cbn in H.
  rewrite H.
  apply filter_ext. intro x. unfold alive. rewrite Hd. reflexivity.
Qed.

(** Lines 87-95 on a socket that refuses the welcome, and the cleanup that
    follows. *)
Lemma refused_registration (w : world) (id : string) (s : session)
    (name : string) :
  alive w (ss_ws s) = false ->
  let r := guarded id s (register id (ss_ws s) name) w in
  snd r = [{| body := PlayerLeft id; rcpts := other_sockets w id |}] /\
  Dict.get id (players (fst r)) = None /\
  Dict.get id (connections (fst r)) = None /\
  option_map ss_phase (Dict.get id (sessions (fst r))) = Some Closed /\
  pending_games (fst r) = pending_games w /\
  active_games (fst r) = active_games w /\ tasks (fst r) = tasks w.
Proof.
  intros Hal r.
  set (me := {| p_id := id; p_name := name; p_x := 100; p_y := 100;
                p_zone := "town" |}).
  set (w1 := with_heap (heap w ++ [me]) w).
  set (s1 := {| ss_ws := ss_ws s; ss_phase := AwaitingJoin;
                ss_player := List.length (heap w);
                ss_participant_ids := [] |}).
  set (w2 := with_sessions (Dict.set id s1 (sessions w1)) w1).
  set (w3 := with_players (Dict.set id (List.length (heap w)) (players w2)) w2).
  set (w4 := with_connections (Dict.set id (ss_ws s) (connections w3)) w3).
  assert (Hreg : register id (ss_ws s) name w = (Raised, w4, [])).
  { unfold register, set_session. mstep. fold me w1 s1 w2 w3 w4.
    unfold send_text at 1. unfold bind at 1.
    change (alive w4 (ss_ws s)) with (alive w (ss_ws s)). rewrite Hal.
    reflexivity. }
  assert (Hs4 : Dict.get id (sessions w4) = Some s1).
  { cbn. rewrite get_set, String.eqb_refl. reflexivity. }
  destruct (cleanup_result w4 id s s1 Hs4)
    as [w' [Hc [H1 [H2 [H3 [_ [_ [H5 [H6 [H7 _]]]]]]]]]].
  assert (Hr : r = (w', [{| body := PlayerLeft id; rcpts := other_sockets w id |}])).
  { unfold r, guarded. rewrite Hreg, Hc. cbn [app]. do 3 f_equal.
    apply (other_sockets_ext w w4 id (ss_ws s)); reflexivity. }
  rewrite Hr. cbn [fst snd]. rewrite H3. repeat split; assumption.
Qed.

(** X20.  An endpoint in its handshake whose socket refuses the [welcome]:
    the registration it had made is taken back by the cleanup, so its id
    is in neither registry afterwards; no [player_joined] was sent, yet
    every other connection is told [player_left] with the id; the endpoint
    ends. *)
Theorem refused_welcome_undoes_registration (w : world) (id : string)
    (s : session) (name : field string) (n u : string) :
  awaiting w id s ->
  proposed_name id name = Some n -> name_taken w n = false ->
  alive w (ss_ws s) = false ->
  let r := step (Recv id (Join name) u) w in
  snd r = [{| body := PlayerLeft id; rcpts := other_sockets w id |}] /\
  Dict.get id (players (fst r)) = None /\
  Dict.get id (connections (fst r)) = None /\
  option_map ss_phase (Dict.get id (sessions (fst r))) = Some Closed /\
  pending_games (fst r) = pending_games w /\
  active_games (fst r) = active_games w /\ tasks (fst r) = tasks w.
Proof.
  intros [Hs Hp] Hn Ht Hal r.
  assert (Hr : r = guarded id s (register id (ss_ws s) n) w).
  { unfold r. cbn [step]. rewrite Hs, Hp. unfold guarded, handshake.
    rewrite Hn, bind_gets, Ht. reflexivity. }
  rewrite Hr. apply refused_registration, Hal.
Qed.


(** ** Messages to everyone *)

Lemma failing_all (w : world) :
  failing w None = map fst (filter (fun kv => negb (alive w (snd kv))) (connections w)).
Proof.
  unfold failing. do 2 f_equal.
  induction (connections w) as [| kv c IH]; [reflexivity |].
  cbn [filter excluded negb]. f_equal. exact IH.
Qed.

Lemma broadcast_everyone (m : server_msg) (w : world) :
  broadcast m None w =
  (Done tt, evict (failing w None) w,
   [{| body := m; rcpts := live_sockets w |}]).
Proof. rewrite failing_all. apply broadcast_all. Qed.


Lemma content_field_cut (oc : option string) :
  content_field (opt_field oc) = ret (cut oc).
Proof. destruct oc; reflexivity. Qed.

Lemma cut_len (oc : option string) : Py.len (cut oc) <= 1000.
Proof. destruct oc; [apply prefix_len | cbn; lia]. Qed.

(** X8.  In its main loop, an endpoint that receives a [global_chat] sends
    the content, cut to 1000 characters (empty when missing), under its
    player's name to every connection whose socket takes it, its own
    included; the connections whose socket refuses are evicted, and nothing
    else changes. *)
Theorem global_chat_reaches_everyone (w : world) (id : string) (s : session)
    (oc : option string) (u : string) :
  joined w id s ->
  step (Recv id (GlobalChat (opt_field oc)) u) w =
    (evict (failing w None) w,
     [{| body := GlobalChatMsg (p_name (deref w (ss_player s))) (cut oc);
         rcpts := live_sockets w |}]) /\
  Py.len (cut oc) <= 1000.
Proof.
  intros [Hs Hp]. split; [| apply cut_len].
  cbn [step]. rewrite Hs, Hp. unfold guarded, main_loop, on_global_chat.
  rewrite content_field_cut. mstep. rewrite broadcast_everyone. reflexivity.
Qed.

(** ** Starting a game *)

(** X9.  [start_game] for ["breakout"]: the endpoint answers [game_started]
    with itself as the only participant on its own socket; nobody else
    hears of it, no invitation is stored, nothing changes. *)
Theorem start_breakout_is_private (w : world) (id : string) (s : session)
    (z : option string) (u : string) :
  joined w id s -> alive w (ss_ws s) = true ->
  let me := deref w (ss_player s) in
  step (Recv id (StartGame (Some "breakout") z) u) w =
    (w, [{| body := GameStarted me "breakout" (or_default "arcade" z)
                      [{| part_player := me; part_side := None |}];
            rcpts := [ss_ws s] |}]).
Proof.
  intros [Hs Hp] Hal me.
  cbn [step]. rewrite Hs, Hp. unfold guarded, main_loop, on_start_game.
  mstep. cbn [or_default]. rewrite String.eqb_refl.
  unfold send_text. rewrite Hal. reflexivity.
Qed.

Lemma others_test (n : nat) : (0 <? Z.of_nat n - 1)%Z = (1 <? n)%nat.
Proof.
  destruct (Nat.ltb_spec 1 n); [apply Z.ltb_lt | apply Z.ltb_ge]; lia.
Qed.


(** X11.  [start_game] for a game other than ["breakout"] while [players]
    holds at most one entry: no invitation is stored; [game_started] with
    the endpoint's player as host and only participant goes to every
    connection, the endpoint's own included. *)
Theorem start_game_alone (w : world) (id : string) (s : session)
    (g z : option string) (u : string) :
  joined w id s ->
  or_default "minigame" g <> "breakout" -> List.length (players w) <= 1 ->
  let me := deref w (ss_player s) in
  step (Recv id (StartGame g z) u) w =
    (evict (failing w None) w,
     [{| body := GameStarted me (or_default "minigame" g)
                   (or_default "arcade" z)
                   [{| part_player := me; part_side := None |}];
         rcpts := live_sockets w |}]).
Proof.
  intros [Hs Hp] Hg Hn me.
  cbn [step]. rewrite Hs, Hp.
  unfold guarded, main_loop, on_start_game. mstep. fold me.
  apply String.eqb_neq in Hg. rewrite Hg. mstep.
  rewrite others_test. apply Nat.ltb_ge in Hn. rewrite Hn.
  rewrite broadcast_everyone. reflexivity.
Qed.

(** ** Frames without effect *)

(** X12.  In its main loop an endpoint ignores a frame of a type it does
    not know, and a [join] that comes after the handshake: nothing is sent
    and nothing changes. *)
Theorem stray_frames_ignored (w : world) (id : string) (s : session)
    (f : frame) (u : string) :
  joined w id s -> (f = Unknown \/ exists name, f = Join name) ->
  step (Recv id f u) w = (w, []).
Proof.
  intros [Hs Hp] Hf. cbn [step]. rewrite Hs, Hp.
  destruct Hf as [-> | [name ->]]; reflexivity.
Qed.


(** ** The two fan-out helpers *)

Lemma existsb_eqb_in (k : string) (l : list string) :
  existsb (String.eqb k) l = true <-> In k l.
Proof.
  rewrite existsb_exists. split.
  - intros [x [Hin Hx]]. apply String.eqb_eq in Hx. subst x. exact Hin.
  - intro H. exists k. split; [exact H | apply String.eqb_refl].
Qed.

Lemma existsb_eqb_out (k : string) (l : list string) :
  existsb (String.eqb k) l = false <-> ~ In k l.
Proof.
  rewrite <- existsb_eqb_in. destruct (existsb _ l); split; intro H;
    try reflexivity; try discriminate.
  - contradiction H. reflexivity.
Qed.





(** The ids [send_to_players] takes out: those of the list that have no
    connection or whose socket raised. *)
Lemma unserved_iff (w : world) (ids : list string) (k : string) :
  In k (map fst (filter (failed w)
                   (map (fun pid => (pid, Dict.get pid (connections w))) ids)))
  <-> In k ids /\ failed w (k, Dict.get k (connections w)) = true.
Proof.
  rewrite in_map_iff. split.
  - intros [[k0 o] [E H]]. cbn in E. subst k0.
    apply filter_In in H. destruct H as [H Hf].
    apply in_map_iff in H. destruct H as [pid [E Hin]].
    inversion E. subst. split; assumption.
  - intros [Hin Hf]. exists (k, Dict.get k (connections w)).
    split; [reflexivity |]. apply filter_In. split; [| exact Hf].
    apply in_map_iff. exists k. split; [reflexivity | exact Hin].
Qed.

(** X15.  [send_to_players] sends the message once, to the sockets of the
    listed ids that have a connection whose socket takes it, in the order
    of the list.  A listed id that has no connection, or whose socket
    raised, is gone afterwards from [connections] and from [players]; a
    listed id that was served, and every id that is not listed, keeps its
    entries; nothing else changes. *)
Theorem send_to_players_evicts_unserved (ids : list string) (m : server_msg)
    (w : world) :
  let w' := snd (fst (send_to_players ids m w)) in
  send_to_players ids m w =
    (Done tt, w', [{| body := m; rcpts := sockets_of w ids |}]) /\
  (forall k,
     In k ids -> failed w (k, Dict.get k (connections w)) = true ->
     Dict.get k (connections w') = None /\ Dict.get k (players w') = None) /\
  (forall k,
     (~ In k ids \/ failed w (k, Dict.get k (connections w)) = false) ->
     Dict.get k (connections w') = Dict.get k (connections w) /\
     Dict.get k (players w') = Dict.get k (players w)) /\
  heap w' = heap w /\ sessions w' = sessions w /\
  pending_games w' = pending_games w /\ active_games w' = active_games w /\
  tasks w' = tasks w /\ dead w' = dead w.
Proof.
  intro w'. unfold w'. rewrite send_to_players_unfold. cbn [fst snd].
  split; [reflexivity |]. split; [| split; [| repeat split]].
  - intros k Hin Hf. cbn. rewrite !get_pop_all.
    replace (existsb _ _) with true; [split; reflexivity |].
    symmetry. apply existsb_eqb_in, unserved_iff. split; assumption.
  - intros k Hk. cbn. rewrite !get_pop_all.
    replace (existsb _ _) with false; [split; reflexivity |].
    symmetry. apply existsb_eqb_out. rewrite unserved_iff.
    intros [Hin Hf]. destruct Hk as [Hk | Hk]; [contradiction | congruence].
Qed.

(** ** Points *)

(** What the two scoring tests make of the scores and the ball: the second
    cannot fire after the first, which has served the ball from the
    centre. *)
Lemma physics_scores (g : game_state) :
  let b := pre_score g in
  let sc := g_scores g in
  (g_scores (Physics.physics g), g_ball (Physics.physics g)) =
  if (b_x b <? 0)%float then
    ({| s_left := s_left sc; s_right := s_right sc + 1 |}, Physics.serve 5 b)
  else if (800 <? b_x b)%float then
    ({| s_left := s_left sc + 1; s_right := s_right sc |}, Physics.serve (-5) b)
  else (sc, b).
Proof.
  intros b sc. unfold Physics.physics, Physics.score_left, Physics.score_right.
  fold (pre_score g). fold b. fold sc.
  destruct (b_x b <? 0)%float.
  - cbn [b_x Physics.serve Physics.set_vel Physics.set_pos].
    change (800 <? 400)%float with false. reflexivity.
  - destruct (800 <? b_x b)%float; reflexivity.
Qed.



(** What an event does to the scores of a game. *)
Lemma scores_step (e : event) (w : world) (t : nat) (tk : game_task) :
  nth_error (tasks w) t = Some tk ->
  exists tk',
    nth_error (tasks (fst (step e w))) t = Some tk' /\
    g_winTo (t_state tk') = g_winTo (t_state tk) /\
    (is_tick t e && t_running tk = false ->
     g_scores (t_state tk') = g_scores (t_state tk) /\
     t_running tk' = t_running tk) /\
    (is_tick t e && t_running tk = true ->
     t_state tk' = Physics.physics (t_state tk) /\
     t_running tk' = negb (Physics.won (Physics.physics (t_state tk)))).
Proof.
  intro Hn. destruct (is_tick t e) eqn:He.
  - destruct e as [| | | t' |]; try discriminate.
    cbn [is_tick] in He. apply Nat.eqb_eq in He. subst t'.
    destruct (t_running tk) eqn:Hr.
    + destruct (tick_turn w t tk Hn Hr) as [w' [Hstep Hn']].
      rewrite Hstep. cbn [fst]. eexists. split; [exact Hn' |].
      split; [| split; [discriminate |]].
      * destruct (Physics.won _); cbn; apply physics_winTo.
      * intros _. destruct (Physics.won _); cbn; auto.
    + rewrite (tick_idle w t).
      * exists tk. cbn [fst]. repeat split; try assumption; discriminate.
      * right. exists (g_scores (t_state tk)), (g_winTo (t_state tk)), tk.
        auto.
  - assert (H : loop_at w t (t_running tk) (g_scores (t_state tk))
                  (g_winTo (t_state tk))) by (exists tk; auto).
    apply (loop_at_step t _ _ _ e w He) in H.
    destruct H as [tk' [Hn' [Hr' [Hs' Hw']]]].
    exists tk'. split; [exact Hn' |]. split; [exact Hw' |].
    split; [intros _; split; assumption | discriminate].
Qed.

(** X17.  Whatever happens, a game that exists keeps existing, with its
    threshold; its scores are changed by nothing but a turn of its own loop
    while that loop runs, and then by at most one point for one side; and a
    loop that has been left is not entered again. *)
Theorem scores_only_grow (e : event) (w : world) (t : nat) (tk : game_task) :
  nth_error (tasks w) t = Some tk ->
  exists tk',
    nth_error (tasks (fst (step e w))) t = Some tk' /\
    g_winTo (t_state tk') = g_winTo (t_state tk) /\
    (s_left (g_scores (t_state tk)) <= s_left (g_scores (t_state tk')))%Z /\
    (s_right (g_scores (t_state tk)) <= s_right (g_scores (t_state tk')))%Z /\
    (s_left (g_scores (t_state tk')) + s_right (g_scores (t_state tk'))
     <= s_left (g_scores (t_state tk)) + s_right (g_scores (t_state tk)) + 1)%Z /\
    (is_tick t e && t_running tk = false ->
     g_scores (t_state tk') = g_scores (t_state tk)) /\
    (t_running tk = false -> t_running tk' = false).
Proof.
  intro Hn. destruct (scores_step e w t tk Hn) as [tk' [Hn' [Hw [Hsame Hturn]]]].
  exists tk'. split; [exact Hn' |]. split; [exact Hw |].
  destruct (is_tick t e && t_running tk) eqn:E.
  - destruct (Hturn eq_refl) as [Hst Hr]. rewrite Hst.
    pose proof (physics_scores (t_state tk)) as H. cbv zeta in H.
    assert (Hs : g_scores (Physics.physics (t_state tk)) =
                 fst (g_scores (Physics.physics (t_state tk)),
                      g_ball (Physics.physics (t_state tk)))) by reflexivity.
    rewrite Hs, H. apply andb_prop in E. destruct E as [_ Hrun].
    repeat split;
      try (destruct (b_x (pre_score (t_state tk)) <? 0)%float;
           [| destruct (800 <? b_x (pre_score (t_state tk)))%float];
           cbn [fst s_left s_right]; lia);
      intros; congruence.
  - destruct (Hsame eq_refl) as [Hs Hr]. rewrite Hs.
    repeat split; try lia. intro H. congruence.
Qed.


(** ** Player records *)

Section Records.
Variables (k : nat) (p : player).

Lemma akin_ext (w w' : world) : heap w' = heap w -> akin k p w -> akin k p w'.
Proof. intros Hh [p' H]. exists p'. rewrite Hh. exact H. Qed.

Lemma akin_spawn (q : player) (w : world) :
  akin k p w -> akin k p (with_heap (heap w ++ [q]) w).
Proof.
  intros [p' [Hn H]]. exists p'. split; [| exact H]. cbn.
  rewrite nth_error_app1; [exact Hn |]. apply nth_error_Some. congruence.
Qed.

Lemma akin_mutate (r : nat) (f : player -> player) (w : world) :
  (forall q, p_id (f q) = p_id q /\ p_name (f q) = p_name q /\
             p_zone (f q) = p_zone q) ->
  akin k p w -> akin k p (with_heap (list_set r (f (deref w r)) (heap w)) w).
Proof.
  intros Hf [p' [Hn [H1 [H2 H3]]]]. unfold akin. cbn.
  rewrite nth_error_list_set.
  destruct ((k =? r)%nat && _) eqn:E; [| exists p'; auto].
  apply andb_prop in E. destruct E as [E _]. apply Nat.eqb_eq in E. subst r.
  assert (Hd : deref w k = p').
  { unfold deref. apply nth_error_nth. exact Hn. }
  rewrite Hd. exists (f p'). destruct (Hf p') as [F1 [F2 F3]].
  repeat split; congruence.
Qed.

Lemma holds_ext (w w' : world) : heap w' = heap w -> holds k p w -> holds k p w'.
Proof. unfold holds. intros ->. auto. Qed.

Lemma holds_spawn (q : player) (w : world) :
  holds k p w -> holds k p (with_heap (heap w ++ [q]) w).
Proof.
  unfold holds. intro Hn. cbn.
  rewrite nth_error_app1; [exact Hn |]. apply nth_error_Some. congruence.
Qed.

Ltac keep_akin :=
  keep;
  try (intros; first
    [ apply akin_spawn; assumption
    | apply akin_mutate; [intros []; repeat split | assumption]
    | eapply akin_ext; [| eassumption]; reflexivity ]).

Ltac keep_holds :=
  keep;
  try (intros; first
    [ apply holds_spawn; assumption
    | eapply holds_ext; [| eassumption]; reflexivity ]).

Lemma akin_handshake (id : string) (s : session) (f : frame) (u : string) :
  preserves (akin k p) (handshake id s f u).
Proof. unfold handshake, register, set_session. destruct f; keep_akin. Qed.

Lemma akin_cleanup (id : string) (s : session) : preserves (akin k p) (cleanup id s).
Proof. unfold cleanup, set_session. keep_akin. Qed.

Lemma akin_main_loop (id : string) (s : session) (f : frame) :
  preserves (akin k p) (main_loop id s f).
Proof.
  unfold main_loop, on_move, on_chat, on_global_chat, on_start_game,
    on_join_game, on_paddle_move, mutate, set_session, float_field,
    content_field.
  destruct f; keep_akin;
    intros w H; destruct (nth_error (tasks w) _); [| exact H];
    revert H; apply akin_ext; reflexivity.
Qed.

Lemma akin_game_tick (t : nat) : preserves (akin k p) (game_tick t).
Proof. unfold game_tick. keep_akin. Qed.

Lemma akin_step (e : event) (w : world) : akin k p w -> akin k p (fst (step e w)).
Proof.
  intro H. destruct e as [id ws | id f u | id | t | ws]; cbn [step].
  - destruct (_ || _); [exact H |]. revert H. apply akin_ext. reflexivity.
  - destruct (Dict.get id (sessions w)) as [s |]; [| exact H].
    destruct (ss_phase s); [| | exact H];
      (apply preserves_guarded; [| apply akin_cleanup | exact H]).
    + apply akin_handshake.
    + apply akin_main_loop.
  - destruct (Dict.get id (sessions w)) as [s |]; [| exact H].
    destruct (ss_phase s); try exact H;
      (apply preserves_guarded; [keep | apply akin_cleanup | exact H]).
  - pose proof (akin_game_tick t w H) as Ht.
    destruct (game_tick t w) as [[r w'] o]. exact Ht.
  - revert H. apply akin_ext. reflexivity.
Qed.

Lemma holds_handshake (id : string) (s : session) (f : frame) (u : string) :
  preserves (holds k p) (handshake id s f u).
Proof. unfold handshake, register, set_session. destruct f; keep_holds. Qed.

Lemma holds_cleanup (id : string) (s : session) : preserves (holds k p) (cleanup id s).
Proof. unfold cleanup, set_session. keep_holds. Qed.

Lemma holds_main_loop (id : string) (s : session) (f : frame) :
  (forall x y, f <> Move x y) -> preserves (holds k p) (main_loop id s f).
Proof.
  intro Hf.
  unfold main_loop, on_chat, on_global_chat, on_start_game,
    on_join_game, on_paddle_move, set_session, float_field, content_field.
  destruct f as [| | | nm | x y | c | c | g z | h | h sd y];
    [| | | | contradiction (Hf x y eq_refl) | | | | |]; keep_holds;
    intros w H; destruct (nth_error (tasks w) _); [| exact H];
    revert H; apply holds_ext; reflexivity.
Qed.

Lemma holds_game_tick (t : nat) : preserves (holds k p) (game_tick t).
Proof. unfold game_tick. keep_holds. Qed.

Lemma holds_step (e : event) (w : world) :
  is_move e = false -> holds k p w -> holds k p (fst (step e w)).
Proof.
  intros He H. destruct e as [id ws | id f u | id | t | ws]; cbn [step].
  - destruct (_ || _); [exact H |]. revert H. apply holds_ext. reflexivity.
  - destruct (Dict.get id (sessions w)) as [s |]; [| exact H].
    destruct (ss_phase s); [| | exact H];
      (apply preserves_guarded; [| apply holds_cleanup | exact H]).
    + apply holds_handshake.
    + apply holds_main_loop. intros x y ->. discriminate.
  - destruct (Dict.get id (sessions w)) as [s |]; [| exact H].
    destruct (ss_phase s); try exact H;
      (apply preserves_guarded; [keep | apply holds_cleanup | exact H]).
  - pose proof (holds_game_tick t w H) as Ht.
    destruct (game_tick t w) as [[r w'] o]. exact Ht.
  - revert H. apply holds_ext. reflexivity.
Qed.
End Records.

(** X18.  No event removes a player record or changes its id, its name or
    its zone, and only a [move] frame changes a record at all: a position
    is written by nothing else, and a record outlives the departure of its
    player. *)
Theorem records_keep_identity (e : event) (w : world) (k : nat) (p : player) :
  nth_error (heap w) k = Some p ->
  exists p',
    nth_error (heap (fst (step e w))) k = Some p' /\
    p_id p' = p_id p /\ p_name p' = p_name p /\ p_zone p' = p_zone p /\
    (is_move e = false -> p' = p).
Proof.
  intro Hn.
  assert (Ha : akin k p w) by (exists p; auto).
  destruct (akin_step k p e w Ha) as [p' [Hn' [H1 [H2 H3]]]].
  exists p'. repeat split; try assumption.
  intro He. pose proof (holds_step k p e w He Hn) as Hh.
  unfold holds in Hh. congruence.
Qed.


(** ** Chat where no square overflows *)

Lemma nearby_defined (w : world) (id : string) (me : player) (items : Dict.t nat) :
  (forall pid r, In (pid, r) items -> pid <> id ->
                 sq_dist (deref w r) me <> None) ->
  nearby_players w id me items =
    Some (map fst
            (filter
               (fun kv =>
                  negb (String.eqb (fst kv) id) &&
                  match sq_dist (deref w (snd kv)) me with
                  | Some d => (d <=? 40000)%float
                  | None => false
                  end)
               items)).
Proof.
  induction items as [| [pid r] items IH]; intro H; [reflexivity |].
  cbn [nearby_players filter fst snd]. rewrite IH.
  2:{ intros pid' r' Hin. apply H. right. exact Hin. }
  destruct (String.eqb pid id) eqn:E; cbn [negb andb]; [reflexivity |].
  apply String.eqb_neq in E.
  destruct (sq_dist (deref w r) me) as [d |] eqn:Hd.
  - destruct (d <=? 40000)%float; reflexivity.
  - contradiction (H pid r (or_introl eq_refl) E).
Qed.

(** X19.  In its main loop, on a socket that takes the echo, an endpoint
    that receives a [chat] while every squared distance from its player to
    another one can be computed: it sends the content, cut to 1000
    characters, under its player's name to the registered players other
    than itself whose squared distance is at most 200 squared, in one
    [send_to_players], and then the same message to its own socket. *)
Theorem chat_without_overflow (w : world) (id : string) (s : session)
    (oc : option string) (u : string) :
  joined w id s -> alive w (ss_ws s) = true ->
  (forall pid r, In (pid, r) (players w) -> pid <> id ->
                 sq_dist (deref w r) (deref w (ss_player s)) <> None) ->
  let me := deref w (ss_player s) in
  let msg := ChatMsg (p_name me) (cut oc) in
  snd (step (Recv id (Chat (opt_field oc)) u) w) =
    [{| body := msg; rcpts := sockets_of w (within_range w id me) |};
     {| body := msg; rcpts := [ss_ws s] |}] /\
  Py.len (cut oc) <= 1000.
Proof.
  intros Hj Hal Hd me msg.
  pose proof (nearby_defined w id me (players w) Hd) as Hnear.
  destruct (chat_reaches_nearby w id s oc _ u Hj Hnear Hal) as [H1 [H2 _]].
  split; [exact H1 | exact H2].
Qed.

(** ** What stays in [pending_games] and [active_games] *)

Section Entries.
Variables (h : string) (pg : pending).

Lemma invited_by_ext (w w' : world) :
  pending_games w' = pending_games w -> invited_by h pg w -> invited_by h pg w'.
Proof. unfold invited_by. intros ->. auto. Qed.

Lemma invited_by_pop (k : string) (w : world) :
  k <> h -> invited_by h pg w ->
  invited_by h pg (with_pending_games (Dict.pop k (pending_games w)) w).
Proof.
  unfold invited_by. intros Hk H. cbn. rewrite get_pop.
  replace (String.eqb h k) with false; [exact H |].
  symmetry. apply String.eqb_neq. congruence.
Qed.

Lemma invited_by_set (k : string) (pg' : pending) (w : world) :
  k <> h -> invited_by h pg w ->
  invited_by h pg (with_pending_games (Dict.set k pg' (pending_games w)) w).
Proof.
  unfold invited_by. intros Hk H. cbn. rewrite get_set.
  replace (String.eqb h k) with false; [exact H |].
  symmetry. apply String.eqb_neq. congruence.
Qed.

Lemma hosting_ext (w w' : world) :
  active_games w' = active_games w -> hosting h w -> hosting h w'.
Proof. unfold hosting. intros ->. auto. Qed.

Lemma hosting_set (k : string) (t : nat) (w : world) :
  hosting h w -> hosting h (with_active_games (Dict.set k t (active_games w)) w).
Proof.
  unfold hosting. intro H. cbn. rewrite mem_set, H. apply orb_true_r.
Qed.

Ltac keep_invited :=
  keep;
  try (intros; first
    [ apply invited_by_pop; assumption
    | apply invited_by_set; assumption
    | eapply invited_by_ext; [| eassumption]; reflexivity ]).

Ltac keep_hosting :=
  keep;
  try (intros; first
    [ apply hosting_set; assumption
    | eapply hosting_ext; [| eassumption]; reflexivity ]).

Lemma invited_by_handshake (id : string) (s : session) (f : frame) (u : string) :
  preserves (invited_by h pg) (handshake id s f u).
Proof. unfold handshake, register, set_session. destruct f; keep_invited. Qed.

Lemma invited_by_cleanup (id : string) (s : session) :
  preserves (invited_by h pg) (cleanup id s).
Proof. unfold cleanup, set_session. keep_invited. Qed.

Lemma invited_by_main_loop (id : string) (s : session) (f : frame) :
  (forall k, f = JoinGame (Val k) -> k <> h) ->
  (forall g z, f = StartGame g z -> id <> h) ->
  preserves (invited_by h pg) (main_loop id s f).
Proof.
  intros Hj Hs.
  unfold main_loop, on_move, on_chat, on_global_chat, on_start_game,
    on_join_game, on_paddle_move, mutate, set_session, float_field,
    content_field.
  destruct f as [| | | nm | x y | c | c | g z | [| k |] | hh sd y];
    try (pose proof (Hj k eq_refl) as Hk);
    try (pose proof (Hs g z eq_refl) as Hid);
    keep_invited;
    intros w H; destruct (nth_error (tasks w) _); [| exact H];
    revert H; apply invited_by_ext; reflexivity.
Qed.

Lemma invited_by_game_tick (t : nat) : preserves (invited_by h pg) (game_tick t).
Proof. unfold game_tick. keep_invited. Qed.

Lemma invited_by_step (e : event) (w : world) :
  accepts h e = false -> invites_again h e = false ->
  invited_by h pg w -> invited_by h pg (fst (step e w)).
Proof.
  intros Ha Hi H. destruct e as [id ws | id f u | id | t | ws]; cbn [step].
  - destruct (_ || _); [exact H |]. revert H. apply invited_by_ext. reflexivity.
  - destruct (Dict.get id (sessions w)) as [s |]; [| exact H].
    destruct (ss_phase s); [| | exact H];
      (apply preserves_guarded; [| apply invited_by_cleanup | exact H]).
    + apply invited_by_handshake.
    + apply invited_by_main_loop.
      * intros k ->. cbn in Ha. apply String.eqb_neq, Ha.
      * intros g z ->. cbn in Hi. apply String.eqb_neq, Hi.
  - destruct (Dict.get id (sessions w)) as [s |]; [| exact H].
    destruct (ss_phase s); try exact H;
      (apply preserves_guarded; [keep | apply invited_by_cleanup | exact H]).
  - pose proof (invited_by_game_tick t w H) as Ht.
    destruct (game_tick t w) as [[r w'] o]. exact Ht.
  - revert H. apply invited_by_ext. reflexivity.
Qed.

Lemma hosting_handshake (id : string) (s : session) (f : frame) (u : string) :
  preserves (hosting h) (handshake id s f u).
Proof. unfold handshake, register, set_session. destruct f; keep_hosting. Qed.

Lemma hosting_cleanup (id : string) (s : session) :
  preserves (hosting h) (cleanup id s).
Proof. unfold cleanup, set_session. keep_hosting. Qed.

Lemma hosting_main_loop (id : string) (s : session) (f : frame) :
  preserves (hosting h) (main_loop id s f).
Proof.
  unfold main_loop, on_move, on_chat, on_global_chat, on_start_game,
    on_join_game, on_paddle_move, mutate, set_session, float_field,
    content_field.
  destruct f; keep_hosting;
    intros w H; destruct (nth_error (tasks w) _); [| exact H];
    revert H; apply hosting_ext; reflexivity.
Qed.

Lemma hosting_game_tick (t : nat) : preserves (hosting h) (game_tick t).
Proof. unfold game_tick. keep_hosting. Qed.

Lemma hosting_step (e : event) (w : world) :
  hosting h w -> hosting h (fst (step e w)).
Proof.
  intro H. destruct e as [id ws | id f u | id | t | ws]; cbn [step].
  - destruct (_ || _); [exact H |]. revert H. apply hosting_ext. reflexivity.
  - destruct (Dict.get id (sessions w)) as [s |]; [| exact H].
    destruct (ss_phase s); [| | exact H];
      (apply preserves_guarded; [| apply hosting_cleanup | exact H]).
    + apply hosting_handshake.
    + apply hosting_main_loop.
  - destruct (Dict.get id (sessions w)) as [s |]; [| exact H].
    destruct (ss_phase s); try exact H;
      (apply preserves_guarded; [keep | apply hosting_cleanup | exact H]).
  - pose proof (hosting_game_tick t w H) as Ht.
    destruct (game_tick t w) as [[r w'] o]. exact Ht.
  - revert H. apply hosting_ext. reflexivity.
Qed.
End Entries.

(** X21.  A pending invitation is taken out of [pending_games] by nothing
    but a [join_game] that names its host, and replaced by nothing but a
    [start_game] of its host: every other event, the departure of the host
    included, leaves it as it is. *)
Theorem invitation_stays_until_accepted (e : event) (w : world) (h : string)
    (pg : pending) :
  Dict.get h (pending_games w) = Some pg ->
  accepts h e = false -> invites_again h e = false ->
  Dict.get h (pending_games (fst (step e w))) = Some pg.
Proof. intros H Ha Hi. apply (invited_by_step h pg e w Ha Hi H). Qed.

(** X22.  No event takes an entry out of [active_games]: once a host id
    keys a game it always does, also after the game is over and after
    host and joiner have left. *)
Theorem active_game_stays (e : event) (w : world) (h : string) (t : nat) :
  Dict.get h (active_games w) = Some t ->
  exists t', Dict.get h (active_games (fst (step e w))) = Some t'.
Proof.
  intro H.
  assert (Hh : hosting h w) by (unfold hosting, Dict.mem; rewrite H; reflexivity).
  apply (hosting_step h e w) in Hh. unfold hosting, Dict.mem in Hh.
  destruct (Dict.get h (active_games (fst (step e w)))) as [t' |];
    [eauto | discriminate].
Qed.

(** ** Whom a game loop sends to *)

Section Bound.
Variables (owner : string) (ids : list string).

Let P (w : world) : Prop := bound_to owner ids w.

Lemma bound_ext (w w' : world) : sessions w' = sessions w -> P w -> P w'.
Proof. intros Hs [s H]. exists s. rewrite Hs. exact H. Qed.

Lemma bound_set_other (w : world) (id : string) (s' : session) :
  id <> owner -> P w -> P (with_sessions (Dict.set id s' (sessions w)) w).
Proof.
  intros Hne [s [Hs H]]. exists s. split; [| exact H].
  cbn [sessions with_sessions]. rewrite get_set.
  destruct (String.eqb owner id) eqn:E; [| exact Hs].
  apply String.eqb_eq in E. congruence.
Qed.

Lemma bound_paddle (w : world) (t0 : nat) (side : option string) (y : float) :
  P w ->
  P match nth_error (tasks w) t0 with
    | Some tk =>
        with_tasks
          (list_set t0 (set_state (move_paddle side y (t_state tk)) tk) (tasks w)) w
    | None => w
    end.
Proof.
  intro H. destruct (nth_error (tasks w) t0); [| exact H].
  revert H. apply bound_ext. reflexivity.
Qed.

Ltac keep_bound :=
  keep;
  try (intros; first [ apply bound_set_other; assumption
                     | apply bound_paddle; assumption
                     | eapply bound_ext; [| eassumption]; reflexivity ]).

Lemma bound_handshake (id : string) (s : session) (f : frame) (u : string) :
  id <> owner -> preserves P (handshake id s f u).
Proof.
  intro Hne. unfold handshake, register, set_session. destruct f; keep_bound.
Qed.

Lemma bound_main_loop_other (id : string) (s : session) (f : frame) :
  id <> owner -> preserves P (main_loop id s f).
Proof.
  intro Hne.
  unfold main_loop, on_move, on_chat, on_global_chat, on_start_game,
    on_join_game, on_paddle_move, mutate, set_session, float_field,
    content_field.
  destruct f; keep_bound.
Qed.

Lemma bound_main_loop (id : string) (s : session) (f : frame) (u : string) :
  accepts_as owner (Recv id f u) = false -> preserves P (main_loop id s f).
Proof.
  intro Hf. destruct (String.eqb id owner) eqn:E.
  - unfold main_loop, on_move, on_chat, on_global_chat, on_start_game,
      on_paddle_move, mutate, float_field, content_field.
    destruct f; try (cbn [accepts_as] in Hf; congruence); keep_bound.
  - apply bound_main_loop_other. apply String.eqb_neq. exact E.
Qed.

Lemma bound_cleanup (id : string) (s0 : session) : preserves P (cleanup id s0).
Proof.
  destruct (String.eqb id owner) eqn:E.
  - apply String.eqb_eq in E. subst id. intros w [s [Hs [Hp Hi]]].
    destruct (cleanup_result w owner s0 s Hs) as [w' [Hc [_ [_ [Hs' _]]]]].
    rewrite Hc. cbn [fst snd]. exists (close s).
    split; [exact Hs' |]. split; [discriminate | exact Hi].
  - apply String.eqb_neq in E. unfold cleanup, set_session. keep_bound.
Qed.

Lemma bound_step (e : event) (w : world) :
  accepts_as owner e = false -> P w -> P (fst (step e w)).
Proof.
  intros He H. destruct e as [id ws | id f u | id | t' | ws]; cbn [step].
  - destruct (Dict.mem id (sessions w)) eqn:Hm; cbn [orb]; [exact H |].
    destruct (negb (nonempty id)); [exact H |].
    cbn [fst]. apply bound_set_other; [| exact H].
    intros ->. destruct H as [s [Hs _]]. unfold Dict.mem in Hm.
    rewrite Hs in Hm. discriminate.
  - destruct (Dict.get id (sessions w)) as [s |] eqn:Hs; [| exact H].
    destruct (ss_phase s) eqn:Hp; [| | exact H].
    + apply preserves_guarded;
        [apply bound_handshake | apply bound_cleanup | exact H].
      intros ->. destruct H as [s' [Hs' [Hp' _]]]. congruence.
    + apply preserves_guarded;
        [apply (bound_main_loop id s f u He) | apply bound_cleanup | exact H].
  - destruct (Dict.get id (sessions w)) as [s |]; [| exact H].
    destruct (ss_phase s); try exact H;
      (apply preserves_guarded; [keep | apply bound_cleanup | exact H]).
  - assert (Ht : preserves P (game_tick t')).
    { unfold game_tick. keep_bound. }
    specialize (Ht w H). destruct (game_tick t' w) as [[r w'] o]. exact Ht.
  - revert H. apply bound_ext. reflexivity.
Qed.
End Bound.

Section Plays.
Variables (t : nat) (owner : string) (ids : list string).

Let P (w : world) : Prop := plays t owner ids w.

Lemma plays_ext (w w' : world) : tasks w' = tasks w -> P w -> P w'.
Proof. intros Ht [tk H]. exists tk. rewrite Ht. exact H. Qed.

Lemma plays_append (w : world) (x : game_task) :
  P w -> P (with_tasks (tasks w ++ [x]) w).
Proof.
  intros [tk [Hn H]]. exists tk. split; [| exact H]. cbn.
  rewrite nth_error_app1; [exact Hn |]. apply nth_error_Some. congruence.
Qed.

Lemma plays_set (w : world) (t' : nat) (x : game_task) :
  (forall tk, nth_error (tasks w) t = Some tk -> t' = t ->
              t_owner x = t_owner tk /\
              g_participants (t_state x) = g_participants (t_state tk)) ->
  P w -> P (with_tasks (list_set t' x (tasks w)) w).
Proof.
  intros Hx [tk [Hn [Ho Hg]]]. unfold P, plays. cbn [tasks with_tasks].
  rewrite nth_error_list_set.
  destruct (t =? t')%nat eqn:E.
  - apply Nat.eqb_eq in E. subst t'.
    assert (Hlt : (t <? List.length (tasks w))%nat = true).
    { apply Nat.ltb_lt, nth_error_Some. congruence. }
    rewrite Hlt. cbn [andb]. destruct (Hx tk Hn eq_refl) as [H1 H2].
    exists x. split; [reflexivity |]. split; congruence.
  - cbn [andb]. exists tk. auto.
Qed.

Lemma plays_paddle (w : world) (t0 : nat) (side : option string) (y : float) :
  P w ->
  P match nth_error (tasks w) t0 with
    | Some tk =>
        with_tasks
          (list_set t0 (set_state (move_paddle side y (t_state tk)) tk) (tasks w)) w
    | None => w
    end.
Proof.
  intro H. destruct (nth_error (tasks w) t0) as [tk0 |] eqn:H0; [| exact H].
  apply plays_set; [| exact H].
  intros tk Hn ->. rewrite Hn in H0. injection H0 as <-.
  unfold move_paddle. destruct (is_left side); split; reflexivity.
Qed.

Lemma physics_participants (g : game_state) :
  g_participants (Physics.physics g) = g_participants g.
Proof. unfold Physics.physics. destruct (Physics.score_left _). reflexivity. Qed.

Ltac keep_plays :=
  keep;
  try (intros; first [ apply plays_append; assumption
                     | apply plays_paddle; assumption
                     | eapply plays_ext; [| eassumption]; reflexivity ]).

Lemma plays_handshake (id : string) (s : session) (f : frame) (u : string) :
  preserves P (handshake id s f u).
Proof. unfold handshake, register, set_session. destruct f; keep_plays. Qed.

Lemma plays_cleanup (id : string) (s : session) : preserves P (cleanup id s).
Proof. unfold cleanup, set_session. keep_plays. Qed.

Lemma plays_main_loop (id : string) (s : session) (f : frame) :
  preserves P (main_loop id s f).
Proof.
  unfold main_loop, on_move, on_chat, on_global_chat, on_start_game,
    on_join_game, on_paddle_move, mutate, set_session, float_field,
    content_field.
  destruct f; keep_plays.
Qed.

Lemma plays_tick (t' : nat) (w : world) : P w -> P (fst (step (Tick t') w)).
Proof.
  intros [tk [Hn [Ho Hg]]]. destruct (Nat.eq_dec t' t) as [-> | Hne].
  - destruct (t_running tk) eqn:Hr.
    + pose proof (tick_state w t tk Hn Hr) as Hs. cbv zeta in Hs.
      eexists. split; [exact Hs |].
      destruct (Physics.won _); cbn [t_owner t_state finish set_state];
        (split; [exact Ho | rewrite physics_participants; exact Hg]).
    + rewrite (tick_idle w t).
      * exists tk. auto.
      * right. exists (g_scores (t_state tk)), (g_winTo (t_state tk)), tk. auto.
  - exists tk. split; [| auto].
    apply (task_step t tk (Tick t') w); [| reflexivity | exact Hn].
    cbn [is_tick]. apply Nat.eqb_neq. congruence.
Qed.

Lemma plays_step (e : event) (w : world) : P w -> P (fst (step e w)).
Proof.
  intro H. destruct e as [id ws | id f u | id | t' | ws].
  - cbn [step]. destruct (_ || _); [exact H |].
    revert H. apply plays_ext. reflexivity.
  - cbn [step]. destruct (Dict.get id (sessions w)) as [s |]; [| exact H].
    destruct (ss_phase s); [| | exact H].
    + apply preserves_guarded;
        [apply plays_handshake | apply plays_cleanup | exact H].
    + apply preserves_guarded;
        [apply plays_main_loop | apply plays_cleanup | exact H].
  - cbn [step]. destruct (Dict.get id (sessions w)) as [s |]; [| exact H].
    destruct (ss_phase s); try exact H;
      (apply preserves_guarded; [keep | apply plays_cleanup | exact H]).
  - apply plays_tick, H.
  - cbn [step]. revert H. apply plays_ext. reflexivity.
Qed.
End Plays.

Lemma bound_plays_run (evs : list event) (w : world) (t : nat) (id : string)
    (ids : list string) :
  forallb (fun e => negb (accepts_as id e)) evs = true ->
  bound_to id ids w -> plays t id ids w ->
  bound_to id ids (fst (run evs w)) /\ plays t id ids (fst (run evs w)).
Proof.
  revert w. induction evs as [| e evs IH]; intros w He Hb Hp; [split; assumption |].
  cbn [forallb] in He. apply andb_prop in He. destruct He as [He Hes].
  apply negb_true_iff in He. cbn [run].
  pose proof (bound_step id ids e w He Hb) as Hb1.
  pose proof (plays_step t id ids e w Hp) as Hp1.
  destruct (step e w) as [w1 o]. cbn [fst] in Hb1, Hp1.
  specialize (IH w1 Hes Hb1 Hp1).
  destruct (run evs w1) as [w2 tr]. exact IH.
Qed.

(** An acceptance binds [participant_ids] to the roster and starts a loop
    on a state that lists the roster. *)
Lemma join_game_binds (w : world) (id : string) (s : session)
    (host_id : string) (pg : pending) (u : string) :
  reachable w -> joined w id s ->
  Dict.get host_id (pending_games w) = Some pg ->
  let w' := fst (step (Recv id (JoinGame (Val host_id)) u) w) in
  let ids := map (fun p => p_id (part_player p)) (build_roster w host_id id) in
  bound_to id ids w' /\ plays (List.length (tasks w)) id ids w'.
Proof.
  intros Hr [Hs Hp] Hpg w' ids.
  pose proof (reachable_Inv w Hr) as HI.
  pose proof (@inv_pending w HI host_id pg Hpg) as Hne.
  unfold w'. cbn [step]. rewrite Hs, Hp.
  unfold guarded, main_loop, on_join_game.
  mstep. rewrite Hpg, Hne. mstep.
  rewrite (bind_done _ _ _ _ _ _ (broadcast_all _ _)).
  unfold set_session. mstep. unfold modify. cbn [fst snd app].
  split.
  - eexists. split; [| split].
    + cbn. rewrite get_set, String.eqb_refl. reflexivity.
    + cbn. rewrite Hp. discriminate.
    + reflexivity.
  - eexists. split; [| split].
    + cbn. rewrite nth_error_app2 by lia. rewrite Nat.sub_diag. reflexivity.
    + reflexivity.
    + reflexivity.
Qed.

(** X25.  After an endpoint in its main loop has accepted a pending
    invitation, and for as long as it receives no other [join_game], the
    loop the acceptance started sends to the ids of the roster: in every
    state such a run reaches, the game's state lists the roster's ids,
    and what the next turn of the loop sends goes to the sockets of those
    ids that take it. *)
Theorem loop_sends_to_roster (w : world) (id : string) (s : session)
    (host_id : string) (pg : pending) (u : string) (evs : list event) :
  reachable w -> joined w id s ->
  Dict.get host_id (pending_games w) = Some pg ->
  forallb (fun e => negb (accepts_as id e)) evs = true ->
  let t := List.length (tasks w) in
  let ids := map (fun p => p_id (part_player p)) (build_roster w host_id id) in
  let w' := fst (run evs (fst (step (Recv id (JoinGame (Val host_id)) u) w))) in
  (exists tk, nth_error (tasks w') t = Some tk /\
              g_participants (t_state tk) = ids) /\
  (forall m, In m (snd (step (Tick t) w')) -> rcpts m = sockets_of w' ids).
Proof.
  intros Hr Hj Hpg He t ids w'.
  destruct (join_game_binds w id s host_id pg u Hr Hj Hpg) as [Hb Hp].
  destruct (bound_plays_run evs _ t id ids He Hb Hp) as [Hb' Hp'].
  fold w' in Hb', Hp'.
  destruct Hp' as [tk [Hn [Ho Hg]]]. destruct Hb' as [s' [Hs' [_ Hi]]].
  split; [exists tk; split; assumption |].
  intros m Hin.
  destruct (t_running tk) eqn:Hrun.
  - destruct (tick_turn w' t tk Hn Hrun) as [w2 [Hstep _]].
    rewrite Hstep in Hin. cbn [snd] in Hin.
    assert (Hids : participant_ids_of w' (t_owner tk) = ids).
    { unfold participant_ids_of. rewrite Ho, Hs'. exact Hi. }
    rewrite Hids in Hin.
    destruct Hin as [<- | Hin]; [reflexivity |].
    destruct (Physics.won _); [| contradiction].
    destruct Hin as [<- | []]. reflexivity.
  - rewrite (tick_idle w' t) in Hin; [contradiction |].
    right. exists (g_scores (t_state tk)), (g_winTo (t_state tk)), tk. auto.
Qed.

End Hub.

(** ** The statements at sample runs *)

(** The sample runs are evaluated with the library of [Py.exact_libm]. *)
#[global] Existing Instance Py.exact_libm.

Local Open Scope string_scope.
Local Open Scope list_scope.

(** C2 at a sample run: the game of Ann and Bob is left to itself for 17308
    turns. *)
Lemma unattended_ball_scores_right_witness :
  exists tk',
    nth_error (tasks (fst (run (repeat (Tick 0) 17308) (after playing)))) 0 =
      Some tk' /\
    g_paddles (t_state tk') = {| left_y := 200; right_y := 200 |} /\
    g_scores (t_state tk') = {| s_left := 0; s_right := 1 |} /\
    g_ball (t_state tk') =
      {| b_x := 400; b_y := 250; b_vx := 5; b_vy := 0; b_r := 9 |}.
Proof.
  destruct (unattended_ball_scores_right (after playing) 0
              {| t_state := new_game {| pg_game := "pong"; pg_zone := "arcade";
                                        pg_host := 0; pg_participants := ["a"] |}
                              "a" ["a"; "b"];
                 t_host_id := "a"; t_owner := "b"; t_running := true |}
              (repeat (Tick 0) 17308))
    as [tk' [Hn [_ [Hp [_ [Hs Hb]]]]]].
  - reflexivity.
  - reflexivity.
  - reflexivity.
  - reflexivity.
  - reflexivity.
  - reflexivity.
  - vm_compute. reflexivity.
  - apply Nat.leb_le. vm_compute. reflexivity.
  - exists tk'. split; [exact Hn |]. split; [exact Hp |]. split.
    + rewrite Hs.
      replace (turns 0 (repeat (Tick 0) 17308) =? 17308)%nat with true
        by (vm_compute; reflexivity).
      reflexivity.
    + apply Hb. vm_compute. reflexivity.
Defined.

(** C4 at a sample run: the 70th turn of their game takes the ball, at
    x = 750, into the right paddle; it is put at 758 - 9 and sent back at
    5 * 1.05, level, the ball having been level with the paddle's
    middle. *)
Lemma paddle_collision_witness :
  option_map (fun tk => g_ball (t_state tk))
    (nth_error (tasks (fst (step (Tick 0) (after rally)))) 0) =
    Some {| b_x := 749; b_y := 250; b_vx := -5.25; b_vy := 0; b_r := 9 |}.
Proof.
  destruct (nth_error (tasks (after rally)) 0) as [tk |] eqn:E;
    [| vm_compute in E; discriminate E].
  assert (Hr : option_map t_running (nth_error (tasks (after rally)) 0) =
               Some true) by (vm_compute; reflexivity).
  rewrite E in Hr. cbn [option_map] in Hr. injection Hr as Hr.
  assert (Hb : option_map (fun k => (g_ball (t_state k), g_paddles (t_state k)))
                 (nth_error (tasks (after rally)) 0) =
               Some ({| b_x := 745; b_y := 250; b_vx := 5; b_vy := 0; b_r := 9 |},
                     {| left_y := 200; right_y := 200 |}))
    by (vm_compute; reflexivity).
  rewrite E in Hb. cbn [option_map] in Hb. injection Hb as Hb Hp.
  destruct (paddle_collision (after rally) 0 tk E Hr) as [tk' [Hn [_ Hball]]].
  rewrite Hn. cbn [option_map]. rewrite Hball, Hb, Hp. vm_compute. reflexivity.
Defined.

(** C7 at a sample run: socket 1 proposes the name Ann holds. *)
Lemma duplicate_join_rejected_witness :
  step (Recv "b" (Join (Val "ann")) "u") (after newcomer) =
    (after newcomer,
     [{| body := JoinRejected "duplicate" "ann-1"; rcpts := [1] |}]).
Proof.
  apply (duplicate_join_rejected (after newcomer) "b"
           {| ss_ws := 1; ss_phase := AwaitingJoin; ss_player := 0;
              ss_participant_ids := [] |}
           (Val "ann") "ann" "a" 0 "u").
  - split; reflexivity.
  - reflexivity.
  - simpl. left. reflexivity.
  - reflexivity.
  - reflexivity.
Defined.

(** C8 (amended) at a sample run: Bob accepts Ann's invitation a second
    time. *)
Lemma join_game_without_invite_witness :
  step (Recv "b" (JoinGame (Val "a")) "u") (after playing) = (after playing, []).
Proof.
  apply (join_game_without_invite (after playing) "b"
           {| ss_ws := 1; ss_phase := Joined; ss_player := 1;
              ss_participant_ids := ["a"; "b"] |}
           (Some "a") "u").
  - split; reflexivity.
  - intros host_id E. injection E as <-. reflexivity.
Defined.

(** C8 as stated fails: nothing is pending, and a [join_game] whose
    [host_id] is a non-empty list makes [in] raise; Bob's endpoint ends, he
    leaves both registries and Ann is told. *)
Lemma join_game_unhashable_host :
  let w := after two_players in
  let r := step (Recv "b" (JoinGame Bad) "u") w in
  pending_games w = [] /\
  snd r = [{| body := PlayerLeft "b"; rcpts := [0] |}] /\
  Dict.keys (players w) = ["a"; "b"] /\
  Dict.keys (players (fst r)) = ["a"] /\
  Dict.keys (connections (fst r)) = ["a"].
Proof. vm_compute. repeat split. Qed.




(** C3 (amended) at a sample run: Bob accepts Ann's invitation. *)
Lemma join_game_starts_game_witness :
  let r := step (Recv "b" (JoinGame (Val "a")) "u") (after invited) in
  Dict.get "a" (pending_games (fst r)) = None /\
  snd r =
    [{| body :=
          GameStarted ann "pong" "arcade"
            [{| part_player := ann; part_side := Some "left" |};
             {| part_player := bob; part_side := Some "right" |}];
        rcpts := [0; 1] |}].
Proof.
  destruct (join_game_starts_game (after invited) "b" bob_session "a"
              {| pg_game := "pong"; pg_zone := "arcade"; pg_host := 0;
                 pg_participants := ["a"] |} "u")
    as [H1 [_ [_ [H4 _]]]].
  - exists invited. reflexivity.
  - split; reflexivity.
  - reflexivity.
  - split; [exact H1 | exact H4].
Defined.

(** C3 as stated fails: the invitation outlives Ann's departure, and when
    Bob takes it the roster holds Bob alone. *)
Lemma roster_without_host :
  Dict.mem "a" (pending_games (after host_gone)) = true /\
  snd (step (Recv "b" (JoinGame (Val "a")) "u") (after host_gone)) =
    [{| body :=
          GameStarted ann "pong" "arcade"
            [{| part_player := bob; part_side := Some "right" |}];
        rcpts := [1] |}].
Proof. vm_compute. split; reflexivity. Qed.

(** A game taken after its host had left: the roster holds Bob alone, and
    the one [game_over] of the run goes to his socket alone. *)
Example game_over_to_one_id :
  participant_ids_of (after lone_game) "b" = ["b"] /\
  filter is_game_over (loop_log 0 (snd (run lone_match empty_world))) =
    [{| body := GameOver {| s_left := 7; s_right := 6 |}; rcpts := [1] |}].
Proof. vm_compute. split; reflexivity. Qed.

(** C5.  The [game_over] of a game does not always go to its participants.
    Bob accepts Ann's invitation, which starts the loop of their game, and
    then Cat's: line 189 binds the [participant_ids] of Bob's endpoint
    again, and that is the variable the first loop reads.  From then on
    the snapshots of the game of Ann and Bob, and its one [game_over], go
    to the sockets of Cat and Bob; Ann, a participant who is still
    connected, gets nothing. *)
Theorem game_over_to_other_game :
  option_map (fun tk => g_participants (t_state tk))
    (nth_error (tasks (after two_games)) 0) = Some ["a"; "b"] /\
  participant_ids_of (after two_games) "b" = ["c"; "b"] /\
  map rcpts (snd (step (Tick 0) (after two_games))) = [[2; 1]] /\
  filter is_game_over (loop_log 0 (snd (run first_match empty_world))) =
    [{| body := GameOver {| s_left := 7; s_right := 6 |}; rcpts := [2; 1] |}] /\
  Dict.get "a" (connections (after first_match)) = Some 0.
Proof. vm_compute. repeat split. Qed.

(** C6, the sample of the claim: Ann at (0,0) reaches Bob at (150,0) and not
    Cat at (300,0), and hears herself. *)
Example chat_in_a_row :
  snd (step (Recv "a" (Chat (Val "hi")) "u") (after in_a_row)) =
    [{| body := ChatMsg "ann" "hi"; rcpts := [1] |};
     {| body := ChatMsg "ann" "hi"; rcpts := [0] |}].
Proof. vm_compute. reflexivity. Qed.

(** C6 fails where a square overflows: with Bob at [x = 1e200] the power of
    line 117 raises, so Ann's [chat] reaches nobody, herself included, and
    her endpoint goes through the cleanup of an error. *)
Theorem chat_overflow_closes_sender :
  let r := step (Recv "a" (Chat (Val "hi")) "u") (after far_apart) in
  sq_dist (deref (after far_apart) 1) (deref (after far_apart) 0) = None /\
  snd r = [{| body := PlayerLeft "a"; rcpts := [1] |}] /\
  Dict.mem "a" (players (fst r)) = false /\
  Dict.mem "a" (connections (fst r)) = false /\
  option_map ss_phase (Dict.get "a" (sessions (fst r))) = Some Closed.
Proof. vm_compute. repeat split. Qed.

(** C9.  The registries do not stay in step.  Ann's socket refuses a
    send, Bob's [global_chat] evicts her from both registries, and her
    [move], received before her endpoint ends, puts her back into
    [players] alone (line 108); the registration of Cat that follows
    leaves [players] with a key that [connections] lacks, although the two
    had the same keys until the [move]. *)
Theorem registration_after_ghost_move :
  let w0 := after (two_players ++
                   [Break 0; Recv "b" (GlobalChat (Val "hi")) "u"]) in
  let w := fst (step (Recv "c" (Join (Val "cat")) "u") (after ghost)) in
  Dict.keys (players w0) = ["b"] /\ Dict.keys (connections w0) = ["b"] /\
  Dict.keys (players w) = ["b"; "a"; "c"] /\
  Dict.keys (connections w) = ["b"; "c"].
Proof. vm_compute. repeat split. Qed.

(** ** The further properties at sample runs *)

Lemma connection_has_player_witness :
  exists r, Dict.get "a" (players (after two_players)) = Some r.
Proof. apply (connection_has_player two_players "a" 0). reflexivity. Defined.

Lemma player_stored_under_own_id_witness :
  exists p, nth_error (heap (after two_players)) 1 = Some p /\ p_id p = "b".
Proof. apply (player_stored_under_own_id two_players "b" 1). reflexivity. Defined.

Lemma registered_only_in_main_loop_witness :
  Dict.get "a" (players (after host_gone)) = None /\
  Dict.get "a" (connections (after host_gone)) = None.
Proof.
  apply (registered_only_in_main_loop host_gone "a"
           {| ss_ws := 0; ss_phase := Closed; ss_player := 0;
              ss_participant_ids := [] |}).
  - reflexivity.
  - discriminate.
Defined.

(** The name Bob proposes starts with a no-break space, U+00A0, and ends
    with a blank. *)
Lemma join_registers_witness :
  let name := String "194" (String "160" "bob ") in
  snd (step (Recv "b" (Join (Val name)) "u") (after newcomer)) =
    [{| body := Welcome bob [ann; bob]; rcpts := [1] |};
     {| body := PlayerJoined bob; rcpts := [0] |}].
Proof.
  destruct (join_registers (after newcomer) "b"
              {| ss_ws := 1; ss_phase := AwaitingJoin; ss_player := 0;
                 ss_participant_ids := [] |}
              (Val (String "194" (String "160" "bob "))) "bob" "u")
    as [H _].
  - exists newcomer. reflexivity.
  - split; reflexivity.
  - reflexivity.
  - reflexivity.
  - reflexivity.
  - exact H.
Defined.

Lemma first_frame_auto_name_witness :
  let me := {| p_id := "b"; p_name := "Player-b"; p_x := 100; p_y := 100;
               p_zone := "town" |} in
  snd (step (Recv "b" (Chat (Val "hello")) "u") (after newcomer)) =
    [{| body := Welcome me [ann; me]; rcpts := [1] |};
     {| body := PlayerJoined me; rcpts := [0] |}].
Proof.
  destruct (first_frame_auto_name (after newcomer) "b"
              {| ss_ws := 1; ss_phase := AwaitingJoin; ss_player := 0;
                 ss_participant_ids := [] |} (Chat (Val "hello")) "u")
    as [H _].
  - exists newcomer. reflexivity.
  - split; reflexivity.
  - reflexivity.
  - reflexivity.
  - exact H.
Defined.

Lemma disconnect_cleans_up_witness :
  let r := step (Disconnect "a") (after invited) in
  snd r = [{| body := PlayerLeft "a"; rcpts := [1] |}] /\
  Dict.get "a" (players (fst r)) = None /\
  pending_games (fst r) = pending_games (after invited).
Proof.
  destruct (disconnect_cleans_up (after invited) "a" ann_session)
    as [H1 [H2 [_ [_ [_ [H6 _]]]]]].
  - reflexivity.
  - discriminate.
  - split; [exact H1 |]. split; [exact H2 | exact H6].
Defined.

Lemma unreadable_frame_is_disconnect_witness :
  step (Recv "a" (Move (Val 1%float) Bad) "u") (after two_players) =
  step (Disconnect "a") (after two_players).
Proof.
  apply (unreadable_frame_is_disconnect (after two_players) "a" ann_session).
  - reflexivity.
  - reflexivity.
Defined.

Lemma refused_welcome_undoes_registration_witness :
  let w := fst (step (Break 1) (after newcomer)) in
  snd (step (Recv "b" (Join (Val "bob")) "u") w) =
    [{| body := PlayerLeft "b"; rcpts := [0] |}].
Proof.
  destruct (refused_welcome_undoes_registration
              (fst (step (Break 1) (after newcomer))) "b"
              {| ss_ws := 1; ss_phase := AwaitingJoin; ss_player := 0;
                 ss_participant_ids := [] |} (Val "bob") "bob" "u")
    as [H _].
  - split; reflexivity.
  - reflexivity.
  - reflexivity.
  - reflexivity.
  - exact H.
Defined.

Lemma global_chat_reaches_everyone_witness :
  snd (step (Recv "a" (GlobalChat (Val "hi")) "u") (after two_players)) =
    [{| body := GlobalChatMsg "ann" "hi"; rcpts := [0; 1] |}].
Proof.
  destruct (global_chat_reaches_everyone (after two_players) "a" ann_session
              (Some "hi") "u") as [H _].
  - split; reflexivity.
  - change (GlobalChat (Val "hi")) with (GlobalChat (opt_field (Some "hi"))).
    rewrite H. reflexivity.
Defined.

Lemma start_breakout_is_private_witness :
  step (Recv "a" (StartGame (Some "breakout") None) "u") (after two_players) =
    (after two_players,
     [{| body := GameStarted ann "breakout" "arcade"
                   [{| part_player := ann; part_side := None |}];
         rcpts := [0] |}]).
Proof.
  apply (start_breakout_is_private (after two_players) "a" ann_session None "u").
  - split; reflexivity.
  - reflexivity.
Defined.


Lemma start_game_alone_witness :
  snd (step (Recv "a" (StartGame None None) "u")
         (after [Connect "a" 0; Recv "a" (Join (Val "ann")) "u"])) =
    [{| body := GameStarted ann "minigame" "arcade"
                  [{| part_player := ann; part_side := None |}];
        rcpts := [0] |}].
Proof.
  rewrite (start_game_alone
             (after [Connect "a" 0; Recv "a" (Join (Val "ann")) "u"]) "a"
             ann_session None None "u").
  - reflexivity.
  - split; reflexivity.
  - discriminate.
  - vm_compute. lia.
Defined.

Lemma stray_frames_ignored_witness :
  step (Recv "a" (Join (Val "zoe")) "u") (after two_players) =
    (after two_players, []).
Proof.
  apply (stray_frames_ignored (after two_players) "a" ann_session).
  - split; reflexivity.
  - right. exists (Val "zoe"). reflexivity.
Defined.


Lemma scores_only_grow_witness :
  exists tk',
    nth_error (tasks (fst (step (Tick 0) (after playing)))) 0 = Some tk' /\
    g_winTo (t_state tk') = 7%Z.
Proof.
  destruct (scores_only_grow (Tick 0) (after playing) 0
              {| t_state := new_game {| pg_game := "pong"; pg_zone := "arcade";
                                        pg_host := 0; pg_participants := ["a"] |}
                              "a" ["a"; "b"];
                 t_host_id := "a"; t_owner := "b"; t_running := true |})
    as [tk' [Hn [Hw _]]].
  - reflexivity.
  - exists tk'. split; [exact Hn | exact Hw].
Defined.

Lemma records_keep_identity_witness :
  exists p',
    nth_error (heap (fst (step (Disconnect "a") (after two_players)))) 0 = Some p' /\
    p_name p' = "ann".
Proof.
  destruct (records_keep_identity (Disconnect "a") (after two_players) 0 ann)
    as [p' [Hn [_ [H2 _]]]].
  - reflexivity.
  - exists p'. split; [exact Hn | exact H2].
Defined.

Lemma chat_without_overflow_witness :
  snd (step (Recv "a" (Chat (Val "hi")) "u") (after in_a_row)) =
    [{| body := ChatMsg "ann" "hi"; rcpts := [1] |};
     {| body := ChatMsg "ann" "hi"; rcpts := [0] |}].
Proof.
  destruct (chat_without_overflow (after in_a_row) "a" ann_session (Some "hi") "u")
    as [H _].
  - split; vm_compute; reflexivity.
  - vm_compute. reflexivity.
  - intros pid r Hin _.
    assert (Hall : forallb
              (fun kv : string * nat =>
                 match sq_dist (deref (after in_a_row) (snd kv))
                         (deref (after in_a_row) (ss_player ann_session)) with
                 | Some _ => true
                 | None => false
                 end) (players (after in_a_row)) = true)
      by (vm_compute; reflexivity).
    rewrite forallb_forall in Hall. specialize (Hall _ Hin). cbn [snd] in Hall.
    intro E. rewrite E in Hall. exact (Bool.diff_false_true Hall).
  - revert H. vm_compute. intro H. exact H.
Defined.

Lemma invitation_stays_until_accepted_witness :
  Dict.get "a" (pending_games (fst (step (Disconnect "a") (after invited)))) =
    Some {| pg_game := "pong"; pg_zone := "arcade"; pg_host := 0;
            pg_participants := ["a"] |}.
Proof.
  apply (invitation_stays_until_accepted (Disconnect "a") (after invited) "a").
  - vm_compute. reflexivity.
  - reflexivity.
  - reflexivity.
Defined.

Lemma active_game_stays_witness :
  exists t',
    Dict.get "a" (active_games (fst (step (Disconnect "a") (after playing)))) =
      Some t'.
Proof.
  apply (active_game_stays (Disconnect "a") (after playing) "a" 0).
  vm_compute. reflexivity.
Defined.

Lemma registries_stay_in_step_witness :
  same_keys (fst (step (Disconnect "a") (after two_players))).
Proof.
  apply (registries_stay_in_step (Disconnect "a") (after two_players)).
  - intro k. reflexivity.
  - reflexivity.
Defined.

Lemma loop_sends_to_roster_witness :
  Forall (fun m => rcpts m = [0; 1])
    (snd (step (Tick 0)
            (fst (run [Tick 0; Recv "a" (JoinGame (Val "c")) "u"]
                    (fst (step (Recv "b" (JoinGame (Val "a")) "u")
                            (after invited))))))).
Proof.
  destruct (loop_sends_to_roster (after invited) "b" bob_session "a"
              {| pg_game := "pong"; pg_zone := "arcade"; pg_host := 0;
                 pg_participants := ["a"] |} "u"
              [Tick 0; Recv "a" (JoinGame (Val "c")) "u"]) as [_ H].
  - exists invited. reflexivity.
  - split; reflexivity.
  - reflexivity.
  - reflexivity.
  - apply Forall_forall. intros m Hin.
    etransitivity; [apply H; exact Hin |]. vm_compute. reflexivity.
Defined.
